(** * node-google-play: the request engine of [lib/api.js]

    A shallow embedding of the Google Play client of [lib/api.js] and the
    properties of its login flow, its fingerprint (cache key) builder, its
    memoizing request cache, the prefetch ingester and the download helper.

    Conventions of the embedding.
    - JavaScript strings are [string]s: each character stands for one
      UTF-16 code unit below 256. The embedding covers text in Latin-1 and
      no other text; on this range [toLowerCase], [split] and the JSON
      writer are those of JavaScript.
    - A plain JavaScript object used as a dictionary is the [gmap string _]
      of its own properties when only lookups matter, and the association
      list of its own properties in insertion order when the code
      enumerates it (the [query] argument, whose values are strings,
      booleans and arrays of strings).
    - An assignment [obj[k] = v] of a string [v] to a plain object writes
      the own property [k], except for the key [__proto__]: that
      assignment reaches the accessor of [Object.prototype], which ignores
      a value that is not an object, and nothing is stored.
    - A promise is represented by its identity and its settled outcome; the
      network is a parameter that answers each call at once, so every
      operation of the client runs to completion in one step.
    - [setTimeout] callbacks are kept in an explicit list of pending timers
      that [advance] fires when the clock passes their deadline.
    - [_.memoize] is the one the code is written against: its [cache] is a
      plain object that the code reads, writes and deletes from by key. *)

From Stdlib Require Import ZArith Ascii String.
From stdpp Require Import base tactics option list sorting gmap strings pretty.

(** ** JavaScript values and errors *)

Inductive jsval :=
  | JUndefined
  | JNull
  | JBool (b : bool)
  | JNum (n : Z)
  | JStr (s : string).

Global Instance jsval_eq_dec : EqDecision jsval.
Proof. solve_decision. Defined.

(** [if (v)], [v || w], [!v]. *)
Definition truthy (v : jsval) : bool :=
  match v with
  | JUndefined | JNull => false
  | JBool b => b
  | JNum n => negb (n =? 0)%Z
  | JStr s => negb (bool_decide (s = ""))
  end.

(** [a || b] *)
Definition js_or (a b : jsval) : jsval := if truthy a then a else b.

(** [typeof v === 'undefined'] *)
Definition is_undefined (v : jsval) : bool :=
  match v with JUndefined => true | _ => false end.

(** [String(v)], which is what [util.format] prints for [%s]. *)
Definition String_of (v : jsval) : string :=
  match v with
  | JUndefined => "undefined"
  | JNull => "null"
  | JBool true => "true"
  | JBool false => "false"
  | JNum n => pretty n
  | JStr s => s
  end.

Inductive error :=
  | LoginError (msg : string)
  | RequestError (msg : string)
  | AssertionError (msg : string)
  | TypeError (msg : string)
  | Error (msg : string).

Global Instance error_eq_dec : EqDecision error.
Proof. solve_decision. Defined.

(** [e instanceof LoginError] *)
Definition is_LoginError (e : error) : bool :=
  match e with LoginError _ => true | _ => false end.

(** [assert(cond, msg)] *)
Definition assert (cond : bool) (msg : string) : error + unit :=
  if cond then inr tt else inl (AssertionError msg).

(** ** String primitives *)

(** [s.split(sep)] for a one-character separator. *)
Fixpoint split (sep : ascii) (s : string) : list string :=
  match s with
  | EmptyString => [""]
  | String c s' =>
      if Ascii.eqb c sep then "" :: split sep s'
      else match split sep s' with
           | [] => [String c ""]
           | w :: ws => String c w :: ws
           end
  end.

(** The lower-case mapping of Unicode on the code units below 256: the
    letters A to Z, and the capital letters from U+00C0 to U+00DE except
    the multiplication sign U+00D7, move up by 32; every other code unit
    stays. *)
Definition lower_unit (c : ascii) : ascii :=
  let n := N_of_ascii c in
  if ((65 <=? n) && (n <=? 90)
      || (192 <=? n) && (n <=? 222) && negb (n =? 215))%N
  then ascii_of_N (n + 32) else c.

(** [s.toLowerCase()]. A character of a [string] is a code unit, not a
    byte of UTF-8: the capital E with acute accent is the one character
    ["201"%char], and its lower case is ["233"%char]. *)
Fixpoint toLowerCase (s : string) : string :=
  match s with
  | EmptyString => ""
  | String c s' => String (lower_unit c) (toLowerCase s')
  end.

(** Number of occurrences of a character. *)
Fixpoint count_char (c : ascii) (s : string) : nat :=
  match s with
  | EmptyString => 0
  | String d s' => (if Ascii.eqb d c then 1 else 0) + count_char c s'
  end.

Definition newline : ascii := "010"%char.

(** ** [responseToObj] *)

(** The key under which an assignment of a string stores nothing. *)
Definition is_proto (k : string) : bool := bool_decide (k = "__proto__").

(** The body of the [reduce] callback of [responseToObj]; [obj] holds the
    own properties of the object. *)
Definition responseToObj_step (obj : gmap string string) (line : string)
  : error + gmap string string :=
  let pair := split "=" line in
  match assert (bool_decide (length pair = 2)) "expected list of pairs from server" with
  | inl e => inl e
  | inr _ =>
      match pair with
      | key :: val :: _ =>
          let key := toLowerCase key in
          inr (if is_proto key then obj else <[key := val]> obj)
      | _ => inr obj
      end
  end.

(** [_.reduce(list, f, acc)] with a callback that may throw. *)
Fixpoint reduce {A B : Type} (f : B → A → error + B) (l : list A) (acc : B)
  : error + B :=
  match l with
  | [] => inr acc
  | x :: l' =>
      match f acc x with
      | inl e => inl e
      | inr acc' => reduce f l' acc'
      end
  end.

Definition responseToObj (lines : string) : error + gmap string string :=
  reduce responseToObj_step (split newline lines) ∅.


(** ** Error-monad notation for code that may throw *)

Definition ebind {A B : Type} (m : error + A) (k : A → error + B) : error + B :=
  match m with
  | inl e => inl e
  | inr a => k a
  end.

Notation "'do' x <- m ; k" := (ebind m (fun x => k))
  (at level 10, x name, m at level 100, k at level 200).
Notation "'check' m ; k" := (ebind m (fun _ => k))
  (at level 10, m at level 100, k at level 200).

(** ** The fingerprint: [cachedGetResolver] *)

(** Values a query object holds; each has a [toString] method. They are
    strings, booleans and arrays of strings; numbers are left out, since
    lodash enumerates an object with a numeric member named [length] as an
    array and not by its own members. *)
Inductive qval :=
  | QStr (s : string)
  | QBool (b : bool)
  | QArr (l : list string).

(** [v.toString()] *)
Definition qval_toString (v : qval) : string :=
  match v with
  | QStr s => s
  | QBool true => "true"
  | QBool false => "false"
  | QArr l => String.concat "," l
  end.

(** A JavaScript object whose properties are enumerated: the list of its
    own properties in insertion order. *)
Fixpoint obj_set {V : Type} (o : list (string * V)) (k : string) (v : V)
  : list (string * V) :=
  match o with
  | [] => [(k, v)]
  | (k', v') :: o' =>
      if decide (k' = k) then (k, v) :: o' else (k', v') :: obj_set o' k v
  end.

Fixpoint obj_get {V : Type} (o : list (string * V)) (k : string) : option V :=
  match o with
  | [] => None
  | (k', v') :: o' => if decide (k' = k) then Some v' else obj_get o' k
  end.

(** [Object.keys(o)] *)
Definition obj_keys {V : Type} (o : list (string * V)) : list string := o.*1.

Definition dquote : ascii := "034"%char.
Definition backslash : ascii := "092"%char.

Definition hex_digit (n : N) : ascii :=
  match n with
  | 0 => "0" | 1 => "1" | 2 => "2" | 3 => "3" | 4 => "4" | 5 => "5"
  | 6 => "6" | 7 => "7" | 8 => "8" | 9 => "9" | 10 => "a" | 11 => "b"
  | 12 => "c" | 13 => "d" | 14 => "e" | _ => "f"
  end%N%char.

(** How [JSON.stringify] writes one code unit inside a string literal. *)
Definition json_escape (c : ascii) : string :=
  let n := N_of_ascii c in
  if (n =? 8)%N then String backslash "b"
  else if (n =? 9)%N then String backslash "t"
  else if (n =? 10)%N then String backslash "n"
  else if (n =? 12)%N then String backslash "f"
  else if (n =? 13)%N then String backslash "r"
  else if (n =? 34)%N then String backslash (String dquote "")
  else if (n =? 92)%N then String backslash (String backslash "")
  else if (n <? 32)%N then
    String backslash ("u00" +:+ String (hex_digit (n / 16)) (String (hex_digit (n mod 16)) ""))
  else String c "".

Fixpoint json_escape_string (s : string) : string :=
  match s with
  | EmptyString => ""
  | String c s' => json_escape c +:+ json_escape_string s'
  end.

(** [JSON.stringify(s)] for a string [s]. *)
Definition json_quote (s : string) : string :=
  String dquote (json_escape_string s +:+ String dquote "").

(** [stringify(o)] of json-stable-stringify for an object with string
    values and no [space] option: the keys are sorted, each is looked up
    and written as ["key":"value"]. *)
Definition stringify_member (o : list (string * string)) (k : string) : option string :=
  match obj_get o k with
  | Some v => Some (json_quote k +:+ ":" +:+ json_quote v)
  | None => None
  end.

Definition stringify (o : list (string * string)) : string :=
  let keys := merge_sort String.le (obj_keys o) in
  "{" +:+ String.concat "," (omap (stringify_member o) keys) +:+ "}".

(** The [_.reduce] of [cachedGetResolver]: [aux[k] = v.toString()] for
    each own member of [query]; the assignment stores nothing for a member
    named [__proto__]. *)
Definition stringify_values_step (aux : list (string * string)) (kv : string * qval)
  : list (string * string) :=
  if is_proto kv.1 then aux else obj_set aux kv.1 (qval_toString kv.2).

Definition stringify_values (query : list (string * qval)) : list (string * string) :=
  foldl stringify_values_step [] query.

Definition cachedGetResolver (path : string) (query : list (string * qval))
    (datapost : jsval) : string :=
  path +:+ "|" +:+ stringify (stringify_values query) +:+ "|post=" +:+ String_of datapost.

(** ** Wire messages (the part of the protobuf schema the client reads) *)

Record DocV2 := { docid : string; title : string }.

(** An optional field that the message does not carry reads as
    undefined. *)
Record HttpCookie := { cookie_name : option string; cookie_value : option string }.

Record AppDeliveryData := {
  downloadUrl : string;
  downloadAuthCookie : list HttpCookie
}.

Record PurchaseStatusResponse := { appDeliveryData : option AppDeliveryData }.

Record BuyResponse := { purchaseStatusResponse : option PurchaseStatusResponse }.

Record DetailsResponse := { docV2 : option DocV2 }.

Record ListResponse := { doc : option (list DocV2) }.

Record Payload := {
  detailsResponse : option DetailsResponse;
  listResponse : option ListResponse;
  buyResponse : option BuyResponse
}.

Inductive ResponseWrapper :=
  | mkResponseWrapper (payload : option Payload) (preFetch : option (list PreFetch))
with PreFetch :=
  | mkPreFetch (url : string) (response : option ResponseWrapper).

Definition payload (m : ResponseWrapper) : option Payload :=
  match m with mkResponseWrapper p _ => p end.
Definition preFetch (m : ResponseWrapper) : option (list PreFetch) :=
  match m with mkResponseWrapper _ f => f end.
Definition url (e : PreFetch) : string :=
  match e with mkPreFetch u _ => u end.
Definition response (e : PreFetch) : option ResponseWrapper :=
  match e with mkPreFetch _ r => r end.

(** ** Promises, requests and the environment *)

(** What a cached promise resolves to: the memoized transport yields a
    [Buffer], the prefetch ingester stores a decoded message. *)
Inductive value :=
  | VBuffer (bytes : string)
  | VMessage (m : ResponseWrapper).

(** A promise: its identity and its settled outcome. *)
Record promise := { promise_id : nat; settled : error + value }.

(** The result of calling an asynchronous operation. *)
Inductive outcome (A : Type) :=
  | Throws (e : error)
  | Rejected (e : error)
  | Fulfilled (a : A).
Arguments Throws {A} e.
Arguments Rejected {A} e.
Arguments Fulfilled {A} a.

Record http_response := {
  statusCode : Z;
  content_type : option string;
  body : string
}.

Inductive net_result :=
  | NetFail (e : error)
  | NetOk (res : http_response).

Inductive http_method := GET | POST.

Record login_request := {
  login_url : string;
  login_form : list (string * jsval)
}.

Record api_request := {
  req_method : http_method;
  req_url : string;
  req_qs : list (string * qval);
  req_headers : list (string * jsval);
  req_body : jsval
}.

(** What [_prepCookies] may receive as its first argument [url]. *)
Inductive arg :=
  | ArgUndefined
  | ArgString (s : string)
  | ArgCookies (l : list HttpCookie).

(** A cookie jar: the [setCookie(cookie, url)] calls it has taken, each
    with the text the cookie was parsed from. *)
Definition jar := list (string * arg).

Record download_request := {
  dl_url : string;
  dl_jar : jar;
  dl_headers : list (string * string)
}.

(** The collaborators of the client: the remote hosts, Node's
    [querystring.parse], the protobuf codec, the schema file, and the
    cookie jar of the request library. [setCookie_error j text url] is the
    error that [jar.setCookie(request.cookie(text), url)] throws on a jar
    that has taken the cookies [j], if it throws. *)
Record Env := {
  auth_server : login_request → net_result;
  api_server : nat → api_request → net_result;
  download_server : download_request → net_result;
  qs_parse : string → list (string * qval);
  ResponseWrapper_parse : value → error + option ResponseWrapper;
  desc_file : option string;
  setCookie_error : jar → string → arg → option error
}.

(** ** The client *)

(** The variables captured by the closure that [GooglePlay] returns,
    together with the observable state of the world around it: the clock,
    the pending [setTimeout] callbacks, and the requests sent so far. *)
Record client := {
  username : jsval;
  password : jsval;
  androidId : jsval;
  USE_CACHE : bool;
  debug : bool;
  authToken : option string;
  cache : gmap string promise;
  timers : list (Z * string);
  clock : Z;
  transport_log : list api_request;
  download_log : list download_request;
  promises : nat
}.

Definition set_authToken (t : option string) (st : client) : client :=
  {| username := username st; password := password st; androidId := androidId st;
     USE_CACHE := USE_CACHE st; debug := debug st; authToken := t;
     cache := cache st; timers := timers st; clock := clock st;
     transport_log := transport_log st; download_log := download_log st;
     promises := promises st |}.

Definition set_cache (c : gmap string promise) (st : client) : client :=
  {| username := username st; password := password st; androidId := androidId st;
     USE_CACHE := USE_CACHE st; debug := debug st; authToken := authToken st;
     cache := c; timers := timers st; clock := clock st;
     transport_log := transport_log st; download_log := download_log st;
     promises := promises st |}.

Definition set_timers (t : list (Z * string)) (st : client) : client :=
  {| username := username st; password := password st; androidId := androidId st;
     USE_CACHE := USE_CACHE st; debug := debug st; authToken := authToken st;
     cache := cache st; timers := t; clock := clock st;
     transport_log := transport_log st; download_log := download_log st;
     promises := promises st |}.

Definition set_clock (t : Z) (st : client) : client :=
  {| username := username st; password := password st; androidId := androidId st;
     USE_CACHE := USE_CACHE st; debug := debug st; authToken := authToken st;
     cache := cache st; timers := timers st; clock := t;
     transport_log := transport_log st; download_log := download_log st;
     promises := promises st |}.

Definition set_transport_log (l : list api_request) (st : client) : client :=
  {| username := username st; password := password st; androidId := androidId st;
     USE_CACHE := USE_CACHE st; debug := debug st; authToken := authToken st;
     cache := cache st; timers := timers st; clock := clock st;
     transport_log := l; download_log := download_log st;
     promises := promises st |}.

Definition set_download_log (l : list download_request) (st : client) : client :=
  {| username := username st; password := password st; androidId := androidId st;
     USE_CACHE := USE_CACHE st; debug := debug st; authToken := authToken st;
     cache := cache st; timers := timers st; clock := clock st;
     transport_log := transport_log st; download_log := l;
     promises := promises st |}.

Definition set_promises (n : nat) (st : client) : client :=
  {| username := username st; password := password st; androidId := androidId st;
     USE_CACHE := USE_CACHE st; debug := debug st; authToken := authToken st;
     cache := cache st; timers := timers st; clock := clock st;
     transport_log := transport_log st; download_log := download_log st;
     promises := n |}.

(** Constants of the closure. *)
Definition SERVICE := "androidmarket".
Definition URL_LOGIN := "https://android.clients.google.com/auth".
Definition ACCOUNT_TYPE_HOSTED_OR_GOOGLE := "HOSTED_OR_GOOGLE".
Definition SDK_VERSION := "16".
Definition DEVICE_COUNTRY := "us".
Definition OPERATOR_COUNTRY := "us".
Definition LOGIN_LANGUAGE := "us".
Definition UNSUPPORTED_EXPERIMENTS : list string :=
  [ "nocache:billing.use_charging_poller";
    "market_emails"; "buyer_currency"; "prod_baseline";
    "checkin.set_asset_paid_app_field"; "shekel_test"; "content_ratings";
    "buyer_currency_in_app"; "nocache:encrypted_apk"; "recent_changes" ].
Definition ENABLED_EXPERIMENTS : list string :=
  [ "cl:billing.select_add_instrument_by_default" ].
Definition CLIENT_ID := "am-android-google".
Definition USER_AGENT :=
  "Android-Finsky/4.3.11 " +:+
  "(api=3,versionCode=80230011,sdk=17,device=toro,hardware=tuna,product=mysid)".
Definition ACCEPT_LANGUAGE := "en_US".
Definition ANDROID_VENDING := "com.android.vending".
Definition DOWNLOAD_MANAGER_USER_AGENT :=
  "AndroidDownloadManager/4.2.2 (Linux; U; Android 4.2.2; Galaxy Nexus Build/JDQ39)".
Definition CACHE_INVALIDATION_INTERVAL : Z := 30000.

(** [_.getOrElseThrow(thing, msg)] *)
Definition getOrElseThrow (thing : jsval) (msg : string) : error + unit :=
  if is_undefined thing then inl (Error msg) else inr tt.

(** The regular expression of [_tryHandlePrefetch] (any characters, a
    question mark, any characters): the dot stops at a line terminator, so
    the match lies in the first line that holds a question mark, and the
    greedy first group runs up to the last question mark of that line. *)
Definition is_line_terminator (c : ascii) : bool :=
  (Ascii.eqb c "010" || Ascii.eqb c "013")%char.

Fixpoint lines_of (s : string) : list string :=
  match s with
  | EmptyString => [""]
  | String c s' =>
      if is_line_terminator c then "" :: lines_of s'
      else match lines_of s' with
           | [] => [String c ""]
           | w :: ws => String c w :: ws
           end
  end.

(** Split a line at its last question mark. *)
Definition split_last_question (line : string) : option (string * string) :=
  match reverse (split "?" line) with
  | after :: before :: more =>
      Some (String.concat "?" (reverse (before :: more)), after)
  | _ => None
  end.

Fixpoint first_match (ls : list string) : option (string * string) :=
  match ls with
  | [] => None
  | l :: ls' =>
      match split_last_question l with
      | Some m => Some m
      | None => first_match ls'
      end
  end.

Definition url_regex_exec (u : string) : option (string * string) :=
  first_match (lines_of u).

(** Property names that read as a truthy value on the function object
    returned by [_.memoize] (own and inherited ones). *)
Definition function_properties : list string :=
  [ "cache"; "prototype"; "constructor"; "call"; "apply"; "bind"; "toString";
    "toLocaleString"; "valueOf"; "hasOwnProperty"; "isPrototypeOf";
    "propertyIsEnumerable"; "__proto__"; "__defineGetter__";
    "__defineSetter__"; "__lookupGetter__"; "__lookupSetter__" ].

(** [memoizedExecuteRequestApi2[key]], read as a condition. *)
Definition memoized_property_truthy (key : string) : bool :=
  bool_decide (key ∈ function_properties).

(** [delete cache[key]] for every timer that is due. *)
Definition fire (due : list (Z * string)) (c : gmap string promise)
  : gmap string promise :=
  foldl (fun c t => delete t.2 c) c due.

(** Let [d] milliseconds pass: the callbacks of the timers whose deadline
    has been reached run. *)
Definition advance (d : Z) (st : client) : client :=
  let t := (clock st + d)%Z in
  let due := filter (fun x => (x.1 ≤ t)%Z) (timers st) in
  let rest := filter (fun x => ¬ (x.1 ≤ t)%Z) (timers st) in
  set_clock t (set_timers rest (set_cache (fire due (cache st)) st)).

(** What [getDownloadInfo] resolves to. *)
Record grant := { grant_url : string; grant_cookies : list HttpCookie }.

Section Client.
Variable env : Env.

(** The constructor [GooglePlay(username, password, androidId, useCache,
    debug)]; reading the schema file is its last step. *)
Definition GooglePlay (username password androidId useCache debug : jsval)
  : error + client :=
  let androidId := js_or androidId JNull in
  let debug := bool_decide (debug = JBool true) in
  let USE_CACHE := bool_decide (useCache = JBool true) in
  check getOrElseThrow username "Require username";
  check getOrElseThrow password "Require password";
  check getOrElseThrow androidId "Require Android ID";
  match desc_file env with
  | None => inl (Error "ENOENT: no such file or directory './lib/gen/googleplay.desc'")
  | Some _ =>
      inr {| username := username; password := password; androidId := androidId;
             USE_CACHE := USE_CACHE; debug := debug; authToken := None;
             cache := ∅; timers := []; clock := 0;
             transport_log := []; download_log := []; promises := 0 |}
  end.

(** *** [login] *)

Definition login_body (st : client) : list (string * jsval) :=
  [ ("Email", username st);
    ("Passwd", password st);
    ("service", JStr SERVICE);
    ("accountType", JStr ACCOUNT_TYPE_HOSTED_OR_GOOGLE);
    ("has_permission", JStr "1");
    ("source", JStr "android");
    ("androidId", androidId st);
    ("app", JStr ANDROID_VENDING);
    ("device_country", JStr DEVICE_COUNTRY);
    ("operatorCountry", JStr OPERATOR_COUNTRY);
    ("lang", JStr LOGIN_LANGUAGE);
    ("sdk_version", JStr SDK_VERSION) ].

(** The callback given to [spread]: it yields the new token or throws. *)
Definition login_callback (res : http_response) : error + string :=
  if negb (statusCode res =? 200)%Z then inl (LoginError (body res))
  else
    check assert (statusCode res =? 200)%Z "login failed";
    check assert (bool_decide (content_type res = Some "text/plain; charset=utf-8"))
                 "utf8 string body";
    do response <- responseToObj (body res);
    match response !! "auth" with
    | Some auth =>
        if bool_decide (auth = "") then inl (Error "expected auth in server response")
        else inr auth
    | None => inl (Error "expected auth in server response")
    end.

Definition login (st : client) : outcome unit * client :=
  if (is_undefined (username st) || is_undefined (password st))
     && bool_decide (authToken st = None)
  then (Throws (Error "You must provide a username and password or set the auth token."), st)
  else
    match auth_server env {| login_url := URL_LOGIN; login_form := login_body st |} with
    | NetFail e => (Rejected e, st)
    | NetOk res =>
        match login_callback res with
        | inl e => (Rejected e, st)
        | inr auth => (Fulfilled tt, set_authToken (Some auth) st)
        end
    end.

(** *** The transport: [_executeRequestApi2] *)

Definition api_headers (st : client) (token : string) : list (string * jsval) :=
  [ ("Accept-Language", JStr ACCEPT_LANGUAGE);
    ("Authorization", JStr ("GoogleLogin auth=" +:+ token));
    ("X-DFE-Enabled-Experiments", JStr (String.concat "," ENABLED_EXPERIMENTS));
    ("X-DFE-Unsupported-Experiments", JStr (String.concat "," UNSUPPORTED_EXPERIMENTS));
    ("X-DFE-Device-Id", androidId st);
    ("X-DFE-Client-Id", JStr CLIENT_ID);
    ("User-Agent", JStr USER_AGENT);
    ("X-DFE-SmallestScreenWidthDp", JStr "320");
    ("X-DFE-Filter-Level", JStr "3");
    ("Host", JStr "android.clients.google.com") ].

(** [handleRequest]: a POST when [datapost] is truthy, else a GET. *)
Definition handleRequest (st : client) (token path : string)
    (query : list (string * qval)) (datapost contentType : jsval) : api_request :=
  let headers := api_headers st token in
  let url := "https://android.clients.google.com/fdfe/" +:+ path in
  if truthy datapost then
    {| req_method := POST; req_url := url; req_qs := query;
       req_headers := headers ++ [("Content-Type", contentType)];
       req_body := datapost |}
  else
    {| req_method := GET; req_url := url; req_qs := query;
       req_headers := headers; req_body := JUndefined |}.

(** The callback given to [spread] after the request. *)
Definition api_callback (res : http_response) : error + value :=
  if negb (statusCode res =? 200)%Z then inl (RequestError (body res))
  else
    check assert (statusCode res =? 200)%Z "http status code";
    check assert (bool_decide (content_type res = Some "application/x-gzip"))
                 "not application/x-gzip response";
    inr (VBuffer (body res)).

(** The assert on the token throws before any promise exists. The asserts
    on [path] and on [Buffer.isBuffer(body)] hold here: [path] is a string,
    and the request is made with [encoding: null]. *)
Definition _executeRequestApi2 (st : client) (path : string)
    (query : list (string * qval)) (datapost contentType : jsval)
  : (error + promise) * client :=
  match authToken st with
  | None => (inl (AssertionError "need auth token"), st)
  | Some token =>
      let contentType :=
        js_or contentType (JStr "application/x-www-form-urlencoded; charset=UTF-8") in
      let req := handleRequest st token path query datapost contentType in
      let result :=
        match api_server env (length (transport_log st)) req with
        | NetFail e => inl e
        | NetOk res => api_callback res
        end in
      (inr {| promise_id := promises st; settled := result |},
       set_promises (S (promises st))
         (set_transport_log (transport_log st ++ [req]) st))
  end.

(** *** The cache: [_.memoize(_executeRequestApi2, cachedGetResolver)]

    The memoized function looks the key up among the own properties of
    its [cache] object; on a miss it calls the function and stores what
    it returned. Without [USE_CACHE] the function is used as it is. *)
Definition memoizedExecuteRequestApi2 (st : client) (path : string)
    (query : list (string * qval)) (datapost contentType : jsval)
  : (error + promise) * client :=
  if USE_CACHE st then
    let key := cachedGetResolver path query datapost in
    match cache st !! key with
    | Some p => (inr p, st)
    | None =>
        match _executeRequestApi2 st path query datapost contentType with
        | (inl e, st') => (inl e, st')
        | (inr p, st') => (inr p, set_cache (<[key := p]> (cache st')) st')
        end
    end
  else _executeRequestApi2 st path query datapost contentType.

(** *** The prefetch ingester: [_tryHandlePrefetch] *)

(** The callback of [forEach] for one entry. *)
Definition prefetch_entry (ttl : Z) (st : client) (entry : PreFetch)
  : (error + unit) * client :=
  match url_regex_exec (url entry) with
  | None => (inr tt, st)
  | Some (path, qstr) =>
      let query := qs_parse env qstr in
      let cacheKey := cachedGetResolver path query (JBool false) in
      if negb (USE_CACHE st) then (inl (AssertionError "undefined cache"), st)
      else
        match response entry with
        | None => (inl (AssertionError "need defined response to cache"), st)
        | Some r =>
            if memoized_property_truthy cacheKey then (inr tt, st)
            else
              let p := {| promise_id := promises st; settled := inr (VMessage r) |} in
              let st1 := set_promises (S (promises st))
                           (set_cache (<[cacheKey := p]> (cache st)) st) in
              if negb (ttl =? 0)%Z
              then (inr tt, set_timers (timers st1 ++ [((clock st1 + ttl)%Z, cacheKey)]) st1)
              else (inr tt, st1)
        end
  end.

(** [forEach]: an entry that throws ends the loop. *)
Fixpoint prefetch_entries (ttl : Z) (st : client) (entries : list PreFetch)
  : (error + unit) * client :=
  match entries with
  | [] => (inr tt, st)
  | entry :: rest =>
      match prefetch_entry ttl st entry with
      | (inl e, st') => (inl e, st')
      | (inr _, st') => prefetch_entries ttl st' rest
      end
  end.

Definition _tryHandlePrefetch (st : client) (response : ResponseWrapper) (ttl : Z)
  : (error + unit) * client :=
  match preFetch response with
  | None => (inr tt, st)
  | Some entries => prefetch_entries ttl st entries
  end.

(** *** The request handler: [executeRequestApi] *)

Definition _toResponseWrapper (data : value) : error + option ResponseWrapper :=
  ResponseWrapper_parse env data.

Definition executeRequestApi (st : client) (path : string)
    (query : list (string * qval)) (datapost contentType : jsval)
  : outcome ResponseWrapper * client :=
  match memoizedExecuteRequestApi2 st path query datapost contentType with
  | (inl e, st1) => (Throws e, st1)
  | (inr p, st1) =>
      match settled p with
      | inl e => (Rejected e, st1)
      | inr body =>
          match _toResponseWrapper body with
          | inl e => (Rejected e, st1)
          | inr None => (Rejected (AssertionError "empty response"), st1)
          | inr (Some message) =>
              if USE_CACHE st1 then
                match _tryHandlePrefetch st1 message CACHE_INVALIDATION_INTERVAL with
                | (inl e, st2) => (Rejected e, st2)
                | (inr _, st2) => (Fulfilled message, st2)
                end
              else (Fulfilled message, st1)
          end
      end
  end.

(** [promise.then(f)] for a callback that returns a plain value or throws. *)
Definition and_then {A B : Type} (r : outcome A * client) (f : A → error + B)
  : outcome B * client :=
  match r with
  | (Throws e, st) => (Throws e, st)
  | (Rejected e, st) => (Rejected e, st)
  | (Fulfilled a, st) =>
      match f a with
      | inl e => (Rejected e, st)
      | inr b => (Fulfilled b, st)
      end
  end.

(** [res.payload.x]: a [TypeError] when [res.payload] is undefined. *)
Definition payload_of (res : ResponseWrapper) : error + Payload :=
  match payload res with
  | Some p => inr p
  | None => inl (TypeError "Cannot read property of undefined")
  end.

Definition getPackageDetails (st : client) (pkg : string)
  : outcome (option DocV2) * client :=
  and_then (executeRequestApi st "details" [("doc", QStr pkg)] JUndefined JUndefined)
    (fun res =>
       do p <- payload_of res;
       match detailsResponse p with
       | Some d => inr (docV2 d)
       | None => inl (TypeError "Cannot read property 'docV2' of undefined")
       end).

Definition getRelatedApps (st : client) (pkg : string)
  : outcome (list DocV2) * client :=
  and_then
    (executeRequestApi st "rec" [("doc", QStr pkg); ("rt", QStr "1"); ("c", QStr "3")]
       JUndefined JUndefined)
    (fun res =>
       do p <- payload_of res;
       match listResponse p with
       | None => inl (AssertionError "expected response")
       | Some l =>
           match doc l with
           | None => inl (AssertionError "expected doc")
           | Some docs => inr docs
           end
       end).

Definition getDownloadInfo (st : client) (pkg : string) (versionCode : Z)
  : outcome grant * client :=
  let body := "ot=1&doc=" +:+ pkg +:+ "&vc=" +:+ pretty versionCode in
  and_then (executeRequestApi st "purchase" [] (JStr body) JUndefined)
    (fun res =>
       do p <- payload_of res;
       match buyResponse p with
       | None => inl (AssertionError "expected buy response")
       | Some b =>
           match purchaseStatusResponse b with
           | None => inl (AssertionError "expected purchaseStatusResponse")
           | Some purchaseStatusResponse =>
               match appDeliveryData purchaseStatusResponse with
               | None => inl (TypeError "Cannot read property 'downloadUrl' of undefined")
               | Some d =>
                   inr {| grant_url := downloadUrl d;
                          grant_cookies := downloadAuthCookie d |}
               end
           end
       end).

(** *** [_prepCookies(url, cookies)]

    [cookies] is an array of cookie messages or undefined. The first
    assert of the callback holds for a decoded message; the other two fail
    when the message lacks the field. The jar may refuse the cookie, and
    then [setCookie] throws. [_.chain(c).reduce(f, acc).value()] is [acc]
    when [c] is undefined. *)
Definition _prepCookies_step (u : arg) (j : jar) (cookie : HttpCookie) : error + jar :=
  check assert (bool_decide (is_Some (cookie_name cookie))) "expected cookie name string";
  check assert (bool_decide (is_Some (cookie_value cookie))) "expected cookie value string";
  let asStr := default "" (cookie_name cookie) +:+ "=" +:+ default "" (cookie_value cookie) in
  match setCookie_error env j asStr u with
  | Some e => inl e
  | None => inr (j ++ [(asStr, u)])
  end.

Definition _prepCookies (u : arg) (cookies : option (list HttpCookie)) : error + jar :=
  match cookies with
  | Some l => reduce (_prepCookies_step u) l []
  | None => inr []
  end.

(** *** [downloadApk]: the jar is built by [_prepCookies(res.cookies)] *)
Definition downloadApk (st : client) (pkg : string) (versionCode : Z)
  : outcome http_response * client :=
  let headers := [("User-Agent", DOWNLOAD_MANAGER_USER_AGENT)] in
  match getDownloadInfo st pkg versionCode with
  | (Throws e, st1) => (Throws e, st1)
  | (Rejected e, st1) => (Rejected e, st1)
  | (Fulfilled res, st1) =>
      let url := grant_url res in
      match _prepCookies (ArgCookies (grant_cookies res)) None with
      | inl e => (Rejected e, st1)
      | inr cookieJar =>
          let req := {| dl_url := url; dl_jar := cookieJar; dl_headers := headers |} in
          let st2 := set_download_log (download_log st1 ++ [req]) st1 in
          match download_server env req with
          | NetFail e => (Rejected e, st2)
          | NetOk r => (Fulfilled r, st2)
          end
      end
  end.

(** [cachedKeys] *)
Definition cachedKeys (st : client) : list string := (map_to_list (cache st)).*1.

(** [invalidateCache]: the cache object has no method [each] (and without
    [USE_CACHE] there is no cache object), so the call throws before it
    deletes anything. *)
Definition invalidateCache (st : client) : (error + unit) * client :=
  (inl (TypeError "memoizedExecuteRequestApi2.cache.each is not a function"), st).

End Client.

(** ** Reading the result of [responseToObj] *)

(** The key and value a line contributes, when it splits in two. *)
Definition line_pair (line : string) : option (string * string) :=
  match split "=" line with
  | [key; val] => Some (toLowerCase key, val)
  | _ => None
  end.

(** The value given to [k] by the last line whose key is [k]. *)
Fixpoint last_value (k : string) (ls : list string) : option string :=
  match ls with
  | [] => None
  | l :: ls' =>
      match last_value k ls' with
      | Some v => Some v
      | None =>
          match line_pair l with
          | Some (k', v) => if decide (k' = k) then Some v else None
          | None => None
          end
      end
  end.

(** The lower-cased keys of the lines of a response body. *)
Definition body_keys (body : string) : list string :=
  (fun line => toLowerCase (hd "" (split "=" line))) <$> split newline body.

(** ** Reading a fingerprint *)

(** The last character of a string. *)
Fixpoint last_char (s : string) : option ascii :=
  match s with
  | EmptyString => None
  | String c EmptyString => Some c
  | String _ s' => last_char s'
  end.

Definition hex_value (c : ascii) : option N :=
  let n := N_of_ascii c in
  if ((48 <=? n) && (n <=? 57))%N then Some (n - 48)%N
  else if ((97 <=? n) && (n <=? 102))%N then Some (n - 87)%N
  else None.

(** Reads back the first code unit of the inside of a JSON string
    literal; [None] at the closing quote. *)
Definition json_unescape (s : string) : option (ascii * string) :=
  match s with
  | EmptyString => None
  | String c r =>
      if Ascii.eqb c backslash then
        match r with
        | String "b" r' => Some ("008", r')
        | String "t" r' => Some ("009", r')
        | String "n" r' => Some ("010", r')
        | String "f" r' => Some ("012", r')
        | String "r" r' => Some ("013", r')
        | String "u" (String "0" (String "0" (String h (String l r')))) =>
            match hex_value h, hex_value l with
            | Some a, Some b => Some (ascii_of_N (16 * a + b), r')
            | _, _ => None
            end
        | String d r' =>
            if Ascii.eqb d dquote then Some (dquote, r')
            else if Ascii.eqb d backslash then Some (backslash, r')
            else None
        | EmptyString => None
        end%char
      else if Ascii.eqb c dquote then None
      else Some (c, r)
  end.

(** The members that [stringify] writes, as pairs. *)
Definition members (o : list (string * string)) : list (string * string) :=
  omap (fun k => (fun v => (k, v)) <$> obj_get o k) (merge_sort String.le (obj_keys o)).

(** The printed form of a query: what the fingerprint sees of it, namely
    the text of every member but one named [__proto__]. *)
Definition printed (query : list (string * qval)) : list (string * string) :=
  (fun kv => (kv.1, qval_toString kv.2)) <$> filter (fun kv => kv.1 ≠ "__proto__") query.

(** One member as [stringify] writes it. *)
Definition write_member (kv : string * string) : string :=
  json_quote kv.1 +:+ ":" +:+ json_quote kv.2.

(** ** A sample world, used by the examples

    The API host answers every request with a gzip body that names the
    requested URL, and the codec decodes the three bodies below: a details
    message that carries one prefetched answer for
    [rec?doc=com.example.app&rt=1&c=3], a list of related apps, and a
    purchase answer with one download cookie. The codec returns a decoded
    message unchanged. *)

(** A jar that takes every cookie set for a URL that is a string, and
    refuses the others. *)
Definition sample_setCookie_error (j : jar) (text : string) (u : arg) : option error :=
  match u with
  | ArgString _ => None
  | _ => Some (TypeError "Parameter 'url' must be a string")
  end.

(** [querystring.parse] on text without percent escapes or plus signs. *)
Definition qs_parse_pair (x : string) : string * string :=
  match split "=" x with
  | k :: rest => (k, String.concat "=" rest)
  | [] => (x, "")
  end.

Definition qs_parse_plain (s : string) : list (string * qval) :=
  if bool_decide (s = "") then []
  else
    foldl (fun o x =>
             let kv := qs_parse_pair x in
             match obj_get o kv.1 with
             | None => obj_set o kv.1 (QStr kv.2)
             | Some (QArr l) => obj_set o kv.1 (QArr (l ++ [kv.2]))
             | Some v => obj_set o kv.1 (QArr [qval_toString v; kv.2])
             end)
          [] (split "&" s).

Definition sample_docs : list DocV2 :=
  [ {| docid := "com.example.one"; title := "One" |};
    {| docid := "com.example.two"; title := "Two" |};
    {| docid := "com.example.three"; title := "Three" |} ].

Definition sample_related : ResponseWrapper :=
  mkResponseWrapper
    (Some {| detailsResponse := None;
             listResponse := Some {| doc := Some sample_docs |};
             buyResponse := None |})
    None.

Definition sample_details : ResponseWrapper :=
  mkResponseWrapper
    (Some {| detailsResponse :=
               Some {| docV2 := Some {| docid := "com.example.app"; title := "App" |} |};
             listResponse := None;
             buyResponse := None |})
    (Some [mkPreFetch "rec?doc=com.example.app&rt=1&c=3" (Some sample_related)]).

Definition sample_cookies : list HttpCookie :=
  [ {| cookie_name := Some "MarketDA"; cookie_value := Some "0123456789" |} ].

Definition sample_purchase : ResponseWrapper :=
  mkResponseWrapper
    (Some {| detailsResponse := None;
             listResponse := None;
             buyResponse :=
               Some {| purchaseStatusResponse :=
                         Some {| appDeliveryData :=
                                   Some {| downloadUrl := "https://android.clients.google.com/market/download/Download?packageName=com.example.app";
                                           downloadAuthCookie := sample_cookies |} |} |} |})
    None.

Definition sample_parse (data : value) : error + option ResponseWrapper :=
  match data with
  | VMessage m => inr (Some m)
  | VBuffer b =>
      if bool_decide (b = "https://android.clients.google.com/fdfe/details") then inr (Some sample_details)
      else if bool_decide (b = "https://android.clients.google.com/fdfe/rec") then inr (Some sample_related)
      else if bool_decide (b = "https://android.clients.google.com/fdfe/purchase") then inr (Some sample_purchase)
      else inl (Error "malformed envelope")
  end.

Definition sample_env : Env :=
  {| auth_server := fun _ =>
       NetOk {| statusCode := 403; content_type := Some "text/plain; charset=utf-8";
                body := "Error=BadAuthentication" |};
     api_server := fun _ req =>
       NetOk {| statusCode := 200; content_type := Some "application/x-gzip";
                body := req_url req |};
     download_server := fun _ =>
       NetOk {| statusCode := 200; content_type := Some "application/vnd.android.package-archive";
                body := "apk" |};
     qs_parse := qs_parse_plain;
     ResponseWrapper_parse := sample_parse;
     desc_file := Some "googleplay.desc";
     setCookie_error := sample_setCookie_error |}.

(** The same world with an auth endpoint that gives the answer [res]. *)
Definition auth_env (res : http_response) : Env :=
  {| auth_server := fun _ => NetOk res;
     api_server := api_server sample_env;
     download_server := download_server sample_env;
     qs_parse := qs_parse_plain;
     ResponseWrapper_parse := sample_parse;
     desc_file := Some "googleplay.desc";
     setCookie_error := sample_setCookie_error |}.

(** The same world with an API host that is down. *)
Definition failing_env : Env :=
  {| auth_server := auth_server sample_env;
     api_server := fun _ _ => NetOk {| statusCode := 500; content_type := None;
                                       body := "Internal Server Error" |};
     download_server := download_server sample_env;
     qs_parse := qs_parse_plain;
     ResponseWrapper_parse := sample_parse;
     desc_file := Some "googleplay.desc";
     setCookie_error := sample_setCookie_error |}.

(** The same world with an API host that answers every request but the
    one for the related apps, which it fails. *)
Definition flaky_env : Env :=
  {| auth_server := auth_server sample_env;
     api_server := fun n req =>
       if bool_decide (req_url req = "https://android.clients.google.com/fdfe/rec")
       then NetOk {| statusCode := 500; content_type := None;
                     body := "Internal Server Error" |}
       else api_server sample_env n req;
     download_server := download_server sample_env;
     qs_parse := qs_parse_plain;
     ResponseWrapper_parse := sample_parse;
     desc_file := Some "googleplay.desc";
     setCookie_error := sample_setCookie_error |}.

(** A logged-in client with caching enabled and nothing cached. *)
Definition sample_client : client :=
  {| username := JStr "user@example.com"; password := JStr "secret";
     androidId := JStr "3d3f0a1b2c4e5f60"; USE_CACHE := true; debug := false;
     authToken := Some "XYZ"; cache := ∅; timers := []; clock := 0;
     transport_log := []; download_log := []; promises := 0 |}.

(** ** Frames and invariants *)

(** Fingerprints that end in the letter e, as those that the prefetch
    ingester makes do (they end in [post=false]). *)
Definition prefetch_key (k : string) : Prop := last_char k = Some "e"%char.

(** The fingerprints that the prefetch ingester can make: those of a call
    whose [datapost] is [false]. *)
Definition ingester_key (k : string) : Prop :=
  ∃ path query, k = cachedGetResolver path query (JBool false).

(** What the prefetch ingester may change, said with [ingester_key]: it
    stores entries and sets timers under fingerprints it can make, and
    touches nothing else. *)
Definition ingester_frame (st st' : client) : Prop :=
  USE_CACHE st' = USE_CACHE st
  ∧ authToken st' = authToken st
  ∧ transport_log st' = transport_log st
  ∧ download_log st' = download_log st
  ∧ clock st' = clock st
  ∧ (∀ k, ¬ ingester_key k → cache st' !! k = cache st !! k)
  ∧ ∃ new, timers st' = timers st ++ new ∧ Forall (fun t => ingester_key t.2) new.

(** Every pending timer was set by the prefetch ingester. *)
Definition ingester_timers (st : client) : Prop :=
  Forall (fun t => ingester_key t.2) (timers st).

(** What the prefetch ingester may change, said with [prefetch_key]: it
    stores entries and sets timers under prefetch keys, and touches
    nothing else. *)
Definition prefetch_frame (st st' : client) : Prop :=
  USE_CACHE st' = USE_CACHE st
  ∧ authToken st' = authToken st
  ∧ transport_log st' = transport_log st
  ∧ download_log st' = download_log st
  ∧ clock st' = clock st
  ∧ (∀ k, ¬ prefetch_key k → cache st' !! k = cache st !! k)
  ∧ ∃ new, timers st' = timers st ++ new ∧ Forall (fun t => prefetch_key t.2) new.

(** Every pending timer stands under a prefetch key. *)
Definition timers_wf (st : client) : Prop :=
  Forall (fun t => prefetch_key t.2) (timers st).

(** The request a call of the transport sends, and the promise it
    returns. *)
Definition sent_request (st : client) (token path : string)
    (query : list (string * qval)) (datapost contentType : jsval) : api_request :=
  handleRequest st token path query datapost
    (js_or contentType (JStr "application/x-www-form-urlencoded; charset=UTF-8")).

Definition transport_promise (env : Env) (st : client) (req : api_request) : promise :=
  {| promise_id := promises st;
     settled := match api_server env (length (transport_log st)) req with
                | NetFail e => inl e
                | NetOk res => api_callback res
                end |}.

(** The same call issued again and again, [d] milliseconds after the
    previous call for each [d] of [delays]: the outcomes, and the final
    state. *)
Fixpoint repeat_call (env : Env) (path : string) (query : list (string * qval))
    (datapost contentType : jsval) (delays : list Z) (st : client)
  : list (outcome ResponseWrapper) * client :=
  match delays with
  | [] => ([], st)
  | d :: ds =>
      let r := executeRequestApi env (advance d st) path query datapost contentType in
      let rs := repeat_call env path query datapost contentType ds r.2 in
      (r.1 :: rs.1, rs.2)
  end.

(** The query of [getRelatedApps]. *)
Definition related_query (pkg : string) : list (string * qval) :=
  [("doc", QStr pkg); ("rt", QStr "1"); ("c", QStr "3")].

(** ** Text of key/value lines *)

(** One line [KEY=value], and the text of a list of such lines. *)
Definition pair_line (kv : string * string) : string := kv.1 +:+ "=" +:+ kv.2.

Definition pairs_text (l : list (string * string)) : string :=
  String.concat (String newline "") (pair_line <$> l).

(** A string without an equals sign and without a newline. *)
Definition plain (s : string) : Prop :=
  count_char "=" s = 0%nat ∧ count_char newline s = 0%nat.

(** The text [name=value] of a cookie message that carries both fields. *)
Definition cookie_text (c : HttpCookie) : option string :=
  match cookie_name c, cookie_value c with
  | Some name, Some value => Some (name +:+ "=" +:+ value)
  | _, _ => None
  end.

(** A string without a line terminator. *)
Definition one_line (s : string) : Prop :=
  count_char "010" s = 0%nat ∧ count_char "013" s = 0%nat.

(** ** The fingerprints of the three operations *)

Definition details_key (pkg : string) : string :=
  cachedGetResolver "details" [("doc", QStr pkg)] JUndefined.

Definition related_key (pkg : string) : string :=
  cachedGetResolver "rec" (related_query pkg) JUndefined.

Definition purchase_key (pkg : string) (versionCode : Z) : string :=
  cachedGetResolver "purchase" []
    (JStr ("ot=1&doc=" +:+ pkg +:+ "&vc=" +:+ pretty versionCode)).

(** ** The scripts that use the client

    What a run of a script shows: the error it threw before any promise
    existed, the values it wrote with [console.log], the code it gave to
    [process.exit], and the client it left. *)

Record process_env := {
  GOOGLE_LOGIN : jsval;
  GOOGLE_PASSWORD : jsval;
  ANDROID_ID : jsval;
  ENV_USE_CACHE : jsval;
  ENV_DEBUG : jsval
}.

Inductive logged :=
  | LogText (s : string)
  | LogDetails (d : option DocV2)
  | LogRelated (l : list DocV2).

Record run := {
  thrown : option error;
  console : list logged;
  exit_code : option Z;
  final : option client
}.

(** The script [getRelatedApps(pkg)] of the repository: it builds a
    caching client from the environment, logs in, and then logs the
    related apps; [lastly] ends the process once the lookup has settled. *)
Definition related_script (env : Env) (penv : process_env) (pkg : string) : run :=
  match GooglePlay env (GOOGLE_LOGIN penv) (GOOGLE_PASSWORD penv) (ANDROID_ID penv)
          (JBool true) (JBool false) with
  | inl e => {| thrown := Some e; console := []; exit_code := None; final := None |}
  | inr api =>
      match login env api with
      | (Fulfilled _, st1) =>
          match getRelatedApps env st1 pkg with
          | (Throws _, st2) =>
              {| thrown := None; console := []; exit_code := None; final := Some st2 |}
          | (Rejected _, st2) =>
              {| thrown := None; console := []; exit_code := Some 0%Z; final := Some st2 |}
          | (Fulfilled res, st2) =>
              {| thrown := None; console := [LogRelated res]; exit_code := Some 0%Z;
                 final := Some st2 |}
          end
      | (_, st1) =>
          {| thrown := None; console := []; exit_code := None; final := Some st1 |}
      end
  end.

(** [GooglePlay.test]: the flags come from the environment; after the
    login it asks for the details, the related apps and the download
    grant of one package, version 37, each after the one before has been
    fulfilled. *)
Definition test_use_cache (penv : process_env) : bool :=
  negb (bool_decide (js_or (ENV_USE_CACHE penv) (JBool true) = JStr "0")).

Definition test_debug (penv : process_env) : bool :=
  bool_decide (js_or (ENV_DEBUG penv) (JBool false) = JStr "1").

Definition test_banner (penv : process_env) : list logged :=
  if test_debug penv
  then [LogText "DEBUG: true";
        LogText ("USE_CACHE: " +:+ String_of (JBool (test_use_cache penv)))]
  else [].

Definition test_steps (env : Env) (st1 : client) (pkg : string) : list logged * option Z * client :=
  match getPackageDetails env st1 pkg with
  | (Throws _, st2) => ([], None, st2)
  | (Rejected _, st2) => ([], Some 0%Z, st2)
  | (Fulfilled res, st2) =>
      match getRelatedApps env st2 pkg with
      | (Fulfilled res', st3) =>
          ([LogDetails res; LogRelated res'], Some 0%Z, (getDownloadInfo env st3 pkg 37).2)
      | (_, st3) => ([LogDetails res], Some 0%Z, st3)
      end
  end.

Definition test (env : Env) (penv : process_env) : run :=
  match GooglePlay env (GOOGLE_LOGIN penv) (GOOGLE_PASSWORD penv) (ANDROID_ID penv)
          (JBool (test_use_cache penv)) (JBool (test_debug penv)) with
  | inl e => {| thrown := Some e; console := test_banner penv; exit_code := None;
                final := None |}
  | inr api =>
      match login env api with
      | (Fulfilled _, st1) =>
          let r := test_steps env st1 "com.viber.voip" in
          {| thrown := None; console := test_banner penv ++ r.1.1;
             exit_code := r.1.2; final := Some r.2 |}
      | (_, st1) =>
          {| thrown := None; console := test_banner penv; exit_code := None;
             final := Some st1 |}
      end
  end.

(** A process environment for the examples. *)
Definition sample_process_env : process_env :=
  {| GOOGLE_LOGIN := JStr "user@example.com"; GOOGLE_PASSWORD := JStr "secret";
     ANDROID_ID := JUndefined; ENV_USE_CACHE := JUndefined; ENV_DEBUG := JUndefined |}.

(** The answer of an auth endpoint that lets the user in. *)
Definition auth_ok : http_response :=
  {| statusCode := 200; content_type := Some "text/plain; charset=utf-8";
     body := "SID=abc" +:+ String newline "Auth=XYZ" |}.

(** The callback that [executeRequestApi] gives to [then], applied to
    the promise [p] that the memoized transport returned. *)
Definition respond (env : Env) (st1 : client) (p : promise)
  : outcome ResponseWrapper * client :=
  match settled p with
  | inl e => (Rejected e, st1)
  | inr body =>
      match _toResponseWrapper env body with
      | inl e => (Rejected e, st1)
      | inr None => (Rejected (AssertionError "empty response"), st1)
      | inr (Some message) =>
          if USE_CACHE st1 then
            match _tryHandlePrefetch env st1 message CACHE_INVALIDATION_INTERVAL with
            | (inl e, st2) => (Rejected e, st2)
            | (inr _, st2) => (Fulfilled message, st2)
            end
          else (Fulfilled message, st1)
      end
  end.

(** A logged-in client with caching disabled. *)
Definition sample_client_uncached : client :=
  {| username := JStr "user@example.com"; password := JStr "secret";
     androidId := JStr "3d3f0a1b2c4e5f60"; USE_CACHE := false; debug := false;
     authToken := Some "XYZ"; cache := ∅; timers := []; clock := 0;
     transport_log := []; download_log := []; promises := 0 |}.

(** * Properties *)

(** ** [responseToObj] *)

Lemma length_split sep s : length (split sep s) = S (count_char sep s).
Proof.
  induction s as [|c s IH]; simpl; [done|].
  destruct (Ascii.eqb c sep); simpl; [by rewrite IH|].
  destruct (split sep s); simpl in *; lia.
Qed.

Lemma responseToObj_step_ok obj line :
  length (split "=" line) = 2 →
  ∃ k v, line_pair line = Some (k, v)
         ∧ responseToObj_step obj line = inr (if is_proto k then obj else <[k := v]> obj).
Proof.
  intros Hlen. unfold responseToObj_step, line_pair.
  rewrite bool_decide_eq_true_2 by done. simpl.
  destruct (split "=" line) as [|key [|val [|? ?]]]; simplify_eq/=. eauto.
Qed.

Lemma responseToObj_step_throw obj line :
  length (split "=" line) ≠ 2 →
  responseToObj_step obj line = inl (AssertionError "expected list of pairs from server").
Proof.
  intros Hlen. unfold responseToObj_step.
  by rewrite bool_decide_eq_false_2.
Qed.

Lemma reduce_responseToObj_throw ls acc e :
  reduce responseToObj_step ls acc = inl e →
  e = AssertionError "expected list of pairs from server"
  ∧ ∃ line, line ∈ ls ∧ length (split "=" line) ≠ 2.
Proof.
  revert acc. induction ls as [|l ls IH]; intros acc; simpl; [done|].
  destruct (decide (length (split "=" l) = 2)) as [Hl|Hl].
  - destruct (responseToObj_step_ok acc l Hl) as (k & v & _ & ->).
    intros [-> (line & ? & ?)]%IH. split; [done|]. exists line. by rewrite elem_of_cons; auto.
  - rewrite responseToObj_step_throw by done. intros [= <-].
    split; [done|]. exists l. split; [apply list_elem_of_here|done].
Qed.

Lemma reduce_responseToObj_bad ls acc line :
  line ∈ ls → length (split "=" line) ≠ 2 →
  reduce responseToObj_step ls acc = inl (AssertionError "expected list of pairs from server").
Proof.
  revert acc. induction ls as [|l ls IH]; intros acc Hin Hbad; [by apply elem_of_nil in Hin|].
  simpl. destruct (decide (length (split "=" l) = 2)) as [Hl|Hl].
  - destruct (responseToObj_step_ok acc l Hl) as (k & v & _ & ->).
    apply elem_of_cons in Hin as [->|Hin]; [done|]. by apply IH.
  - by rewrite responseToObj_step_throw.
Qed.

Lemma reduce_responseToObj_lookup ls acc obj k :
  reduce responseToObj_step ls acc = inr obj → k ≠ "__proto__" →
  obj !! k = match last_value k ls with Some v => Some v | None => acc !! k end.
Proof.
  revert acc. induction ls as [|l ls IH]; intros acc; simpl; [by intros [= ->]|].
  destruct (decide (length (split "=" l) = 2)) as [Hl|Hl].
  - destruct (responseToObj_step_ok acc l Hl) as (k' & v & Hp & ->).
    intros Hr Hk. rewrite (IH _ Hr Hk). destruct (last_value k ls); [done|].
    rewrite Hp. unfold is_proto. case_bool_decide as Hk'.
    + subst k'. by rewrite decide_False by done.
    + rewrite lookup_insert. by destruct (decide (k' = k)).
  - by rewrite responseToObj_step_throw.
Qed.

(** No line leaves a property named [__proto__]. *)
Lemma reduce_responseToObj_proto ls acc obj :
  reduce responseToObj_step ls acc = inr obj →
  obj !! "__proto__" = acc !! "__proto__".
Proof.
  revert acc. induction ls as [|l ls IH]; intros acc; simpl; [by intros [= ->]|].
  destruct (decide (length (split "=" l) = 2)) as [Hl|Hl].
  - destruct (responseToObj_step_ok acc l Hl) as (k' & v & Hp & ->).
    intros ->%IH. unfold is_proto. case_bool_decide as Hk'; [done|].
    by rewrite lookup_insert_ne.
  - by rewrite responseToObj_step_throw.
Qed.

(** C8 (as amended). For every input of Latin-1 text, [responseToObj]
    throws the assertion failure exactly when some newline-separated line
    does not split into exactly two parts on the equals sign; otherwise it
    returns an object whose own properties map the lower-cased key of each
    line to its value (the last line of a key wins), except that a line
    whose key lower-cases to [__proto__] leaves no property. In particular
    a line whose value holds an equals sign, a line without one, and the
    empty input all throw. *)
Theorem responseToObj_spec (lines : string) :
  ((∃ e, responseToObj lines = inl e) ↔
     ∃ line, line ∈ split newline lines ∧ length (split "=" line) ≠ 2)
  ∧ (∀ e, responseToObj lines = inl e →
       e = AssertionError "expected list of pairs from server")
  ∧ (∀ obj, responseToObj lines = inr obj →
       obj !! "__proto__" = None
       ∧ ∀ k, k ≠ "__proto__" → obj !! k = last_value k (split newline lines))
  ∧ (∀ key val, (0 < count_char "=" val)%nat →
       (key +:+ "=" +:+ val) ∈ split newline lines →
       responseToObj lines = inl (AssertionError "expected list of pairs from server"))
  ∧ (∀ line, count_char "=" line = 0%nat →
       line ∈ split newline lines →
       responseToObj lines = inl (AssertionError "expected list of pairs from server"))
  ∧ responseToObj "" = inl (AssertionError "expected list of pairs from server").
Proof.
  unfold responseToObj. split; [split|split; [|split; [|split; [|split]]]].
  - intros [e He]. by apply reduce_responseToObj_throw in He as [_ ?].
  - intros (line & Hin & Hbad). eexists. by eapply reduce_responseToObj_bad.
  - intros e He. by apply reduce_responseToObj_throw in He as [? _].
  - intros obj Hobj. split.
    + by rewrite (reduce_responseToObj_proto _ _ _ Hobj).
    + intros k Hk. rewrite (reduce_responseToObj_lookup _ _ _ k Hobj Hk).
      rewrite lookup_empty. by destruct (last_value _ _).
  - intros key val Hval Hin. eapply reduce_responseToObj_bad; [done|].
    rewrite length_split.
    assert (∀ a b, count_char "=" (a +:+ b) = (count_char "=" a + count_char "=" b)%nat) as Happ.
    { intros a b. induction a as [|c a IH]; simpl; [done|]. rewrite IH. lia. }
    rewrite !Happ. simpl. lia.
  - intros line Hc Hin. eapply reduce_responseToObj_bad; [done|].
    rewrite length_split. lia.
  - done.
Qed.

(** C8, the claim as stated fails: the line [__PROTO__=x] splits in two,
    its lower-cased key is [__proto__], and the object returned has no
    property for it, alone or beside other lines. *)
Lemma responseToObj_loses_proto_line :
  line_pair "__PROTO__=x" = Some ("__proto__", "x")
  ∧ responseToObj "__PROTO__=x" = inr ∅
  ∧ responseToObj ("Auth=XYZ" +:+ String newline "__proto__=x")
    = inr (<["auth" := "XYZ"]> ∅).
Proof. vm_compute. by repeat split. Qed.

(** ** The constructor *)

(** C10. Construction throws when [username] or [password] is undefined.
    An undefined [androidId] is replaced by [null] before the check of
    'Require Android ID', which rejects [undefined] only: that check never
    fails, and the client is created with a null device id. *)
Theorem GooglePlay_required_arguments (env : Env) (u p a useCache dbg : jsval) :
  GooglePlay env JUndefined p a useCache dbg = inl (Error "Require username")
  ∧ (is_undefined u = false →
     GooglePlay env u JUndefined a useCache dbg = inl (Error "Require password"))
  ∧ GooglePlay env u p a useCache dbg ≠ inl (Error "Require Android ID")
  ∧ GooglePlay env u p JUndefined useCache dbg = GooglePlay env u p JNull useCache dbg
  ∧ (is_undefined u = false → is_undefined p = false → is_Some (desc_file env) →
     ∃ st, GooglePlay env u p JUndefined useCache dbg = inr st
           ∧ androidId st = JNull ∧ username st = u ∧ password st = p
           ∧ authToken st = None).
Proof.
  unfold GooglePlay, getOrElseThrow. split; [done|]. split; [|split; [|split]].
  - by intros ->.
  - destruct (is_undefined u), (is_undefined p); simpl; try done.
    unfold js_or. destruct (truthy a) eqn:Ht; [destruct a; simplify_eq/=|simpl];
      by destruct (desc_file env).
  - done.
  - intros -> -> [d ->]. simpl. eauto 10.
Qed.

(** ** [login] *)

Lemma line_pair_key line k v :
  line_pair line = Some (k, v) → k = toLowerCase (hd "" (split "=" line)).
Proof.
  unfold line_pair. destruct (split "=" line) as [|key [|val [|? ?]]]; naive_solver.
Qed.

Lemma last_value_None k ls :
  k ∉ (fun line => toLowerCase (hd "" (split "=" line))) <$> ls →
  last_value k ls = None.
Proof.
  induction ls as [|l ls IH]; simpl; [done|].
  rewrite not_elem_of_cons. intros [Hne Hin]. rewrite IH by done.
  destruct (line_pair l) as [[k' v]|] eqn:Hp; [|done].
  apply line_pair_key in Hp. by rewrite decide_False by congruence.
Qed.

Lemma login_callback_not_200 res :
  statusCode res ≠ 200%Z → login_callback res = inl (LoginError (body res)).
Proof.
  intros Hs. unfold login_callback.
  by destruct (Z.eqb_spec (statusCode res) 200).
Qed.

(** What the callback does with a 200 response. *)
Lemma login_callback_200 res :
  statusCode res = 200%Z →
  login_callback res =
    (check assert (bool_decide (content_type res = Some "text/plain; charset=utf-8"))
                  "utf8 string body";
     do response <- responseToObj (body res);
     match response !! "auth" with
     | Some auth =>
         if bool_decide (auth = "") then inl (Error "expected auth in server response")
         else inr auth
     | None => inl (Error "expected auth in server response")
     end).
Proof. intros Hs. unfold login_callback. by rewrite Hs. Qed.

Lemma login_callback_generic res e :
  statusCode res = 200%Z → login_callback res = inl e → is_LoginError e = false.
Proof.
  intros Hs. rewrite login_callback_200 by done.
  unfold assert. case_bool_decide; simpl; [|by intros [= <-]].
  destruct (responseToObj (body res)) as [e'|obj] eqn:Hobj; simpl.
  - apply reduce_responseToObj_throw in Hobj as [-> _]. by intros [= <-].
  - destruct (obj !! "auth") as [a|]; [case_bool_decide|]; by intros [= <-].
Qed.

Lemma login_callback_no_auth res :
  statusCode res = 200%Z → "auth" ∉ body_keys (body res) →
  ∃ e, login_callback res = inl e.
Proof.
  intros Hs Hk. rewrite login_callback_200 by done.
  unfold assert. case_bool_decide; simpl; [|eauto].
  destruct (responseToObj (body res)) as [e'|obj] eqn:Hobj; simpl; [eauto|].
  rewrite (reduce_responseToObj_lookup _ _ _ "auth" Hobj), last_value_None by done.
  rewrite lookup_empty. eauto.
Qed.

Lemma login_callback_token res auth :
  login_callback res = inr auth →
  statusCode res = 200%Z ∧ auth ≠ "" ∧
  ∃ obj, responseToObj (body res) = inr obj ∧ obj !! "auth" = Some auth.
Proof.
  destruct (decide (statusCode res = 200%Z)) as [Hs|Hs];
    [|by rewrite login_callback_not_200].
  rewrite login_callback_200 by done.
  unfold assert. case_bool_decide; simpl; [|done].
  destruct (responseToObj (body res)) as [e'|obj] eqn:Hobj; simpl; [done|].
  destruct (obj !! "auth") as [a|] eqn:Ha; [|done].
  case_bool_decide; [done|]. intros [= <-]. eauto.
Qed.

(** C5. For a client with a user name and a password: every non-200 answer
    of the auth endpoint makes [login] fail with the [LoginError] that
    carries the raw body; a 200 answer whose body has no [auth] key makes it
    fail with an error that is not a [LoginError]; every failure leaves the
    client as it was, stored token included; and on success the stored
    token is exactly the value of the [auth] key of the parsed body. A 200
    answer with the expected content type whose parsed body has a
    non-empty [auth] value does succeed. *)
Theorem login_spec (env : Env) (st : client) :
  is_undefined (username st) = false →
  is_undefined (password st) = false →
  let req := {| login_url := URL_LOGIN; login_form := login_body st |} in
  (∀ res, auth_server env req = NetOk res → statusCode res ≠ 200%Z →
     login env st = (Rejected (LoginError (body res)), st))
  ∧ (∀ res, auth_server env req = NetOk res → statusCode res = 200%Z →
       "auth" ∉ body_keys (body res) →
       ∃ e, login env st = (Rejected e, st) ∧ is_LoginError e = false)
  ∧ (∀ res obj, auth_server env req = NetOk res → statusCode res = 200%Z →
       content_type res = Some "text/plain; charset=utf-8" →
       responseToObj (body res) = inr obj → obj !! "auth" = None →
       login env st = (Rejected (Error "expected auth in server response"), st))
  ∧ (∀ r st', login env st = (r, st') → r ≠ Fulfilled tt →
       st' = st ∧ authToken st' = authToken st)
  ∧ (∀ st', login env st = (Fulfilled tt, st') →
       ∃ res obj auth,
         auth_server env req = NetOk res ∧ statusCode res = 200%Z
         ∧ responseToObj (body res) = inr obj ∧ obj !! "auth" = Some auth
         ∧ authToken st' = Some auth)
  ∧ (∀ res obj auth, auth_server env req = NetOk res → statusCode res = 200%Z →
       content_type res = Some "text/plain; charset=utf-8" →
       responseToObj (body res) = inr obj → obj !! "auth" = Some auth → auth ≠ "" →
       login env st = (Fulfilled tt, set_authToken (Some auth) st)).
Proof.
  intros Hu Hp req. unfold login. rewrite Hu, Hp. simpl. fold req.
  split; [|split; [|split; [|split; [|split]]]].
  - intros res -> Hs. by rewrite login_callback_not_200.
  - intros res -> Hs Hk.
    destruct (login_callback_no_auth res Hs Hk) as [e He]. rewrite He.
    exists e. split; [done|]. by eapply login_callback_generic.
  - intros res obj -> Hs Hct Hobj Ha.
    rewrite login_callback_200 by done. unfold assert.
    rewrite bool_decide_eq_true_2 by done. simpl. rewrite Hobj. simpl. by rewrite Ha.
  - intros r st'. destruct (auth_server env req) as [e|res]; [by intros [= <- <-]|].
    destruct (login_callback res); [by intros [= <- <-]|].
    intros [= <- <-]. done.
  - intros st'. destruct (auth_server env req) as [e|res]; [done|].
    destruct (login_callback res) as [e|auth] eqn:Hcb; [done|].
    intros [= <-]. apply login_callback_token in Hcb as (Hs & _ & obj & Hobj & Ha).
    exists res, obj, auth. done.
  - intros res obj auth -> Hs Hct Hobj Ha Hne.
    rewrite login_callback_200 by done. unfold assert.
    rewrite bool_decide_eq_true_2 by done. simpl. rewrite Hobj. simpl. rewrite Ha.
    by rewrite bool_decide_eq_false_2 by done.
Qed.

(** ** Strings *)

Lemma string_app_nil_l (a : string) : "" +:+ a = a.
Proof. reflexivity. Qed.

Lemma string_app_cons (x : ascii) (a b : string) :
  String x a +:+ b = String x (a +:+ b).
Proof. reflexivity. Qed.

Lemma string_app_nil_r (a : string) : a +:+ "" = a.
Proof. induction a as [|c a IH]; [done|]. by rewrite string_app_cons, IH. Qed.

Lemma string_app_assoc (a b c : string) : (a +:+ b) +:+ c = a +:+ (b +:+ c).
Proof. induction a as [|x a IH]; [done|]. by rewrite !string_app_cons, IH. Qed.

Lemma string_app_length (a b : string) :
  String.length (a +:+ b) = (String.length a + String.length b)%nat.
Proof.
  induction a as [|x a IH]; [done|]. rewrite string_app_cons. simpl. by rewrite IH.
Qed.

Lemma string_app_inv_tail (a b t : string) : a +:+ t = b +:+ t → a = b.
Proof.
  revert b. induction a as [|x a IH]; intros [|y b] H.
  - done.
  - apply (f_equal String.length) in H.
    rewrite string_app_nil_l, string_app_cons in H.
    simpl in H. rewrite string_app_length in H. lia.
  - apply (f_equal String.length) in H.
    rewrite string_app_nil_l, string_app_cons in H.
    simpl in H. rewrite string_app_length in H. lia.
  - rewrite !string_app_cons in H.
    injection H as -> H. f_equal. by apply IH.
Qed.

Lemma last_char_app (a b : string) : b ≠ "" → last_char (a +:+ b) = last_char b.
Proof.
  intros Hb. induction a as [|x a IH]; [done|].
  rewrite string_app_cons. simpl.
  destruct (a +:+ b) eqn:Hab; [|done].
  destruct a; [|done]. by destruct Hb.
Qed.

(** ** JSON string literals are self-delimiting *)

Lemma json_unescape_escape c r : json_unescape (json_escape c +:+ r) = Some (c, r).
Proof. destruct c as [[] [] [] [] [] [] [] []]; reflexivity. Qed.

Lemma json_unescape_dquote r : json_unescape (String dquote r) = None.
Proof. reflexivity. Qed.

Lemma json_escape_string_inv s1 s2 r1 r2 :
  json_escape_string s1 +:+ String dquote r1 = json_escape_string s2 +:+ String dquote r2 →
  s1 = s2 ∧ r1 = r2.
Proof.
  revert s2. induction s1 as [|c1 s1 IH]; intros [|c2 s2]; simpl.
  - by intros [= ->].
  - rewrite string_app_assoc. intros H%(f_equal json_unescape).
    by rewrite json_unescape_escape in H.
  - rewrite string_app_assoc. intros H%(f_equal json_unescape).
    by rewrite json_unescape_escape in H.
  - rewrite !string_app_assoc. intros H%(f_equal json_unescape).
    rewrite !json_unescape_escape in H. injection H as -> H.
    by apply IH in H as [-> ->].
Qed.

Lemma json_quote_inv s1 s2 r1 r2 :
  json_quote s1 +:+ r1 = json_quote s2 +:+ r2 → s1 = s2 ∧ r1 = r2.
Proof.
  unfold json_quote. rewrite !string_app_cons.
  intros [= H]. rewrite !string_app_assoc, !string_app_cons in H.
  by apply json_escape_string_inv in H.
Qed.

(** ** The stable stringifier *)

Lemma write_member_inv kv1 kv2 r1 r2 :
  write_member kv1 +:+ r1 = write_member kv2 +:+ r2 → kv1 = kv2 ∧ r1 = r2.
Proof.
  destruct kv1 as [k1 v1], kv2 as [k2 v2]. unfold write_member. simpl.
  rewrite !string_app_assoc. intros [-> H]%json_quote_inv.
  apply (inj (String.app ":")) in H.
  by apply json_quote_inv in H as [-> ->].
Qed.

Lemma write_member_head kv r : ∃ r', write_member kv +:+ r = String dquote r'.
Proof. unfold write_member, json_quote. rewrite !string_app_cons. eauto. Qed.

Lemma concat_members_cons kv l r :
  String.concat "," (write_member <$> kv :: l) +:+ String "}" r
  = write_member kv +:+
      match l with
      | [] => String "}" r
      | _ :: _ => String "," (String.concat "," (write_member <$> l) +:+ String "}" r)
      end.
Proof.
  destruct l as [|kv' l]; [done|].
  change (String.concat "," (write_member <$> kv :: kv' :: l))
    with (write_member kv +:+ "," +:+ String.concat "," (write_member <$> kv' :: l)).
  by rewrite !string_app_assoc.
Qed.

Lemma concat_members_inv l1 l2 r1 r2 :
  String.concat "," (write_member <$> l1) +:+ String "}" r1
  = String.concat "," (write_member <$> l2) +:+ String "}" r2 →
  l1 = l2 ∧ r1 = r2.
Proof.
  revert l2. induction l1 as [|kv1 l1 IH]; intros [|kv2 l2].
  - simpl. rewrite !string_app_nil_l. by intros [= ->].
  - rewrite concat_members_cons. simpl. rewrite string_app_nil_l.
    intros H. by destruct (write_member_head kv2
      match l2 with
      | [] => String "}" r2
      | _ :: _ => String "," (String.concat "," (write_member <$> l2) +:+ String "}" r2)
      end) as [r' Hr]; rewrite Hr in H.
  - rewrite concat_members_cons. simpl. rewrite string_app_nil_l.
    intros H. by destruct (write_member_head kv1
      match l1 with
      | [] => String "}" r1
      | _ :: _ => String "," (String.concat "," (write_member <$> l1) +:+ String "}" r1)
      end) as [r' Hr]; rewrite Hr in H.
  - rewrite !concat_members_cons. intros [-> H]%write_member_inv.
    destruct l1 as [|kv1' l1], l2 as [|kv2' l2]; try done.
    + by injection H as ->.
    + injection H as H.
      change (String.concat "," (write_member <$> kv1' :: l1) +:+ String "}" r1
              = String.concat "," (write_member <$> kv2' :: l2) +:+ String "}" r2) in H.
      by apply IH in H as [-> ->].
Qed.

Lemma stringify_members o :
  stringify o = "{" +:+ String.concat "," (write_member <$> members o) +:+ "}".
Proof.
  unfold stringify, members. do 2 f_equal.
  rewrite list_fmap_omap. f_equal.
  apply list_omap_ext, Forall2_same_length_lookup_2; [done|].
  intros i k k' Hk Hk'. simplify_eq. unfold stringify_member.
  by destruct (obj_get o k).
Qed.

(** The text of an object ends where its closing brace stands: no
    stringified object is a proper prefix of another. *)
Lemma stringify_inv o1 o2 r1 r2 :
  stringify o1 +:+ r1 = stringify o2 +:+ r2 → members o1 = members o2 ∧ r1 = r2.
Proof.
  rewrite !stringify_members, !string_app_assoc.
  intros H%(inj (String.app "{")).
  by apply concat_members_inv in H.
Qed.

(** ** Objects as association lists *)

Lemma obj_get_Some_elem {V} (o : list (string * V)) k v :
  obj_get o k = Some v → (k, v) ∈ o.
Proof.
  induction o as [|[k' v'] o IH]; simpl; [done|].
  case_decide; [intros [= ->]; subst; apply list_elem_of_here|].
  intros ?. by apply list_elem_of_further, IH.
Qed.

Lemma obj_get_None {V} (o : list (string * V)) k :
  obj_get o k = None ↔ k ∉ o.*1.
Proof.
  induction o as [|[k' v'] o IH]; simpl.
  { split; [intros _; apply not_elem_of_nil|done]. }
  rewrite not_elem_of_cons. case_decide as Hk; subst.
  - split; [done|]. by intros [? _].
  - rewrite IH. split; [by split; [congruence|]|by intros [_ ?]].
Qed.

Lemma obj_get_NoDup {V} (o : list (string * V)) k v :
  NoDup o.*1 → (k, v) ∈ o → obj_get o k = Some v.
Proof.
  induction o as [|[k' v'] o IH]; simpl; [by rewrite elem_of_nil|].
  rewrite NoDup_cons, elem_of_cons. intros [Hk' Hnd] [[= -> ->]|Hin].
  - by rewrite decide_True.
  - rewrite decide_False; [by apply IH|].
    intros ->. apply Hk'. apply list_elem_of_fmap. by exists (k, v).
Qed.

Lemma obj_get_Permutation {V} (o1 o2 : list (string * V)) k :
  NoDup o1.*1 → o1 ≡ₚ o2 → obj_get o1 k = obj_get o2 k.
Proof.
  intros Hnd Hp. assert (NoDup o2.*1) as Hnd2 by by rewrite <-Hp.
  destruct (obj_get o1 k) as [v|] eqn:H1.
  - symmetry. apply obj_get_NoDup; [done|]. rewrite <-Hp. by apply obj_get_Some_elem.
  - symmetry. apply obj_get_None. rewrite <-Hp. by apply obj_get_None.
Qed.

Lemma obj_get_ext_Permutation {V} (o1 o2 : list (string * V)) :
  NoDup o1.*1 → NoDup o2.*1 → (∀ k, obj_get o1 k = obj_get o2 k) → o1 ≡ₚ o2.
Proof.
  intros Hnd1 Hnd2 Hext.
  apply NoDup_Permutation; [by eapply NoDup_fmap_1..|].
  intros [k v]. split; intros Hin.
  - apply obj_get_Some_elem. rewrite <-Hext. by apply obj_get_NoDup.
  - apply obj_get_Some_elem. rewrite Hext. by apply obj_get_NoDup.
Qed.

Lemma obj_set_fresh {V} (o : list (string * V)) k v :
  k ∉ o.*1 → obj_set o k v = o ++ [(k, v)].
Proof.
  induction o as [|[k' v'] o IH]; simpl; [done|].
  rewrite not_elem_of_cons. intros [Hne Hin].
  rewrite decide_False by done. by rewrite IH.
Qed.

Lemma printed_cons k v query :
  printed ((k, v) :: query)
  = if is_proto k then printed query else (k, qval_toString v) :: printed query.
Proof.
  unfold printed, is_proto. case_bool_decide.
  - by rewrite filter_cons_False by naive_solver.
  - by rewrite filter_cons_True by done.
Qed.

Lemma printed_keys query :
  (printed query).*1 = filter (fun k => k ≠ "__proto__") query.*1.
Proof.
  induction query as [|[k v] q IH]; [done|].
  rewrite printed_cons, fmap_cons. unfold is_proto. cbn [fst]. case_bool_decide.
  - by rewrite filter_cons_False by naive_solver.
  - rewrite filter_cons_True by done. rewrite fmap_cons. cbn [fst]. by rewrite IH.
Qed.

Lemma printed_NoDup query : NoDup query.*1 → NoDup (printed query).*1.
Proof. rewrite printed_keys. apply NoDup_filter. Qed.

Lemma printed_Permutation q1 q2 : q1 ≡ₚ q2 → printed q1 ≡ₚ printed q2.
Proof. intros Hp. unfold printed. by rewrite Hp. Qed.

(** On a well-formed object (no key twice) the reduce of
    [cachedGetResolver] prints each value in place, and leaves out a member
    named [__proto__]. *)
Lemma stringify_values_NoDup query :
  NoDup query.*1 → stringify_values query = printed query.
Proof.
  unfold stringify_values.
  assert (∀ acc, NoDup (acc.*1 ++ query.*1) →
    foldl stringify_values_step acc query = acc ++ printed query) as Hgen.
  { induction query as [|[k v] q IH]; intros acc Hnd; simpl.
    - by rewrite app_nil_r.
    - simpl in Hnd. apply NoDup_app in Hnd as (Hacc & Hdis & Hq).
      apply NoDup_cons in Hq as [Hk Hq].
      rewrite printed_cons. unfold stringify_values_step at 2. simpl.
      destruct (is_proto k).
      + apply IH. apply NoDup_app. split; [done|]. split; [|done].
        intros x Hx Hx'. apply (Hdis _ Hx). by right.
      + rewrite obj_set_fresh by (intros Hin; apply (Hdis _ Hin); left).
        rewrite IH.
        * by rewrite <-app_assoc.
        * rewrite fmap_app. simpl. rewrite <-app_assoc. simpl.
          apply NoDup_app. split; [done|]. split; [|by apply NoDup_cons].
          intros x Hx. apply Hdis in Hx. done. }
  intros Hnd. by rewrite Hgen.
Qed.


(** ** The members of an object *)

Lemma elem_of_members o k v : (k, v) ∈ members o ↔ obj_get o k = Some v.
Proof.
  unfold members. rewrite list_elem_of_omap. split.
  - intros (k' & _ & Hk'). destruct (obj_get o k') eqn:Hg; by simplify_eq/=.
  - intros Hg. exists k. rewrite Hg. split; [|done].
    rewrite merge_sort_Permutation. apply list_elem_of_fmap.
    exists (k, v). split; [done|]. by apply obj_get_Some_elem.
Qed.

Lemma members_ext o1 o2 :
  members o1 = members o2 → ∀ k, obj_get o1 k = obj_get o2 k.
Proof.
  intros Hm k. apply option_eq. intros v.
  by rewrite <-!elem_of_members, Hm.
Qed.

Lemma members_Permutation o1 o2 :
  NoDup o1.*1 → o1 ≡ₚ o2 → members o1 = members o2.
Proof.
  intros Hnd Hp. unfold members.
  assert (merge_sort String.le (obj_keys o1) = merge_sort String.le (obj_keys o2)) as ->.
  { apply (Sorted_unique String.le); [apply Sorted_merge_sort, _..|].
    rewrite !merge_sort_Permutation. unfold obj_keys. by rewrite Hp. }
  apply list_omap_ext, Forall2_same_length_lookup_2; [done|].
  intros i k k' Hk Hk'. simplify_eq. by rewrite (obj_get_Permutation o1 o2).
Qed.

Lemma stringify_Permutation o1 o2 :
  NoDup o1.*1 → o1 ≡ₚ o2 → stringify o1 = stringify o2.
Proof. intros. rewrite !stringify_members. by rewrite (members_Permutation o1 o2). Qed.

(** ** The fingerprint *)

Lemma cachedGetResolver_Permutation path q1 q2 datapost :
  NoDup q1.*1 → q1 ≡ₚ q2 →
  cachedGetResolver path q1 datapost = cachedGetResolver path q2 datapost.
Proof.
  intros Hnd Hp. assert (NoDup q2.*1) as Hnd2 by by rewrite <-Hp.
  unfold cachedGetResolver. rewrite !stringify_values_NoDup by done.
  rewrite (stringify_Permutation (printed q1) (printed q2)); [done| |].
  - by apply printed_NoDup.
  - by apply printed_Permutation.
Qed.

(** Two fingerprints on one path agree only when the objects have the same
    members and the data print alike. *)
Lemma cachedGetResolver_inv path q1 q2 d1 d2 :
  cachedGetResolver path q1 d1 = cachedGetResolver path q2 d2 →
  members (stringify_values q1) = members (stringify_values q2)
  ∧ String_of d1 = String_of d2.
Proof.
  unfold cachedGetResolver. intros H%(inj (String.app path))%(inj (String.app "|")).
  apply stringify_inv in H as [Hm H]. split; [done|].
  by apply (inj (String.app "|post=")) in H.
Qed.


Lemma cachedGetResolver_inv_query path q1 q2 d1 d2 :
  NoDup q1.*1 → NoDup q2.*1 →
  cachedGetResolver path q1 d1 = cachedGetResolver path q2 d2 →
  printed q1 ≡ₚ printed q2.
Proof.
  intros Hnd1 Hnd2 [Hm _]%cachedGetResolver_inv.
  rewrite !stringify_values_NoDup in Hm by done.
  apply obj_get_ext_Permutation; [by apply printed_NoDup..|].
  by apply members_ext.
Qed.

(** On paths without a bar the fingerprint determines the path, the
    members and the printed data. *)
Lemma split_at_bar p1 p2 r1 r2 :
  count_char "|" p1 = 0%nat → count_char "|" p2 = 0%nat →
  p1 +:+ String "|" r1 = p2 +:+ String "|" r2 → p1 = p2 ∧ r1 = r2.
Proof.
  revert p2. induction p1 as [|c1 p1 IH]; intros [|c2 p2] H1 H2;
    rewrite ?string_app_nil_l, ?string_app_cons; intros H; simplify_eq/=; [done|].
  destruct (Ascii.eqb c2 "|"); [done|].
  match goal with H : _ +:+ _ = _ +:+ _ |- _ => by apply IH in H as [-> ->] end.
Qed.

Lemma cachedGetResolver_injective p1 p2 q1 q2 d1 d2 :
  count_char "|" p1 = 0%nat → count_char "|" p2 = 0%nat →
  NoDup q1.*1 → NoDup q2.*1 →
  cachedGetResolver p1 q1 d1 = cachedGetResolver p2 q2 d2 →
  p1 = p2 ∧ printed q1 ≡ₚ printed q2 ∧ String_of d1 = String_of d2.
Proof.
  intros Hp1 Hp2 Hnd1 Hnd2 H.
  assert (p1 = p2) as ->.
  { unfold cachedGetResolver in H. by apply split_at_bar in H as [-> _]. }
  split; [done|]. split.
  - by eapply cachedGetResolver_inv_query.
  - by apply cachedGetResolver_inv in H as [_ ?].
Qed.



(** ** The last character of a fingerprint *)

Lemma last_char_pretty_N_go x s :
  s ≠ "" → last_char (pretty_N_go x s) = last_char s.
Proof.
  revert s. induction (N.lt_wf_0 x) as [x _ IH]; intros s Hs.
  assert (x = 0 ∨ 0 < x)%N as [->|Hx] by lia; [by rewrite pretty_N_go_0|].
  rewrite pretty_N_go_step by done. rewrite IH; [|by apply N.div_lt|done].
  by destruct s.
Qed.

Lemma last_char_pretty_N (x : N) :
  last_char (pretty x) = Some (pretty_N_char (x `mod` 10)).
Proof.
  unfold pretty, pretty_N. case_decide as Hx; [by subst|].
  rewrite pretty_N_go_step by lia. by rewrite last_char_pretty_N_go.
Qed.

Lemma last_char_pretty_Z (z : Z) :
  ∃ n : N, last_char (pretty z) = Some (pretty_N_char n).
Proof.
  destruct z as [|p|p]; unfold pretty, pretty_Z.
  - by exists 0%N.
  - eexists. apply last_char_pretty_N.
  - eexists. rewrite last_char_app; [apply last_char_pretty_N|].
    intros H%(f_equal last_char).
    change (pretty p) with (pretty (N.pos p)) in H.
    by rewrite last_char_pretty_N in H.
Qed.

Lemma pretty_N_char_not_e n : pretty_N_char n ≠ "e"%char.
Proof. unfold pretty_N_char. by repeat case_match. Qed.

Lemma last_char_cachedGetResolver path query datapost :
  String_of datapost ≠ "" →
  last_char (cachedGetResolver path query datapost) = last_char (String_of datapost).
Proof.
  intros Hd. unfold cachedGetResolver.
  rewrite !last_char_app; [done..| |].
  - intros H%(f_equal String.length). rewrite string_app_length in H. simpl in H. lia.
  - intros H%(f_equal String.length). rewrite !string_app_length in H. simpl in H. lia.
Qed.

Lemma last_char_prefetch_key path query :
  last_char (cachedGetResolver path query (JBool false)) = Some "e"%char.
Proof. by rewrite last_char_cachedGetResolver. Qed.

Lemma last_char_get_key path query :
  last_char (cachedGetResolver path query JUndefined) = Some "d"%char.
Proof. by rewrite last_char_cachedGetResolver. Qed.

Lemma string_app_ne_r (a b : string) : b ≠ "" → a +:+ b ≠ "".
Proof. intros Hb. by destruct a. Qed.

Lemma last_char_purchase_key pkg (versionCode : Z) :
  last_char (cachedGetResolver "purchase" []
               (JStr ("ot=1&doc=" +:+ pkg +:+ "&vc=" +:+ pretty versionCode)))
  ≠ Some "e"%char.
Proof.
  destruct (last_char_pretty_Z versionCode) as [n Hn].
  assert (pretty versionCode ≠ "") as Hne.
  { intros H. by rewrite H in Hn. }
  rewrite last_char_cachedGetResolver; unfold String_of.
  - rewrite !last_char_app by auto using string_app_ne_r.
    rewrite Hn. intros [= H]. by apply pretty_N_char_not_e in H.
  - auto using string_app_ne_r.
Qed.

(** A fingerprint is never the name of a property of the memoized
    function: the test of [_tryHandlePrefetch] before it stores an entry
    reads the function object, not its cache, and never succeeds. *)
Lemma count_char_app c (a b : string) :
  count_char c (a +:+ b) = (count_char c a + count_char c b)%nat.
Proof.
  induction a as [|x a IH]; [done|]. rewrite string_app_cons. simpl. rewrite IH. lia.
Qed.

Lemma memoized_property_fingerprint path query datapost :
  memoized_property_truthy (cachedGetResolver path query datapost) = false.
Proof.
  unfold memoized_property_truthy. apply bool_decide_eq_false_2. intros Hin.
  assert (Forall (fun s => count_char "|" s = 0%nat) function_properties) as Hall.
  { unfold function_properties. repeat constructor. }
  rewrite Forall_forall in Hall. apply Hall in Hin.
  unfold cachedGetResolver in Hin. rewrite !count_char_app in Hin. simpl in Hin. lia.
Qed.

(** ** Timers *)

Lemma fire_lookup due (c : gmap string promise) k :
  fire due c !! k = if decide (k ∈ due.*2) then None else c !! k.
Proof.
  unfold fire. revert c. induction due as [|[t k'] due IH]; intros c; [done|].
  simpl. rewrite IH. destruct (decide (k = k')) as [->|Hne].
  - rewrite (decide_True _ _ (list_elem_of_here k' _)).
    case_decide; [done|]. apply lookup_delete_eq.
  - rewrite lookup_delete_ne by done.
    destruct (decide (k ∈ due.*2)) as [Hin|Hin].
    + by rewrite (decide_True _ _ (list_elem_of_further _ k' _ Hin)).
    + rewrite decide_False; [done|]. by intros [?|?]%elem_of_cons.
Qed.

(** An entry whose key has no timer due stays. *)
Lemma advance_lookup_keep d st k :
  (∀ t, t ∈ timers st → t.2 = k → ¬ (t.1 ≤ clock st + d)%Z) →
  cache (advance d st) !! k = cache st !! k.
Proof.
  intros Hk. unfold advance. simpl. rewrite fire_lookup.
  rewrite decide_False; [done|].
  intros ([t k'] & -> & [Hdue Hin]%list_elem_of_filter)%list_elem_of_fmap.
  by eapply Hk.
Qed.

(** An entry whose key has a timer due is deleted. *)
Lemma advance_lookup_due d st t :
  t ∈ timers st → (t.1 ≤ clock st + d)%Z → cache (advance d st) !! t.2 = None.
Proof.
  intros Hin Hdue. unfold advance. simpl. rewrite fire_lookup.
  rewrite decide_True; [done|].
  apply list_elem_of_fmap. exists t. split; [done|]. by apply list_elem_of_filter.
Qed.

Lemma advance_lookup_wf d st k :
  timers_wf st → ¬ prefetch_key k → cache (advance d st) !! k = cache st !! k.
Proof.
  intros Hwf Hk. apply advance_lookup_keep. intros t Hin <-.
  unfold timers_wf in Hwf. rewrite Forall_forall in Hwf. by apply Hwf in Hin.
Qed.

(** The fingerprints of the ingester are prefetch keys, and no
    fingerprint of a request without [datapost] is one of them. *)
Lemma ingester_key_prefetch_key k : ingester_key k → prefetch_key k.
Proof. intros (path & query & ->). apply last_char_prefetch_key. Qed.

Lemma ingester_timers_wf st : ingester_timers st → timers_wf st.
Proof.
  unfold ingester_timers, timers_wf. intros H. eapply Forall_impl; [exact H|].
  intros t. apply ingester_key_prefetch_key.
Qed.

Lemma get_key_not_ingester_key path query :
  ¬ ingester_key (cachedGetResolver path query JUndefined).
Proof.
  intros Hk%ingester_key_prefetch_key. unfold prefetch_key in Hk.
  by rewrite last_char_get_key in Hk.
Qed.

(** ** The effects of the transport and of the cache *)

Lemma prefetch_frame_refl st : prefetch_frame st st.
Proof.
  repeat split; try done. exists []. by rewrite app_nil_r.
Qed.

Lemma prefetch_frame_trans st1 st2 st3 :
  prefetch_frame st1 st2 → prefetch_frame st2 st3 → prefetch_frame st1 st3.
Proof.
  intros (?&?&?&?&?&Hc1&new1&Ht1&Hn1) (?&?&?&?&?&Hc2&new2&Ht2&Hn2).
  repeat split; try congruence.
  - intros k Hk. by rewrite Hc2, Hc1.
  - exists (new1 ++ new2). rewrite Ht2, Ht1, <-app_assoc. split; [done|].
    by apply Forall_app.
Qed.

Lemma prefetch_entry_frame env ttl st entry :
  prefetch_frame st (prefetch_entry env ttl st entry).2.
Proof.
  unfold prefetch_entry.
  destruct (url_regex_exec (url entry)) as [[path qstr]|]; [|apply prefetch_frame_refl].
  destruct (USE_CACHE st); simpl; [|apply prefetch_frame_refl].
  destruct (response entry) as [r|]; [|apply prefetch_frame_refl].
  rewrite memoized_property_fingerprint.
  assert (∀ k, ¬ prefetch_key k →
    <[cachedGetResolver path (qs_parse env qstr) (JBool false) :=
        {| promise_id := promises st; settled := inr (VMessage r) |}]> (cache st) !! k
    = cache st !! k) as Hother.
  { intros k Hk. apply lookup_insert_ne. intros <-.
    apply Hk, last_char_prefetch_key. }
  destruct (ttl =? 0)%Z; simpl; repeat split; try done.
  - exists []. by rewrite app_nil_r.
  - eexists. split; [done|]. repeat constructor. apply last_char_prefetch_key.
Qed.

Lemma prefetch_entries_frame env ttl st entries :
  prefetch_frame st (prefetch_entries env ttl st entries).2.
Proof.
  revert st. induction entries as [|entry rest IH]; intros st; simpl.
  - apply prefetch_frame_refl.
  - pose proof (prefetch_entry_frame env ttl st entry) as Hf.
    destruct (prefetch_entry env ttl st entry) as [[e|[]] st']; simpl in *; [done|].
    eapply prefetch_frame_trans; [done|apply IH].
Qed.

Lemma _tryHandlePrefetch_frame env st message ttl :
  prefetch_frame st (_tryHandlePrefetch env st message ttl).2.
Proof.
  unfold _tryHandlePrefetch. destruct (preFetch message).
  - apply prefetch_entries_frame.
  - apply prefetch_frame_refl.
Qed.

(** After the memoized transport has answered, [executeRequestApi] only
    runs the prefetch ingester. *)
Lemma executeRequestApi_frame env st path query datapost contentType :
  prefetch_frame
    (memoizedExecuteRequestApi2 env st path query datapost contentType).2
    (executeRequestApi env st path query datapost contentType).2.
Proof.
  unfold executeRequestApi.
  destruct (memoizedExecuteRequestApi2 env st path query datapost contentType)
    as [[e|p] st1]; simpl; [apply prefetch_frame_refl|].
  destruct (settled p) as [e|body]; [apply prefetch_frame_refl|].
  destruct (_toResponseWrapper env body) as [e|[message|]];
    [apply prefetch_frame_refl| |apply prefetch_frame_refl].
  destruct (USE_CACHE st1); [|apply prefetch_frame_refl].
  pose proof (_tryHandlePrefetch_frame env st1 message CACHE_INVALIDATION_INTERVAL) as Hf.
  by destruct (_tryHandlePrefetch env st1 message CACHE_INVALIDATION_INTERVAL) as [[e|[]] st2].
Qed.

(** A cache hit returns the stored promise and changes nothing. *)
Lemma memoized_hit env st path query datapost contentType p :
  USE_CACHE st = true →
  cache st !! cachedGetResolver path query datapost = Some p →
  memoizedExecuteRequestApi2 env st path query datapost contentType = (inr p, st).
Proof. intros Hc Hp. unfold memoizedExecuteRequestApi2. by rewrite Hc, Hp. Qed.

Lemma _executeRequestApi2_sends env st token path query datapost contentType :
  authToken st = Some token →
  let req := sent_request st token path query datapost contentType in
  _executeRequestApi2 env st path query datapost contentType
  = (inr (transport_promise env st req),
     set_promises (S (promises st)) (set_transport_log (transport_log st ++ [req]) st)).
Proof. intros Ht. unfold _executeRequestApi2. by rewrite Ht. Qed.

(** A cache miss sends the request and stores the promise, whatever its
    outcome; it sets no timer. *)
Lemma memoized_miss env st token path query datapost contentType :
  USE_CACHE st = true → authToken st = Some token →
  cache st !! cachedGetResolver path query datapost = None →
  let req := sent_request st token path query datapost contentType in
  let p := transport_promise env st req in
  memoizedExecuteRequestApi2 env st path query datapost contentType
  = (inr p,
     set_cache (<[cachedGetResolver path query datapost := p]> (cache st))
       (set_promises (S (promises st))
          (set_transport_log (transport_log st ++ [req]) st))).
Proof.
  intros Hc Ht Hk. unfold memoizedExecuteRequestApi2.
  by rewrite Hc, Hk, (_executeRequestApi2_sends env st token).
Qed.

Lemma and_then_state {A B} (r : outcome A * client) (f : A → error + B) :
  (and_then r f).2 = r.2.
Proof. destruct r as [[e|e|a] st]; simpl; [done..|]. by destruct (f a). Qed.

(** ** POST-shaped operations and the cache *)

Lemma executeRequestApi_hit env st path query datapost contentType p :
  USE_CACHE st = true →
  cache st !! cachedGetResolver path query datapost = Some p →
  prefetch_frame st (executeRequestApi env st path query datapost contentType).2.
Proof.
  intros Hc Hp.
  pose proof (executeRequestApi_frame env st path query datapost contentType) as Hf.
  by rewrite (memoized_hit env st path query datapost contentType p) in Hf.
Qed.

Lemma executeRequestApi_miss env st token path query datapost contentType :
  USE_CACHE st = true → authToken st = Some token →
  cache st !! cachedGetResolver path query datapost = None →
  let req := sent_request st token path query datapost contentType in
  let st1 := (executeRequestApi env st path query datapost contentType).2 in
  USE_CACHE st1 = true ∧ authToken st1 = Some token
  ∧ transport_log st1 = transport_log st ++ [req]
  ∧ (¬ prefetch_key (cachedGetResolver path query datapost) →
     cache st1 !! cachedGetResolver path query datapost
     = Some (transport_promise env st req)).
Proof.
  intros Hc Ht Hk req st1.
  pose proof (executeRequestApi_frame env st path query datapost contentType) as Hf.
  rewrite (memoized_miss env st token) in Hf by done.
  destruct Hf as (Hc1 & Ht1 & Hl1 & _ & _ & Hk1 & _). simpl in *.
  fold st1 in Hc1, Ht1, Hl1, Hk1.
  split; [congruence|]. split; [congruence|]. split; [exact Hl1|].
  intros Hnk. rewrite Hk1 by done. apply lookup_insert_eq.
Qed.

(** C1 (as amended). Caching makes no exception for POST-shaped
    operations: the fingerprint holds the POST body, and with caching
    enabled the first [getDownloadInfo] for a package and version code
    leaves an entry under it (after one Transport call when there was
    none), and a second identical call finds that entry and triggers no
    Transport call. Only with caching disabled does each call trigger its
    own POST. *)
Theorem getDownloadInfo_memoized (env : Env) (st : client) (pkg : string)
    (versionCode : Z) :
  is_Some (authToken st) →
  let key := cachedGetResolver "purchase" []
               (JStr ("ot=1&doc=" +:+ pkg +:+ "&vc=" +:+ pretty versionCode)) in
  let st1 := (getDownloadInfo env st pkg versionCode).2 in
  let st2 := (getDownloadInfo env st1 pkg versionCode).2 in
  (USE_CACHE st = true →
     is_Some (cache st1 !! key)
     ∧ (cache st !! key = None →
        ∃ req, transport_log st1 = transport_log st ++ [req] ∧ req_method req = POST)
     ∧ cache st2 !! key = cache st1 !! key
     ∧ transport_log st2 = transport_log st1)
  ∧ (USE_CACHE st = false →
     ∃ req1 req2,
       transport_log st1 = transport_log st ++ [req1]
       ∧ transport_log st2 = transport_log st1 ++ [req2]
       ∧ req_method req1 = POST ∧ req_method req2 = POST
       ∧ cache st2 = cache st).
Proof.
  intros [token Ht] key st1 st2.
  set (body := "ot=1&doc=" +:+ pkg +:+ "&vc=" +:+ pretty versionCode) in *.
  assert (st1 = (executeRequestApi env st "purchase" [] (JStr body) JUndefined).2)
    as Hst1 by apply and_then_state.
  assert (st2 = (executeRequestApi env st1 "purchase" [] (JStr body) JUndefined).2)
    as Hst2 by apply and_then_state.
  clearbody st2. clearbody st1. subst st2.
  assert (¬ prefetch_key key) as Hkey by apply last_char_purchase_key.
  assert (truthy (JStr body) = true) as Hpost by done.
  clearbody body.
  split.
  - intros Hc.
    assert (USE_CACHE st1 = true ∧ ∃ p, cache st1 !! key = Some p) as [Hc1 [p Hp]].
    { destruct (cache st !! key) as [p|] eqn:Hk.
      - destruct (executeRequestApi_hit env st "purchase" [] (JStr body) JUndefined p Hc Hk)
          as (Hc1 & _ & _ & _ & _ & Hk1 & _).
        rewrite <-Hst1 in Hc1, Hk1. split; [congruence|]. exists p.
        by rewrite Hk1.
      - destruct (executeRequestApi_miss env st token "purchase" [] (JStr body) JUndefined
                    Hc Ht Hk) as (Hc1 & _ & _ & Hk1).
        rewrite <-Hst1 in Hc1, Hk1.
        split; [done|]. eexists. by apply Hk1. }
    split; [by rewrite Hp|]. split.
    + intros Hk.
      destruct (executeRequestApi_miss env st token "purchase" [] (JStr body) JUndefined
                  Hc Ht Hk) as (_ & _ & Hl & _).
      rewrite <-Hst1 in Hl.
      eexists. split; [exact Hl|]. unfold sent_request, handleRequest. by rewrite Hpost.
    + destruct (executeRequestApi_hit env st1 "purchase" [] (JStr body) JUndefined p Hc1 Hp)
        as (_ & _ & Hl & _ & _ & Hk2 & _).
      split; [by apply Hk2|done].
  - intros Hc.
    assert (∀ s, USE_CACHE s = false → authToken s = Some token →
      let s' := (executeRequestApi env s "purchase" [] (JStr body) JUndefined).2 in
      USE_CACHE s' = false ∧ authToken s' = Some token ∧ cache s' = cache s
      ∧ transport_log s' = transport_log s
          ++ [sent_request s token "purchase" [] (JStr body) JUndefined]) as Hstep.
    { intros s Hcs Hts. unfold executeRequestApi, memoizedExecuteRequestApi2.
      rewrite Hcs, (_executeRequestApi2_sends env s token) by done.
      destruct (settled _) as [e|b]; simpl; [done|].
      destruct (_toResponseWrapper env b) as [e|[m|]]; simpl; [done| |done].
      by rewrite Hcs. }
    destruct (Hstep st Hc Ht) as (Hc1 & Ht1 & Hca1 & Hl1). rewrite <-Hst1 in *.
    destruct (Hstep st1 Hc1 Ht1) as (_ & _ & Hca2 & Hl2).
    eexists _, _. split; [exact Hl1|]. split; [exact Hl2|].
    unfold sent_request, handleRequest. rewrite Hpost. simpl.
    repeat split; try done. congruence.
Qed.

(** C1, the claim as stated fails: with caching enabled, two identical
    calls of [getDownloadInfo] share one cache entry, and the second call
    triggers no Transport call. *)
Lemma getDownloadInfo_shares_cache_entry :
  let r1 := getDownloadInfo sample_env sample_client "com.example.app" 37 in
  let r2 := getDownloadInfo sample_env r1.2 "com.example.app" 37 in
  USE_CACHE sample_client = true
  ∧ req_method <$> transport_log r1.2 = [POST]
  ∧ transport_log r2.2 = transport_log r1.2
  ∧ cachedKeys r2.2 = [cachedGetResolver "purchase" [] (JStr "ot=1&doc=com.example.app&vc=37")]
  ∧ r2.1 = r1.1
  ∧ r2.1 = Fulfilled {| grant_url := "https://android.clients.google.com/market/download/Download?packageName=com.example.app";
                        grant_cookies := sample_cookies |}.
Proof. vm_compute. done. Qed.

Lemma getDownloadInfo_memoized_witness :
  is_Some (authToken sample_client)
  ∧ let key := cachedGetResolver "purchase" []
                 (JStr ("ot=1&doc=" +:+ "com.example.app" +:+ "&vc=" +:+ pretty 37%Z)) in
    let st1 := (getDownloadInfo sample_env sample_client "com.example.app" 37).2 in
    let st2 := (getDownloadInfo sample_env st1 "com.example.app" 37).2 in
    (USE_CACHE sample_client = true →
       is_Some (cache st1 !! key)
       ∧ (cache sample_client !! key = None →
          ∃ req, transport_log st1 = transport_log sample_client ++ [req]
                 ∧ req_method req = POST)
       ∧ cache st2 !! key = cache st1 !! key
       ∧ transport_log st2 = transport_log st1)
    ∧ (USE_CACHE sample_client = false →
       ∃ req1 req2,
         transport_log st1 = transport_log sample_client ++ [req1]
         ∧ transport_log st2 = transport_log st1 ++ [req2]
         ∧ req_method req1 = POST ∧ req_method req2 = POST
         ∧ cache st2 = cache sample_client).
Proof.
  split; [by eexists|].
  apply (getDownloadInfo_memoized sample_env sample_client "com.example.app" 37).
  by eexists.
Defined.

Lemma login_spec_witness :
  is_undefined (username sample_client) = false
  ∧ is_undefined (password sample_client) = false
  ∧ let st := sample_client in
    let req := {| login_url := URL_LOGIN; login_form := login_body st |} in
    (∀ res, auth_server sample_env req = NetOk res → statusCode res ≠ 200%Z →
       login sample_env st = (Rejected (LoginError (body res)), st))
    ∧ (∀ res, auth_server sample_env req = NetOk res → statusCode res = 200%Z →
         "auth" ∉ body_keys (body res) →
         ∃ e, login sample_env st = (Rejected e, st) ∧ is_LoginError e = false)
    ∧ (∀ res obj, auth_server sample_env req = NetOk res → statusCode res = 200%Z →
         content_type res = Some "text/plain; charset=utf-8" →
         responseToObj (body res) = inr obj → obj !! "auth" = None →
         login sample_env st = (Rejected (Error "expected auth in server response"), st))
    ∧ (∀ r st', login sample_env st = (r, st') → r ≠ Fulfilled tt →
         st' = st ∧ authToken st' = authToken st)
    ∧ (∀ st', login sample_env st = (Fulfilled tt, st') →
         ∃ res obj auth,
           auth_server sample_env req = NetOk res ∧ statusCode res = 200%Z
           ∧ responseToObj (body res) = inr obj ∧ obj !! "auth" = Some auth
           ∧ authToken st' = Some auth)
    ∧ (∀ res obj auth, auth_server sample_env req = NetOk res → statusCode res = 200%Z →
         content_type res = Some "text/plain; charset=utf-8" →
         responseToObj (body res) = inr obj → obj !! "auth" = Some auth → auth ≠ "" →
         login sample_env st = (Fulfilled tt, set_authToken (Some auth) st)).
Proof.
  split; [reflexivity|]. split; [reflexivity|].
  apply (login_spec sample_env sample_client); reflexivity.
Defined.

(** ** The timers of a reachable client

    A new client has no timer, and every timer that an operation sets
    stands under a prefetch key. *)

Lemma timers_wf_GooglePlay env u p a useCache dbg st :
  GooglePlay env u p a useCache dbg = inr st → timers_wf st.
Proof.
  unfold GooglePlay, getOrElseThrow.
  destruct (is_undefined u), (is_undefined p), (is_undefined (js_or a JNull)),
    (desc_file env); simpl; intros [= <-]. constructor.
Qed.

Lemma timers_wf_frame st st' : prefetch_frame st st' → timers_wf st → timers_wf st'.
Proof.
  intros (_&_&_&_&_&_&new&Ht&Hnew) Hwf. unfold timers_wf. rewrite Ht.
  by apply Forall_app.
Qed.

Lemma timers_memoizedExecuteRequestApi2 env st path query datapost contentType :
  timers (memoizedExecuteRequestApi2 env st path query datapost contentType).2 = timers st.
Proof.
  unfold memoizedExecuteRequestApi2, _executeRequestApi2.
  destruct (USE_CACHE st); [destruct (cache st !! _); [done|]|];
    by destruct (authToken st).
Qed.

Lemma timers_wf_executeRequestApi env st path query datapost contentType :
  timers_wf st →
  timers_wf (executeRequestApi env st path query datapost contentType).2.
Proof.
  intros Hwf. eapply timers_wf_frame; [apply executeRequestApi_frame|].
  unfold timers_wf. by rewrite timers_memoizedExecuteRequestApi2.
Qed.

Lemma timers_wf_login env st : timers_wf st → timers_wf (login env st).2.
Proof.
  unfold login. destruct (_ && _); [done|].
  destruct (auth_server env _) as [e|res]; [done|].
  by destruct (login_callback res).
Qed.

(** ** Failures and the cache *)

(** A hit on a rejected promise returns the rejection and changes
    nothing. *)
Lemma executeRequestApi_rejected_hit env st path query datapost contentType p e :
  USE_CACHE st = true →
  cache st !! cachedGetResolver path query datapost = Some p →
  settled p = inl e →
  executeRequestApi env st path query datapost contentType = (Rejected e, st).
Proof.
  intros Hc Hp He. unfold executeRequestApi.
  by rewrite (memoized_hit env st path query datapost contentType p), He.
Qed.

Lemma timers_wf_advance d st : timers_wf st → timers_wf (advance d st).
Proof.
  unfold timers_wf, advance. simpl. rewrite !Forall_forall.
  intros Hwf t [_ Hin]%list_elem_of_filter. by apply Hwf.
Qed.

Lemma repeat_call_rejected env path query datapost contentType delays st p e :
  USE_CACHE st = true →
  (∀ x, x ∈ timers st → x.2 ≠ cachedGetResolver path query datapost) →
  cache st !! cachedGetResolver path query datapost = Some p →
  settled p = inl e →
  let rs := repeat_call env path query datapost contentType delays st in
  rs.1 = replicate (length delays) (Rejected e)
  ∧ transport_log rs.2 = transport_log st
  ∧ cache rs.2 !! cachedGetResolver path query datapost = Some p.
Proof.
  revert st. induction delays as [|d ds IH]; intros st Hc Hno Hp He; simpl; [done|].
  assert (cache (advance d st) !! cachedGetResolver path query datapost = Some p) as Hp'.
  { rewrite advance_lookup_keep; [done|]. intros t Hin Heq. by apply Hno in Hin. }
  rewrite (executeRequestApi_rejected_hit env (advance d st) path query datapost
             contentType p e) by done.
  simpl. destruct (IH (advance d st)) as (Hrs & Hl & Hk); [done| |done..|].
  { intros x [_ Hin]%list_elem_of_filter. by apply Hno. }
  rewrite Hrs, Hl, Hk. done.
Qed.

(** C9 (as amended). With caching enabled, a request that is sent as a GET
    (its [datapost] is absent or falsy) and whose network call fails is
    memoized like a success: the call is rejected with the failure, the
    rejected promise is stored under the fingerprint, and no timer is set
    for it. As long as no timer is pending under that fingerprint, every
    later call with the same path, the same query members in any order and
    the same [datapost], after any delays, is rejected with that same
    failure and sends nothing to the Transport; that is so for every
    request without [datapost] on a client whose timers were all set by
    the ingester. When a timer is pending under the fingerprint, which
    takes a falsy [datapost] that is not absent, the rejected promise is
    deleted when the timer falls due, and the next such call goes to the
    Transport again. *)
Theorem failed_get_stays_cached (env : Env) (st : client) (token path : string)
    (q q' : list (string * qval)) (datapost ct ct' : jsval) (e : error) :
  USE_CACHE st = true → authToken st = Some token →
  truthy datapost = false →
  NoDup q.*1 → q ≡ₚ q' →
  let key := cachedGetResolver path q datapost in
  let req := sent_request st token path q datapost ct in
  let p := transport_promise env st req in
  cache st !! key = None →
  settled p = inl e →
  let r1 := executeRequestApi env st path q datapost ct in
  req_method req = GET
  ∧ r1.1 = Rejected e
  ∧ transport_log r1.2 = transport_log st ++ [req]
  ∧ cache r1.2 !! key = Some p
  ∧ timers r1.2 = timers st
  ∧ ((∀ x, x ∈ timers st → x.2 ≠ key) →
     ∀ delays,
       let rs := repeat_call env path q' datapost ct' delays r1.2 in
       rs.1 = replicate (length delays) (Rejected e)
       ∧ transport_log rs.2 = transport_log r1.2
       ∧ cache rs.2 !! key = Some p)
  ∧ (datapost = JUndefined → ingester_timers st → ∀ x, x ∈ timers st → x.2 ≠ key)
  ∧ (∀ x d, x ∈ timers st → x.2 = key → (x.1 ≤ clock st + d)%Z →
       let st2 := advance d r1.2 in
       let r2 := executeRequestApi env st2 path q' datapost ct' in
       cache st2 !! key = None
       ∧ transport_log r2.2
         = transport_log r1.2 ++ [sent_request st2 token path q' datapost ct']).
Proof.
  intros Hc Ht Hfalsy Hnd Hperm key req p Hk He r1.
  assert (r1 = (Rejected e,
                set_cache (<[key := p]> (cache st))
                  (set_promises (S (promises st))
                     (set_transport_log (transport_log st ++ [req]) st)))) as ->.
  { subst r1. unfold executeRequestApi.
    rewrite (memoized_miss env st token) by done. fold req. fold p. by rewrite He. }
  assert (key = cachedGetResolver path q' datapost) as Hkey'.
  { by apply cachedGetResolver_Permutation. }
  split; [subst req; unfold sent_request, handleRequest; by rewrite Hfalsy|].
  simpl. split; [done|]. split; [done|].
  split; [apply lookup_insert_eq|]. split; [done|]. split; [|split].
  - intros Hno delays. rewrite Hkey'.
    apply repeat_call_rejected; try done.
    + simpl. intros x Hin. rewrite <-Hkey'. by apply Hno.
    + rewrite <-Hkey'. simpl. apply lookup_insert_eq.
  - intros -> Hwf x Hin Hx. unfold ingester_timers in Hwf.
    rewrite Forall_forall in Hwf. apply Hwf in Hin. rewrite Hx in Hin.
    by apply get_key_not_ingester_key in Hin.
  - intros x d Hin Hx Hdue.
    set (st1 := set_cache (<[key := p]> (cache st))
                  (set_promises (S (promises st))
                     (set_transport_log (transport_log st ++ [req]) st))).
    assert (cache (advance d st1) !! key = None) as Hgone.
    { rewrite <-Hx. by apply (advance_lookup_due d st1 x). }
    split; [exact Hgone|].
    rewrite Hkey' in Hgone.
    destruct (executeRequestApi_miss env (advance d st1) token path q' datapost ct')
      as (_ & _ & Hl & _); [done..|].
    exact Hl.
Qed.

Lemma failed_get_stays_cached_witness :
  let env := failing_env in
  let st := sample_client in
  let q := related_query "com.example.app" in
  let q' := [("c", QStr "3"); ("rt", QStr "1"); ("doc", QStr "com.example.app")] in
  let e := RequestError "Internal Server Error" in
  USE_CACHE st = true ∧ authToken st = Some "XYZ"
  ∧ truthy JUndefined = false
  ∧ NoDup q.*1 ∧ q ≡ₚ q'
  ∧ let key := cachedGetResolver "rec" q JUndefined in
    let req := sent_request st "XYZ" "rec" q JUndefined JUndefined in
    let p := transport_promise env st req in
    cache st !! key = None
    ∧ settled p = inl e
    ∧ let r1 := executeRequestApi env st "rec" q JUndefined JUndefined in
      req_method req = GET
      ∧ r1.1 = Rejected e
      ∧ transport_log r1.2 = transport_log st ++ [req]
      ∧ cache r1.2 !! key = Some p
      ∧ timers r1.2 = timers st
      ∧ ((∀ x, x ∈ timers st → x.2 ≠ key) →
         ∀ delays,
           let rs := repeat_call env "rec" q' JUndefined JUndefined delays r1.2 in
           rs.1 = replicate (length delays) (Rejected e)
           ∧ transport_log rs.2 = transport_log r1.2
           ∧ cache rs.2 !! key = Some p)
      ∧ (JUndefined = JUndefined → ingester_timers st →
         ∀ x, x ∈ timers st → x.2 ≠ key)
      ∧ (∀ x d, x ∈ timers st → x.2 = key → (x.1 ≤ clock st + d)%Z →
           let st2 := advance d r1.2 in
           let r2 := executeRequestApi env st2 "rec" q' JUndefined JUndefined in
           cache st2 !! key = None
           ∧ transport_log r2.2
             = transport_log r1.2 ++ [sent_request st2 "XYZ" "rec" q' JUndefined JUndefined]).
Proof.
  assert (NoDup (related_query "com.example.app").*1) as Hnd.
  { apply (bool_decide_unpack (NoDup (related_query "com.example.app").*1)).
    vm_compute. exact I. }
  assert (related_query "com.example.app"
          ≡ₚ [("c", QStr "3"); ("rt", QStr "1"); ("doc", QStr "com.example.app")]) as Hp.
  { unfold related_query. etrans; [apply perm_swap|].
    etrans; [apply perm_skip, perm_swap|]. apply perm_swap. }
  split; [reflexivity|]. split; [reflexivity|]. split; [reflexivity|].
  split; [exact Hnd|]. split; [exact Hp|].
  split; [reflexivity|]. split; [reflexivity|].
  apply (failed_get_stays_cached failing_env sample_client "XYZ" "rec"
           (related_query "com.example.app")
           [("c", QStr "3"); ("rt", QStr "1"); ("doc", QStr "com.example.app")]
           JUndefined JUndefined JUndefined (RequestError "Internal Server Error"));
    [reflexivity|reflexivity|reflexivity|exact Hnd|exact Hp|reflexivity|reflexivity].
Defined.

(** C9, the claim as stated fails: a GET whose [datapost] is [false] fails
    and its rejected promise is cached, under the fingerprint that the
    ingester uses for the prefetched answer of the same URL. The timer of
    an earlier prefetch entry is still pending under that fingerprint; ten
    seconds later it deletes the rejected promise, though nobody
    invalidated the cache, and the same call sends the GET again. *)
Lemma failed_get_is_sent_again :
  let env := flaky_env in
  let q := qs_parse_plain "doc=com.example.app&rt=1&c=3" in
  let key := cachedGetResolver "rec" q (JBool false) in
  let s1 := (getPackageDetails env sample_client "com.example.app").2 in
  let s2 := (getPackageDetails env (advance 10000 s1) "com.example.app").2 in
  let s3 := advance 20000 s2 in
  let r1 := executeRequestApi env s3 "rec" q (JBool false) JUndefined in
  let r2 := executeRequestApi env r1.2 "rec" q (JBool false) JUndefined in
  let s4 := advance 10000 r2.2 in
  let r3 := executeRequestApi env s4 "rec" q (JBool false) JUndefined in
  USE_CACHE s3 = true
  ∧ timers s3 = [(40000%Z, key)]
  ∧ cache s3 !! key = None
  ∧ r1.1 = Rejected (RequestError "Internal Server Error")
  ∧ req_method <$> transport_log r1.2 = [GET; GET]
  ∧ settled <$> cache r1.2 !! key = Some (inl (RequestError "Internal Server Error"))
  ∧ r2.1 = r1.1
  ∧ transport_log r2.2 = transport_log r1.2
  ∧ cache s4 !! key = None
  ∧ r3.1 = r1.1
  ∧ req_url <$> transport_log r3.2
    = ["https://android.clients.google.com/fdfe/details";
       "https://android.clients.google.com/fdfe/rec";
       "https://android.clients.google.com/fdfe/rec"]
  ∧ req_method <$> transport_log r3.2 = [GET; GET; GET].
Proof. vm_compute. by repeat split. Qed.

(** ** The prefetch ingester *)

(** What [_tryHandlePrefetch] does with an entry whose URL matches and
    whose response is defined: it stores the entry, whatever the cache
    held under the fingerprint, and sets the timer. *)
Lemma prefetch_entry_stores env ttl st entry path qstr r :
  USE_CACHE st = true →
  url_regex_exec (url entry) = Some (path, qstr) →
  response entry = Some r →
  ttl ≠ 0%Z →
  let key := cachedGetResolver path (qs_parse env qstr) (JBool false) in
  let p := {| promise_id := promises st; settled := inr (VMessage r) |} in
  prefetch_entry env ttl st entry
  = (inr tt,
     set_timers (timers st ++ [((clock st + ttl)%Z, key)])
       (set_promises (S (promises st)) (set_cache (<[key := p]> (cache st)) st))).
Proof.
  intros Hc Hu Hr Httl. unfold prefetch_entry.
  rewrite Hu, Hc, Hr, memoized_property_fingerprint. simpl.
  by destruct (Z.eqb_spec ttl 0).
Qed.

(** C7 (as amended). An entry stored by the prefetch ingester gets a timer
    of 30000 ms at insertion: the entry is absent once 30000 ms have
    passed, and present before, as long as no older timer under the same
    fingerprint falls due. An entry created on a cache miss gets no timer
    of its own. Timers delete by fingerprint: the entry stays for as long
    as no timer pending under its fingerprint falls due, and is deleted
    when one does. On a client whose timers were all set by the ingester,
    the entry of a request without [datapost] stands under no timer and
    stays however much time passes. *)
Theorem cache_entry_expiry (env : Env) (st : client) :
  USE_CACHE st = true →
  (∀ entry path qstr r,
     url_regex_exec (url entry) = Some (path, qstr) → response entry = Some r →
     let key := cachedGetResolver path (qs_parse env qstr) (JBool false) in
     let st1 := (prefetch_entry env CACHE_INVALIDATION_INTERVAL st entry).2 in
     cache st1 !! key = Some {| promise_id := promises st; settled := inr (VMessage r) |}
     ∧ timers st1 = timers st ++ [((clock st + 30000)%Z, key)]
     ∧ (∀ t, (30000 ≤ t)%Z → cache (advance t st1) !! key = None)
     ∧ (∀ t, (t < 30000)%Z →
          (∀ x, x ∈ timers st → x.2 = key → ¬ (x.1 ≤ clock st + t)%Z) →
          cache (advance t st1) !! key = cache st1 !! key))
  ∧ (∀ token path query datapost contentType,
       authToken st = Some token →
       let key := cachedGetResolver path query datapost in
       let st1 := (memoizedExecuteRequestApi2 env st path query datapost contentType).2 in
       cache st !! key = None →
       is_Some (cache st1 !! key)
       ∧ timers st1 = timers st
       ∧ (∀ t, (∀ x, x ∈ timers st → x.2 = key → ¬ (x.1 ≤ clock st + t)%Z) →
            cache (advance t st1) !! key = cache st1 !! key)
       ∧ (∀ t x, x ∈ timers st → x.2 = key → (x.1 ≤ clock st + t)%Z →
            cache (advance t st1) !! key = None)
       ∧ (datapost = JUndefined → ingester_timers st →
          ∀ t, cache (advance t st1) !! key = cache st1 !! key)).
Proof.
  intros Hc. split.
  - intros entry path qstr r Hu Hr key st1.
    assert (cache st1 = <[key := {| promise_id := promises st;
                                     settled := inr (VMessage r) |}]> (cache st)
            ∧ timers st1 = timers st ++ [((clock st + 30000)%Z, key)]
            ∧ clock st1 = clock st) as (Hcache & Htimers & Hclock).
    { subst st1.
      by rewrite (prefetch_entry_stores env CACHE_INVALIDATION_INTERVAL st entry path qstr r). }
    clearbody st1.
    split; [rewrite Hcache; apply lookup_insert_eq|]. split; [done|]. split.
    + intros t Ht.
      apply (advance_lookup_due t st1 ((clock st + 30000)%Z, key)); simpl.
      * rewrite Htimers. apply elem_of_app. right. apply list_elem_of_here.
      * lia.
    + intros t Ht Hold. apply advance_lookup_keep. rewrite Htimers, Hclock.
      intros x [Hin|Hin%list_elem_of_singleton]%elem_of_app Hx.
      * by apply Hold.
      * subst x. simpl. lia.
  - intros token path query datapost contentType Ht key st1 Hk.
    assert (cache st1 = <[key := transport_promise env st
                            (sent_request st token path query datapost contentType)]>
                          (cache st)
            ∧ timers st1 = timers st ∧ clock st1 = clock st) as (Hcache & Htimers & Hclock).
    { subst st1. by rewrite (memoized_miss env st token). }
    clearbody st1.
    assert (∀ t, (∀ x, x ∈ timers st → x.2 = key → ¬ (x.1 ≤ clock st + t)%Z) →
              cache (advance t st1) !! key = cache st1 !! key) as Hstay.
    { intros t Hno. apply advance_lookup_keep. rewrite Htimers, Hclock.
      intros x Hin Hx. by apply Hno. }
    split; [rewrite Hcache, lookup_insert_eq; eauto|]. split; [done|].
    split; [exact Hstay|]. split.
    + intros t x Hin Hx Hdue. rewrite <-Hx.
      apply (advance_lookup_due t st1 x); [by rewrite Htimers|by rewrite Hclock].
    + intros Hd Hwf t. apply Hstay. intros x Hin Hx _.
      unfold ingester_timers in Hwf. rewrite Forall_forall in Hwf.
      apply Hwf in Hin. rewrite Hx in Hin. subst key. rewrite Hd in Hin.
      by apply get_key_not_ingester_key in Hin.
Qed.

Lemma cache_entry_expiry_witness :
  USE_CACHE sample_client = true
  ∧ let env := sample_env in
    let st := sample_client in
    (∀ entry path qstr r,
       url_regex_exec (url entry) = Some (path, qstr) → response entry = Some r →
       let key := cachedGetResolver path (qs_parse env qstr) (JBool false) in
       let st1 := (prefetch_entry env CACHE_INVALIDATION_INTERVAL st entry).2 in
       cache st1 !! key = Some {| promise_id := promises st; settled := inr (VMessage r) |}
       ∧ timers st1 = timers st ++ [((clock st + 30000)%Z, key)]
       ∧ (∀ t, (30000 ≤ t)%Z → cache (advance t st1) !! key = None)
       ∧ (∀ t, (t < 30000)%Z →
            (∀ x, x ∈ timers st → x.2 = key → ¬ (x.1 ≤ clock st + t)%Z) →
            cache (advance t st1) !! key = cache st1 !! key))
    ∧ (∀ token path query datapost contentType,
         authToken st = Some token →
         let key := cachedGetResolver path query datapost in
         let st1 := (memoizedExecuteRequestApi2 env st path query datapost contentType).2 in
         cache st !! key = None →
         is_Some (cache st1 !! key)
         ∧ timers st1 = timers st
         ∧ (∀ t, (∀ x, x ∈ timers st → x.2 = key → ¬ (x.1 ≤ clock st + t)%Z) →
              cache (advance t st1) !! key = cache st1 !! key)
         ∧ (∀ t x, x ∈ timers st → x.2 = key → (x.1 ≤ clock st + t)%Z →
              cache (advance t st1) !! key = None)
         ∧ (datapost = JUndefined → ingester_timers st →
            ∀ t, cache (advance t st1) !! key = cache st1 !! key)).
Proof.
  split; [reflexivity|].
  apply (cache_entry_expiry sample_env sample_client). reflexivity.
Defined.

(** C7, the claim as stated fails: the entry that a cache miss creates
    has no timer and is still in the cache after 30000 ms, and after a
    day. *)
Lemma cache_miss_entry_never_expires :
  let st1 := (getRelatedApps sample_env sample_client "com.example.app").2 in
  let key := cachedGetResolver "rec" (related_query "com.example.app") JUndefined in
  cache sample_client !! key = None
  ∧ cache st1 !! key
    = Some {| promise_id := 0;
              settled := inr (VBuffer "https://android.clients.google.com/fdfe/rec") |}
  ∧ timers st1 = []
  ∧ cache (advance 30000 st1) !! key = cache st1 !! key
  ∧ cache (advance 86400000 st1) !! key = cache st1 !! key.
Proof. vm_compute. done. Qed.

(** C3: a second prefetch entry for a fingerprint replaces the entry the
    first one stored. The cache that held the answer of [sample_purchase]
    under the fingerprint of [rec?doc=com.example.app&rt=1&c=3] holds the
    answer of [sample_related] after [sample_details] has been handled. *)
Lemma prefetch_overwrites_entry :
  let key := cachedGetResolver "rec" (related_query "com.example.app") (JBool false) in
  let first := mkResponseWrapper None
                 (Some [mkPreFetch "rec?doc=com.example.app&rt=1&c=3" (Some sample_purchase)]) in
  let st := (_tryHandlePrefetch sample_env sample_client first CACHE_INVALIDATION_INTERVAL).2 in
  let st' := (_tryHandlePrefetch sample_env st sample_details CACHE_INVALIDATION_INTERVAL).2 in
  cache st !! key = Some {| promise_id := 0; settled := inr (VMessage sample_purchase) |}
  ∧ cache st' !! key = Some {| promise_id := 1; settled := inr (VMessage sample_related) |}
  ∧ cache st' !! key ≠ cache st !! key.
Proof. vm_compute. split; [done|]. split; [done|]. discriminate. Qed.

(** C2: the fingerprint under which the ingester stores a prefetched
    answer (datapost [false]) is never the fingerprint of a GET (datapost
    absent). After the details answer with the entry for
    [rec?doc=com.example.app&rt=1&c=3] has been handled, [getRelatedApps]
    misses the cache and sends a request of its own. *)
Lemma prefetched_related_is_not_found :
  let r1 := getPackageDetails sample_env sample_client "com.example.app" in
  let r2 := getRelatedApps sample_env r1.2 "com.example.app" in
  let seeded := cachedGetResolver "rec" (qs_parse_plain "doc=com.example.app&rt=1&c=3") (JBool false) in
  let wanted := cachedGetResolver "rec" (related_query "com.example.app") JUndefined in
  cache r1.2 !! seeded = Some {| promise_id := 1; settled := inr (VMessage sample_related) |}
  ∧ seeded ≠ wanted
  ∧ cache r1.2 !! wanted = None
  ∧ req_url <$> transport_log r1.2 = ["https://android.clients.google.com/fdfe/details"]
  ∧ req_url <$> transport_log r2.2
    = ["https://android.clients.google.com/fdfe/details";
       "https://android.clients.google.com/fdfe/rec"]
  ∧ cache r2.2 !! wanted
    = Some {| promise_id := 2;
              settled := inr (VBuffer "https://android.clients.google.com/fdfe/rec") |}.
Proof. vm_compute. by repeat split. Qed.

(** The same for every path and query: the two fingerprints differ in
    their last character. *)
Lemma prefetch_key_is_no_get_key path query path' query' :
  cachedGetResolver path query (JBool false) ≠ cachedGetResolver path' query' JUndefined.
Proof.
  intros H%(f_equal last_char).
  by rewrite last_char_prefetch_key, last_char_get_key in H.
Qed.

(** ** [downloadApk] *)

(** Called with one argument, [_prepCookies] has no cookies to add, and
    the jar is not asked. *)
Lemma _prepCookies_one_argument env cookies :
  _prepCookies env (ArgCookies cookies) None = inr [].
Proof. reflexivity. Qed.

(** Every request that [downloadApk] sends has an empty jar. *)
Lemma downloadApk_jar_empty env st pkg versionCode :
  let st1 := (getDownloadInfo env st pkg versionCode).2 in
  let st2 := (downloadApk env st pkg versionCode).2 in
  download_log st2 = download_log st1
  ∨ ∃ req, download_log st2 = download_log st1 ++ [req] ∧ dl_jar req = [].
Proof.
  unfold downloadApk.
  destruct (getDownloadInfo env st pkg versionCode) as [[e|e|g] st1]; simpl; [by left..|].
  right.
  exists {| dl_url := grant_url g; dl_jar := [];
            dl_headers := [("User-Agent", DOWNLOAD_MANAGER_USER_AGENT)] |}.
  split; [|done]. by destruct (download_server env _).
Qed.

(** C6: the download request carries an empty cookie jar although the
    grant holds a cookie. *)
Lemma downloadApk_sends_empty_jar :
  let g := getDownloadInfo sample_env sample_client "com.example.app" 37 in
  let r := downloadApk sample_env sample_client "com.example.app" 37 in
  g.1 = Fulfilled {| grant_url := "https://android.clients.google.com/market/download/Download?packageName=com.example.app";
                     grant_cookies := sample_cookies |}
  ∧ sample_cookies ≠ []
  ∧ download_log r.2
    = [ {| dl_url := "https://android.clients.google.com/market/download/Download?packageName=com.example.app";
           dl_jar := [];
           dl_headers := [("User-Agent", DOWNLOAD_MANAGER_USER_AGENT)] |} ].
Proof. vm_compute. by repeat split. Qed.

(** ** The scenarios of the specification, run on the sample world *)

(** Scenario A: the auth endpoint answers [Auth=XYZ]; the session becomes
    authenticated with token [XYZ]. *)
Example login_scenario_A :
  let res := {| statusCode := 200; content_type := Some "text/plain; charset=utf-8";
                body := "SID=abc" +:+ String newline "Auth=XYZ" |} in
  let st := set_authToken None sample_client in
  login (auth_env res) st = (Fulfilled tt, set_authToken (Some "XYZ") st).
Proof. vm_compute. reflexivity. Qed.

(** Scenario B: the auth endpoint answers 403; [LoginError], and the
    session stays unauthenticated. *)
Example login_scenario_B :
  let st := set_authToken None sample_client in
  login sample_env st = (Rejected (LoginError "Error=BadAuthentication"), st).
Proof. vm_compute. reflexivity. Qed.

(** A 200 answer without the key, and one that ends in a newline. *)
Example login_without_auth :
  let res := {| statusCode := 200; content_type := Some "text/plain; charset=utf-8";
                body := "SID=abc" |} in
  let st := set_authToken None sample_client in
  login (auth_env res) st = (Rejected (Error "expected auth in server response"), st).
Proof. vm_compute. reflexivity. Qed.

Example login_trailing_newline :
  let res := {| statusCode := 200; content_type := Some "text/plain; charset=utf-8";
                body := "Auth=XYZ" +:+ String newline "" |} in
  let st := set_authToken None sample_client in
  login (auth_env res) st
  = (Rejected (AssertionError "expected list of pairs from server"), st).
Proof. vm_compute. reflexivity. Qed.

(** Scenario C: the three related apps come back in server order. *)
Example related_scenario_C :
  (getRelatedApps sample_env sample_client "com.example.app").1 = Fulfilled sample_docs.
Proof. vm_compute. reflexivity. Qed.

Example toLowerCase_code_units :
  toLowerCase "AbC-xyZ_09" = "abc-xyz_09"
  ∧ toLowerCase (String "201" "COLE") = String "233" "cole"
  ∧ toLowerCase (String "215" (String "222" (String "223" (String "255" ""))))
    = String "215" (String "254" (String "223" (String "255" ""))).
Proof. vm_compute. by repeat split. Qed.

Example responseToObj_doc :
  responseToObj ("FOO=bar" +:+ String newline "BAZ=foo")
  = inr (<["baz" := "foo"]> (<["foo" := "bar"]> ∅)).
Proof. vm_compute. reflexivity. Qed.

Example url_regex_exec_examples :
  url_regex_exec "rec?doc=com.example.app&rt=1&c=3" = Some ("rec", "doc=com.example.app&rt=1&c=3")
  ∧ url_regex_exec "a?b?c" = Some ("a?b", "c")
  ∧ url_regex_exec "details" = None
  ∧ url_regex_exec ("x" +:+ String newline "y?z") = Some ("y", "z")
  ∧ url_regex_exec "?" = Some ("", "").
Proof. vm_compute. by repeat split. Qed.

Example cachedGetResolver_example :
  cachedGetResolver "rec" (related_query "a") JUndefined
  = "rec|{" +:+ json_quote "c" +:+ ":" +:+ json_quote "3" +:+ ","
    +:+ json_quote "doc" +:+ ":" +:+ json_quote "a" +:+ ","
    +:+ json_quote "rt" +:+ ":" +:+ json_quote "1" +:+ "}|post=undefined".
Proof. vm_compute. reflexivity. Qed.

Example invalidateCache_removes_nothing (st : client) :
  (invalidateCache st).2 = st.
Proof. reflexivity. Qed.

(** * Further properties *)

(** ** Splitting and joining *)

Lemma split_not_nil sep s : split sep s ≠ [].
Proof.
  intros H%(f_equal length). rewrite length_split in H. done.
Qed.

Lemma split_plain sep s : count_char sep s = 0%nat → split sep s = [s].
Proof.
  induction s as [|c s IH]; simpl; [done|].
  destruct (Ascii.eqb c sep); [done|]. intros Hs. by rewrite IH.
Qed.

Lemma split_app_sep sep a b :
  split sep (a +:+ String sep b) = split sep a ++ split sep b.
Proof.
  induction a as [|c a IH].
  - rewrite string_app_nil_l. simpl. by rewrite Ascii.eqb_refl.
  - rewrite string_app_cons. simpl. rewrite IH.
    destruct (Ascii.eqb c sep); [done|].
    pose proof (split_not_nil sep a). by destruct (split sep a).
Qed.

Lemma split_pieces_free sep s x : x ∈ split sep s → count_char sep x = 0%nat.
Proof.
  revert x. induction s as [|c s IH]; intros x; simpl.
  - by intros ->%list_elem_of_singleton.
  - destruct (Ascii.eqb c sep) eqn:Hc.
    + intros [->|?]%elem_of_cons; [done|by apply IH].
    + pose proof (split_not_nil sep s).
      destruct (split sep s) as [|w ws]; [done|].
      intros [->|?]%elem_of_cons.
      * simpl. rewrite Hc. apply IH. apply list_elem_of_here.
      * apply IH. by apply list_elem_of_further.
Qed.

Lemma split_pieces_count sep c s x :
  x ∈ split sep s → (count_char c x ≤ count_char c s)%nat.
Proof.
  revert x. induction s as [|d s IH]; intros x; simpl.
  - intros ->%list_elem_of_singleton. done.
  - destruct (Ascii.eqb d sep) eqn:Hd.
    + intros [->|?]%elem_of_cons; simpl; [lia|]. etrans; [by apply IH|]. lia.
    + pose proof (split_not_nil sep s).
      destruct (split sep s) as [|w ws]; [done|].
      intros [->|?]%elem_of_cons.
      * simpl. pose proof (IH w (list_elem_of_here _ _)). lia.
      * etrans; [apply IH; by apply list_elem_of_further|]. lia.
Qed.

Lemma concat_split sep s : String.concat (String sep "") (split sep s) = s.
Proof.
  induction s as [|c s IH]; simpl; [done|].
  pose proof (split_not_nil sep s) as Hne.
  destruct (Ascii.eqb_spec c sep) as [->|Hc].
  - destruct (split sep s) as [|w ws] eqn:Hs; [done|].
    change (String.concat (String sep "") ("" :: w :: ws))
      with ("" +:+ String sep "" +:+ String.concat (String sep "") (w :: ws)).
    by rewrite IH.
  - destruct (split sep s) as [|w ws] eqn:Hs; [done|].
    destruct ws as [|w' ws].
    + simpl in *. by rewrite IH.
    + change (String.concat (String sep "") (String c w :: w' :: ws))
        with (String c w +:+ String sep "" +:+ String.concat (String sep "") (w' :: ws)).
      change (String.concat (String sep "") (w :: w' :: ws))
        with (w +:+ String sep "" +:+ String.concat (String sep "") (w' :: ws)) in IH.
      by rewrite string_app_cons, IH.
Qed.

Lemma split_concat sep (ls : list string) :
  ls ≠ [] → Forall (fun l => count_char sep l = 0%nat) ls →
  split sep (String.concat (String sep "") ls) = ls.
Proof.
  induction ls as [|l ls IH]; [done|]. intros _ Hall.
  apply Forall_cons in Hall as [Hl Hall].
  destruct ls as [|l' ls]; [by apply split_plain|].
  change (String.concat (String sep "") (l :: l' :: ls))
    with (l +:+ String sep "" +:+ String.concat (String sep "") (l' :: ls)).
  change (String sep "" +:+ ?x) with (String sep x).
  rewrite split_app_sep, split_plain, IH by done. done.
Qed.

Lemma split_trailing sep s : "" ∈ split sep (s +:+ String sep "").
Proof.
  rewrite split_app_sep. apply elem_of_app. right. simpl. apply list_elem_of_here.
Qed.

(** ** [responseToObj], continued *)

Lemma lower_unit_idemp c : lower_unit (lower_unit c) = lower_unit c.
Proof. destruct c as [[] [] [] [] [] [] [] []]; reflexivity. Qed.

Lemma toLowerCase_idemp s : toLowerCase (toLowerCase s) = toLowerCase s.
Proof. induction s as [|c s IH]; simpl; [done|]. by rewrite lower_unit_idemp, IH. Qed.

Lemma count_char_toLowerCase c s :
  lower_unit c = c → (∀ d, lower_unit d = c → d = c) →
  count_char c (toLowerCase s) = count_char c s.
Proof.
  intros Hc Hinj. induction s as [|d s IH]; simpl; [done|]. rewrite IH. f_equal.
  destruct (Ascii.eqb_spec (lower_unit d) c) as [Hd|Hd], (Ascii.eqb_spec d c) as [He|He];
    try done.
  - by apply Hinj in Hd.
  - subst d. done.
Qed.

Lemma last_value_Some k ls v :
  last_value k ls = Some v → ∃ line, line ∈ ls ∧ line_pair line = Some (k, v).
Proof.
  induction ls as [|l ls IH]; simpl; [done|].
  destruct (last_value k ls) as [v'|].
  - intros [= ->]. destruct IH as (line & ? & ?); [done|].
    exists line. split; [by apply list_elem_of_further|done].
  - destruct (line_pair l) as [[k' v']|] eqn:Hp; [|done].
    case_decide; [|done]. intros [= ->]. subst k'.
    exists l. split; [apply list_elem_of_here|done].
Qed.

Lemma line_pair_split line k v :
  line_pair line = Some (k, v) → ∃ key, split "=" line = [key; v] ∧ k = toLowerCase key.
Proof.
  unfold line_pair. destruct (split "=" line) as [|key [|val [|? ?]]]; try done.
  intros [= <- <-]. eauto.
Qed.

Lemma lower_unit_equals d : lower_unit d = "="%char → d = "="%char.
Proof. destruct d as [[] [] [] [] [] [] [] []]; simpl; intros H; by inversion H. Qed.

Lemma lower_unit_newline d : lower_unit d = newline → d = newline.
Proof. destruct d as [[] [] [] [] [] [] [] []]; simpl; intros H; by inversion H. Qed.

Lemma plain_pair_line kv :
  plain kv.1 → plain kv.2 →
  split "=" (pair_line kv) = [kv.1; kv.2] ∧ count_char newline (pair_line kv) = 0%nat.
Proof.
  intros [Hk1 Hk2] [Hv1 Hv2]. unfold pair_line. split.
  - change ("=" +:+ kv.2) with (String "=" kv.2).
    by rewrite split_app_sep, !split_plain.
  - rewrite !count_char_app, Hk2, Hv2. done.
Qed.

Lemma reduce_pair_lines l acc :
  Forall (fun kv => plain kv.1 ∧ plain kv.2) l →
  reduce responseToObj_step (pair_line <$> l) acc
  = inr (foldl (fun m kv => <[toLowerCase kv.1 := kv.2]> m) acc
           (filter (fun kv => toLowerCase kv.1 ≠ "__proto__") l)).
Proof.
  revert acc. induction l as [|kv l IH]; intros acc Hall; [done|].
  apply Forall_cons in Hall as [[Hk Hv] Hall]. simpl.
  unfold responseToObj_step at 1.
  destruct (plain_pair_line kv Hk Hv) as [-> _]. simpl.
  unfold is_proto. case_bool_decide.
  - rewrite filter_cons_False by naive_solver. by apply IH.
  - rewrite filter_cons_True by done. by apply IH.
Qed.

Lemma foldl_insert_list_to_map (l : list (string * string)) :
  NoDup l.*1 →
  foldl (fun m kv => <[kv.1 := kv.2]> m) (∅ : gmap string string) l = list_to_map l.
Proof.
  induction l as [|[k v] l IH] using rev_ind; [done|].
  rewrite fmap_app. intros [Hnd [Hdis _]]%NoDup_app.
  rewrite foldl_snoc, IH by done. simpl.
  rewrite list_to_map_snoc; [done|].
  intros Hin. apply (Hdis _ Hin). simpl. apply list_elem_of_here.
Qed.

(** X1. Writing a non-empty list of pairs of Latin-1 text as [KEY=value]
    lines and parsing the text gives back, with lower-cased keys and a
    later pair overriding an earlier one, the pairs whose key does not
    lower-case to [__proto__], as long as no key and no value holds an
    equals sign or a newline; with lower-case keys other than [__proto__],
    each occurring once, the result is exactly the map of the pairs. *)
Theorem responseToObj_pairs_text (l : list (string * string)) :
  l ≠ [] → Forall (fun kv => plain kv.1 ∧ plain kv.2) l →
  responseToObj (pairs_text l)
    = inr (foldl (fun m kv => <[toLowerCase kv.1 := kv.2]> m) ∅
             (filter (fun kv => toLowerCase kv.1 ≠ "__proto__") l))
  ∧ (Forall (fun kv => toLowerCase kv.1 = kv.1) l → NoDup l.*1 →
     "__proto__" ∉ l.*1 →
     responseToObj (pairs_text l) = inr (list_to_map l)).
Proof.
  intros Hne Hall.
  assert (responseToObj (pairs_text l)
          = inr (foldl (fun m kv => <[toLowerCase kv.1 := kv.2]> m) ∅
                   (filter (fun kv => toLowerCase kv.1 ≠ "__proto__") l))) as Hr.
  { unfold responseToObj, pairs_text, newline.
    rewrite split_concat.
    - by apply reduce_pair_lines.
    - by destruct l.
    - apply Forall_fmap. eapply Forall_impl; [exact Hall|].
      intros kv [Hk Hv]. by apply plain_pair_line. }
  split; [done|]. intros Hlow Hnd Hproto. rewrite Hr. f_equal.
  rewrite <-foldl_insert_list_to_map by done.
  clear Hr Hne Hall Hnd. generalize (∅ : gmap string string).
  induction l as [|kv l IH]; intros m; [done|].
  apply Forall_cons in Hlow as [Hk Hlow].
  rewrite fmap_cons in Hproto. apply not_elem_of_cons in Hproto as [Hkv Hproto].
  rewrite filter_cons_True by (by rewrite Hk). simpl. rewrite Hk. by apply IH.
Qed.

Lemma responseToObj_pairs_text_witness :
  let l := [("SID", "abc"); ("__PROTO__", "x"); ("Auth", "XYZ")] in
  l ≠ [] ∧ Forall (fun kv => plain kv.1 ∧ plain kv.2) l
  ∧ responseToObj (pairs_text l)
      = inr (foldl (fun m kv => <[toLowerCase kv.1 := kv.2]> m) ∅
               (filter (fun kv => toLowerCase kv.1 ≠ "__proto__") l))
  ∧ (Forall (fun kv => toLowerCase kv.1 = kv.1) l → NoDup l.*1 →
     "__proto__" ∉ l.*1 →
     responseToObj (pairs_text l) = inr (list_to_map l)).
Proof.
  assert (Forall (fun kv : string * string => plain kv.1 ∧ plain kv.2)
            [("SID", "abc"); ("__PROTO__", "x"); ("Auth", "XYZ")]) as Hall.
  { repeat constructor. }
  split; [discriminate|]. split; [exact Hall|].
  apply (responseToObj_pairs_text [("SID", "abc"); ("__PROTO__", "x"); ("Auth", "XYZ")]);
    [discriminate|exact Hall].
Defined.

(** X2. In the object parsed from Latin-1 text no property is named
    [__proto__], every key is lower-case, no key and no value holds an
    equals sign or a newline, and every entry stems from a line
    [KEY=value] of the input whose key lower-cases to the entry's key. *)
Theorem responseToObj_entries (lines : string) (obj : gmap string string)
    (k v : string) :
  responseToObj lines = inr obj → obj !! k = Some v →
  k ≠ "__proto__" ∧ toLowerCase k = k ∧ plain k ∧ plain v
  ∧ ∃ key, (key +:+ "=" +:+ v) ∈ split newline lines ∧ toLowerCase key = k.
Proof.
  intros Hobj Hk. unfold responseToObj in Hobj.
  assert (k ≠ "__proto__") as Hproto.
  { intros ->. by rewrite (reduce_responseToObj_proto _ _ _ Hobj), lookup_empty in Hk. }
  split; [done|].
  rewrite (reduce_responseToObj_lookup _ _ _ k Hobj Hproto), lookup_empty in Hk.
  destruct (last_value k (split newline lines)) as [v'|] eqn:Hl; [|done].
  injection Hk as ->.
  apply last_value_Some in Hl as (line & Hin & Hp).
  apply line_pair_split in Hp as (key & Hs & ->).
  assert (line = key +:+ "=" +:+ v) as Hline.
  { rewrite <-(concat_split "=" line), Hs. done. }
  assert (key ∈ split "=" line ∧ v ∈ split "=" line) as [Hkey Hv].
  { rewrite Hs. split; [apply list_elem_of_here|apply list_elem_of_further, list_elem_of_here]. }
  pose proof (split_pieces_free _ _ _ Hin) as Hnl.
  split; [apply toLowerCase_idemp|]. split; [|split].
  - split.
    + rewrite count_char_toLowerCase; [by eapply split_pieces_free|done|apply lower_unit_equals].
    + rewrite count_char_toLowerCase; [|done|apply lower_unit_newline].
      pose proof (split_pieces_count "=" newline _ _ Hkey). lia.
  - split; [by eapply split_pieces_free|].
    pose proof (split_pieces_count "=" newline _ _ Hv). lia.
  - exists key. by rewrite <-Hline.
Qed.

Lemma responseToObj_entries_witness :
  responseToObj ("SID=abc" +:+ String newline "Auth=XYZ")
    = inr (<["auth" := "XYZ"]> (<["sid" := "abc"]> ∅))
  ∧ (<["auth" := "XYZ"]> (<["sid" := "abc"]> (∅ : gmap string string))) !! "auth" = Some "XYZ"
  ∧ "auth" ≠ "__proto__" ∧ toLowerCase "auth" = "auth" ∧ plain "auth" ∧ plain "XYZ"
  ∧ ∃ key, (key +:+ "=" +:+ "XYZ") ∈ split newline ("SID=abc" +:+ String newline "Auth=XYZ")
           ∧ toLowerCase key = "auth".
Proof.
  assert (responseToObj ("SID=abc" +:+ String newline "Auth=XYZ")
          = inr (<["auth" := "XYZ"]> (<["sid" := "abc"]> ∅))) as H1.
  { vm_compute. reflexivity. }
  assert ((<["auth" := "XYZ"]> (<["sid" := "abc"]> (∅ : gmap string string))) !! "auth"
          = Some "XYZ") as H2.
  { vm_compute. reflexivity. }
  split; [exact H1|]. split; [exact H2|].
  exact (responseToObj_entries _ _ "auth" "XYZ" H1 H2).
Defined.

(** ** [login], continued *)

Lemma login_fulfilled env st st' :
  login env st = (Fulfilled tt, st') →
  ∃ res auth,
    auth_server env {| login_url := URL_LOGIN; login_form := login_body st |} = NetOk res
    ∧ login_callback res = inr auth ∧ st' = set_authToken (Some auth) st.
Proof.
  unfold login. destruct (_ && _); [done|].
  destruct (auth_server env _) as [e|res]; [done|].
  destruct (login_callback res) as [e|auth] eqn:Hcb; [done|].
  intros [= <-]. eauto.
Qed.

(** X3. A 200 answer of the auth endpoint whose body has an empty line
    makes [login] fail with the assertion error of [responseToObj], and
    leaves the client as it was; a body that ends in a newline has such a
    line, whatever comes before. *)
Theorem login_empty_line (env : Env) (st : client) (res : http_response) :
  is_undefined (username st) = false →
  is_undefined (password st) = false →
  auth_server env {| login_url := URL_LOGIN; login_form := login_body st |} = NetOk res →
  statusCode res = 200%Z →
  content_type res = Some "text/plain; charset=utf-8" →
  "" ∈ split newline (body res) →
  login env st = (Rejected (AssertionError "expected list of pairs from server"), st)
  ∧ ∀ s, "" ∈ split newline (s +:+ String newline "").
Proof.
  intros Hu Hp Hres Hs Hct Hempty. split; [|intros s; apply split_trailing].
  unfold login. rewrite Hu, Hp, Hres. simpl.
  rewrite login_callback_200 by done. unfold assert.
  rewrite bool_decide_eq_true_2 by done. simpl.
  unfold responseToObj. by rewrite (reduce_responseToObj_bad _ _ "" Hempty).
Qed.

Lemma login_empty_line_witness :
  let res := {| statusCode := 200; content_type := Some "text/plain; charset=utf-8";
                body := "Auth=XYZ" +:+ String newline "" |} in
  let env := auth_env res in
  let st := set_authToken None sample_client in
  is_undefined (username st) = false
  ∧ is_undefined (password st) = false
  ∧ auth_server env {| login_url := URL_LOGIN; login_form := login_body st |} = NetOk res
  ∧ statusCode res = 200%Z
  ∧ content_type res = Some "text/plain; charset=utf-8"
  ∧ "" ∈ split newline (body res)
  ∧ login env st = (Rejected (AssertionError "expected list of pairs from server"), st)
  ∧ ∀ s, "" ∈ split newline (s +:+ String newline "").
Proof.
  assert ("" ∈ split newline ("Auth=XYZ" +:+ String newline "")) as Hempty.
  { apply list_elem_of_further, list_elem_of_here. }
  repeat (split; [reflexivity|]). split; [exact Hempty|].
  apply (login_empty_line
           (auth_env {| statusCode := 200; content_type := Some "text/plain; charset=utf-8";
                        body := "Auth=XYZ" +:+ String newline "" |})
           (set_authToken None sample_client)
           {| statusCode := 200; content_type := Some "text/plain; charset=utf-8";
              body := "Auth=XYZ" +:+ String newline "" |});
    [reflexivity..|exact Hempty].
Defined.

(** ** Calls and the Transport *)

Lemma executeRequestApi_uncached env st token path query datapost contentType :
  USE_CACHE st = false → authToken st = Some token →
  let st1 := (executeRequestApi env st path query datapost contentType).2 in
  USE_CACHE st1 = false ∧ authToken st1 = Some token
  ∧ cache st1 = cache st ∧ timers st1 = timers st
  ∧ transport_log st1
    = transport_log st ++ [sent_request st token path query datapost contentType].
Proof.
  intros Hc Ht. unfold executeRequestApi, memoizedExecuteRequestApi2.
  rewrite Hc, (_executeRequestApi2_sends env st token) by done.
  destruct (settled _) as [e|b]; simpl; [done|].
  destruct (_toResponseWrapper env b) as [e|[m|]]; simpl; [done| |done].
  by rewrite Hc.
Qed.

Lemma executeRequestApi_sends env st token path query datapost contentType :
  authToken st = Some token →
  USE_CACHE st = false ∨ cache st !! cachedGetResolver path query datapost = None →
  transport_log (executeRequestApi env st path query datapost contentType).2
  = transport_log st ++ [sent_request st token path query datapost contentType].
Proof.
  intros Ht Hk. destruct (USE_CACHE st) eqn:Hc.
  - destruct Hk as [?|Hk]; [done|].
    by destruct (executeRequestApi_miss env st token path query datapost contentType
                   Hc Ht Hk) as (_ & _ & ? & _).
  - by destruct (executeRequestApi_uncached env st token path query datapost contentType
                   Hc Ht) as (_ & _ & _ & _ & ?).
Qed.

Lemma executeRequestApi_no_token env st path query datapost contentType :
  authToken st = None →
  USE_CACHE st = false ∨ cache st !! cachedGetResolver path query datapost = None →
  executeRequestApi env st path query datapost contentType
  = (Throws (AssertionError "need auth token"), st).
Proof.
  intros Ht Hk. unfold executeRequestApi, memoizedExecuteRequestApi2, _executeRequestApi2.
  rewrite Ht. destruct (USE_CACHE st); [|done].
  destruct Hk as [?|Hk]; [done|]. by rewrite Hk.
Qed.

(** X4. Before a login, with nothing cached, every operation throws the
    assertion error 'need auth token' at once: nothing is sent, nothing is
    stored, and the client is left as it was. The throw is not memoized:
    once a login has succeeded, the same call goes to the Transport. *)
Theorem unauthenticated_operations (env : Env) (st : client) :
  authToken st = None → cache st = ∅ →
  (∀ path query datapost contentType,
     executeRequestApi env st path query datapost contentType
     = (Throws (AssertionError "need auth token"), st))
  ∧ (∀ pkg, getPackageDetails env st pkg = (Throws (AssertionError "need auth token"), st))
  ∧ (∀ pkg, getRelatedApps env st pkg = (Throws (AssertionError "need auth token"), st))
  ∧ (∀ pkg versionCode,
       getDownloadInfo env st pkg versionCode
       = (Throws (AssertionError "need auth token"), st))
  ∧ (∀ pkg versionCode,
       downloadApk env st pkg versionCode
       = (Throws (AssertionError "need auth token"), st))
  ∧ (∀ st' path query datapost contentType,
       login env st = (Fulfilled tt, st') →
       ∃ auth,
         authToken st' = Some auth
         ∧ transport_log (executeRequestApi env st' path query datapost contentType).2
           = transport_log st ++ [sent_request st' auth path query datapost contentType]).
Proof.
  intros Ht Hc.
  assert (∀ path query datapost contentType,
     executeRequestApi env st path query datapost contentType
     = (Throws (AssertionError "need auth token"), st)) as Hex.
  { intros. apply executeRequestApi_no_token; [done|]. right. by rewrite Hc. }
  split; [done|]. split; [|split; [|split; [|split]]].
  - intros pkg. unfold getPackageDetails. by rewrite Hex.
  - intros pkg. unfold getRelatedApps. by rewrite Hex.
  - intros pkg versionCode. unfold getDownloadInfo. by rewrite Hex.
  - intros pkg versionCode. unfold downloadApk, getDownloadInfo. by rewrite Hex.
  - intros st' path query datapost contentType (res & auth & _ & _ & ->)%login_fulfilled.
    exists auth. split; [done|].
    rewrite (executeRequestApi_sends env _ auth); [done..|].
    right. simpl. by rewrite Hc.
Qed.

Lemma unauthenticated_operations_witness :
  let env := auth_env auth_ok in
  let st := set_authToken None sample_client in
  authToken st = None ∧ cache st = ∅
  ∧ (∀ path query datapost contentType,
       executeRequestApi env st path query datapost contentType
       = (Throws (AssertionError "need auth token"), st))
  ∧ (∀ pkg, getPackageDetails env st pkg = (Throws (AssertionError "need auth token"), st))
  ∧ (∀ pkg, getRelatedApps env st pkg = (Throws (AssertionError "need auth token"), st))
  ∧ (∀ pkg versionCode,
       getDownloadInfo env st pkg versionCode
       = (Throws (AssertionError "need auth token"), st))
  ∧ (∀ pkg versionCode,
       downloadApk env st pkg versionCode
       = (Throws (AssertionError "need auth token"), st))
  ∧ (∀ st' path query datapost contentType,
       login env st = (Fulfilled tt, st') →
       ∃ auth,
         authToken st' = Some auth
         ∧ transport_log (executeRequestApi env st' path query datapost contentType).2
           = transport_log st ++ [sent_request st' auth path query datapost contentType]).
Proof.
  split; [reflexivity|]. split; [reflexivity|].
  apply (unauthenticated_operations (auth_env auth_ok) (set_authToken None sample_client));
    reflexivity.
Defined.

(** X5. With caching disabled and a token, every call sends exactly one
    request, whatever was asked before; the cache stays as it was, no timer
    is set, and a cache that was empty lists no key afterwards. *)
Theorem uncached_client (env : Env) (st : client) (token : string) :
  USE_CACHE st = false → authToken st = Some token →
  ∀ path query datapost contentType,
    let st1 := (executeRequestApi env st path query datapost contentType).2 in
    transport_log st1
      = transport_log st ++ [sent_request st token path query datapost contentType]
    ∧ cache st1 = cache st ∧ timers st1 = timers st
    ∧ USE_CACHE st1 = false ∧ authToken st1 = Some token
    ∧ (cache st = ∅ → cachedKeys st1 = []).
Proof.
  intros Hc Ht path query datapost contentType st1.
  destruct (executeRequestApi_uncached env st token path query datapost contentType Hc Ht)
    as (Hc1 & Ht1 & Hca & Hti & Hl).
  fold st1 in Hc1, Ht1, Hca, Hti, Hl.
  repeat split; try done.
  intros Hempty. unfold cachedKeys. by rewrite Hca, Hempty, map_to_list_empty.
Qed.

Lemma uncached_client_witness :
  let st0 := sample_client_uncached in
  USE_CACHE st0 = false ∧ authToken st0 = Some "XYZ"
  ∧ ∀ path query datapost contentType,
      let st1 := (executeRequestApi sample_env st0 path query datapost contentType).2 in
      transport_log st1
        = transport_log st0 ++ [sent_request st0 "XYZ" path query datapost contentType]
      ∧ cache st1 = cache st0 ∧ timers st1 = timers st0
      ∧ USE_CACHE st1 = false ∧ authToken st1 = Some "XYZ"
      ∧ (cache st0 = ∅ → cachedKeys st1 = []).
Proof.
  split; [reflexivity|]. split; [reflexivity|].
  apply (uncached_client sample_env sample_client_uncached "XYZ"); reflexivity.
Defined.

(** ** Repeated calls *)

Lemma executeRequestApi_respond env st path query datapost contentType :
  executeRequestApi env st path query datapost contentType
  = match memoizedExecuteRequestApi2 env st path query datapost contentType with
    | (inl e, st1) => (Throws e, st1)
    | (inr p, st1) => respond env st1 p
    end.
Proof. reflexivity. Qed.

Lemma prefetch_entry_result env ttl st st' entry :
  USE_CACHE st = USE_CACHE st' →
  (prefetch_entry env ttl st entry).1 = (prefetch_entry env ttl st' entry).1.
Proof.
  intros Hc. unfold prefetch_entry. rewrite Hc.
  destruct (url_regex_exec (url entry)) as [[path qstr]|]; [|done].
  destruct (USE_CACHE st'); [|done]. simpl.
  destruct (response entry); [|done].
  rewrite memoized_property_fingerprint. by destruct (ttl =? 0)%Z.
Qed.

Lemma prefetch_entries_result env ttl st st' entries :
  USE_CACHE st = USE_CACHE st' →
  (prefetch_entries env ttl st entries).1 = (prefetch_entries env ttl st' entries).1.
Proof.
  revert st st'. induction entries as [|entry rest IH]; intros st st' Hc; [done|].
  simpl. pose proof (prefetch_entry_result env ttl st st' entry Hc) as Hr.
  destruct (prefetch_entry_frame env ttl st entry) as (Hc1 & _).
  destruct (prefetch_entry_frame env ttl st' entry) as (Hc2 & _).
  destruct (prefetch_entry env ttl st entry) as [[e|[]] st1],
    (prefetch_entry env ttl st' entry) as [[e'|[]] st1']; simplify_eq/=; [done|].
  apply IH. congruence.
Qed.

Lemma respond_result env st st' p :
  USE_CACHE st = USE_CACHE st' → (respond env st p).1 = (respond env st' p).1.
Proof.
  intros Hc. unfold respond. rewrite Hc.
  destruct (settled p) as [e|body]; [done|].
  destruct (_toResponseWrapper env body) as [e|[message|]]; [done| |done].
  destruct (USE_CACHE st') eqn:Hc'; [|done].
  assert ((_tryHandlePrefetch env st message CACHE_INVALIDATION_INTERVAL).1
          = (_tryHandlePrefetch env st' message CACHE_INVALIDATION_INTERVAL).1) as Hr.
  { unfold _tryHandlePrefetch. destruct (preFetch message); [|done].
    apply prefetch_entries_result. congruence. }
  destruct (_tryHandlePrefetch env st message CACHE_INVALIDATION_INTERVAL) as [[e|[]] st2],
    (_tryHandlePrefetch env st' message CACHE_INVALIDATION_INTERVAL) as [[e'|[]] st2'];
    by simplify_eq/=.
Qed.

(** X6. With caching enabled, a GET that is asked again, with the query
    members in any order, sends nothing to the Transport and settles as
    the first one did; the first one sent exactly one request when its
    fingerprint was not cached. *)
Theorem repeated_get_is_answered_from_cache (env : Env) (st : client) (token path : string)
    (q q' : list (string * qval)) (ct ct' : jsval) :
  USE_CACHE st = true → authToken st = Some token → NoDup q.*1 → q ≡ₚ q' →
  let r1 := executeRequestApi env st path q JUndefined ct in
  let r2 := executeRequestApi env r1.2 path q' JUndefined ct' in
  r2.1 = r1.1
  ∧ transport_log r2.2 = transport_log r1.2
  ∧ (cache st !! cachedGetResolver path q JUndefined = None →
     transport_log r1.2
     = transport_log st ++ [sent_request st token path q JUndefined ct]).
Proof.
  intros Hc Ht Hnd Hperm r1 r2.
  set (key := cachedGetResolver path q JUndefined).
  assert (¬ prefetch_key key) as Hkey.
  { unfold prefetch_key, key. by rewrite last_char_get_key. }
  assert (∃ p stm, memoizedExecuteRequestApi2 env st path q JUndefined ct = (inr p, stm)
                   ∧ USE_CACHE stm = true ∧ cache stm !! key = Some p) as (p & stm & Hm & Hcm & Hpm).
  { destruct (cache st !! key) as [p|] eqn:Hk.
    - exists p, st. by rewrite (memoized_hit env st path q JUndefined ct p).
    - eexists _, _. rewrite (memoized_miss env st token) by done.
      split; [done|]. simpl. split; [done|]. apply lookup_insert_eq. }
  pose proof (executeRequestApi_frame env st path q JUndefined ct) as Hf.
  rewrite Hm in Hf. simpl in Hf. fold r1 in Hf.
  destruct Hf as (Hc1 & _ & _ & _ & _ & Hk1 & _).
  assert (r1 = respond env stm p) as Hr1.
  { subst r1. by rewrite executeRequestApi_respond, Hm. }
  assert (cache r1.2 !! cachedGetResolver path q' JUndefined = Some p) as Hp1.
  { rewrite <-(cachedGetResolver_Permutation path q q' JUndefined) by done.
    fold key. by rewrite Hk1. }
  assert (USE_CACHE r1.2 = true) as Hc1' by congruence.
  assert (r2 = respond env r1.2 p) as Hr2.
  { subst r2. rewrite executeRequestApi_respond.
    by rewrite (memoized_hit env r1.2 path q' JUndefined ct' p). }
  split; [|split].
  - rewrite Hr2. rewrite Hr1 at 2. apply respond_result. congruence.
  - pose proof (executeRequestApi_frame env r1.2 path q' JUndefined ct') as Hf.
    fold r2 in Hf.
    rewrite (memoized_hit env r1.2 path q' JUndefined ct' p) in Hf by done.
    by destruct Hf as (_ & _ & ? & _).
  - intros Hk. subst r1. by apply executeRequestApi_sends; [|right].
Qed.

Lemma repeated_get_is_answered_from_cache_witness :
  let env := sample_env in
  let st := sample_client in
  let q := related_query "com.example.app" in
  let q' := [("c", QStr "3"); ("rt", QStr "1"); ("doc", QStr "com.example.app")] in
  USE_CACHE st = true ∧ authToken st = Some "XYZ" ∧ NoDup q.*1 ∧ q ≡ₚ q'
  ∧ let r1 := executeRequestApi env st "rec" q JUndefined JUndefined in
    let r2 := executeRequestApi env r1.2 "rec" q' JUndefined JUndefined in
    r2.1 = r1.1
    ∧ transport_log r2.2 = transport_log r1.2
    ∧ (cache st !! cachedGetResolver "rec" q JUndefined = None →
       transport_log r1.2
       = transport_log st ++ [sent_request st "XYZ" "rec" q JUndefined JUndefined]).
Proof.
  assert (NoDup (related_query "com.example.app").*1) as Hnd.
  { apply (bool_decide_unpack (NoDup (related_query "com.example.app").*1)).
    vm_compute. exact I. }
  assert (related_query "com.example.app"
          ≡ₚ [("c", QStr "3"); ("rt", QStr "1"); ("doc", QStr "com.example.app")]) as Hp.
  { unfold related_query. etrans; [apply perm_swap|].
    etrans; [apply perm_skip, perm_swap|]. apply perm_swap. }
  split; [reflexivity|]. split; [reflexivity|]. split; [exact Hnd|]. split; [exact Hp|].
  apply (repeated_get_is_answered_from_cache sample_env sample_client "XYZ" "rec"
           (related_query "com.example.app")
           [("c", QStr "3"); ("rt", QStr "1"); ("doc", QStr "com.example.app")]
           JUndefined JUndefined); [reflexivity|reflexivity|exact Hnd|exact Hp].
Defined.

(** ** The request and its fingerprint *)

(** X7. A [datapost] that is falsy but not absent ([null], [false], [0] or
    the empty string) sends the very GET that a call without [datapost]
    sends, yet it has another fingerprint: with caching enabled the
    answer cached for the one does not serve the other, and the same GET
    is sent again. *)
Theorem falsy_datapost_is_a_get_of_its_own (env : Env) (st : client) (token path : string)
    (query : list (string * qval)) (datapost contentType : jsval) :
  truthy datapost = false → datapost ≠ JUndefined →
  sent_request st token path query datapost contentType
    = sent_request st token path query JUndefined contentType
  ∧ req_method (sent_request st token path query datapost contentType) = GET
  ∧ cachedGetResolver path query datapost ≠ cachedGetResolver path query JUndefined
  ∧ (authToken st = Some token →
     cache st !! cachedGetResolver path query datapost = None →
     transport_log (executeRequestApi env st path query datapost contentType).2
     = transport_log st ++ [sent_request st token path query JUndefined contentType]).
Proof.
  intros Hf Hd.
  assert (sent_request st token path query datapost contentType
          = sent_request st token path query JUndefined contentType) as Hreq.
  { unfold sent_request, handleRequest. by rewrite Hf. }
  split; [done|]. split; [by rewrite Hreq|]. split.
  - intros [_ Hs]%cachedGetResolver_inv.
    destruct datapost as [| |[]|n|s]; simplify_eq/=.
    destruct (Z.eqb_spec n 0); [|done]. by subst n.
  - intros Ht Hk. rewrite <-Hreq. apply executeRequestApi_sends; [done|by right].
Qed.

Lemma falsy_datapost_is_a_get_of_its_own_witness :
  let st := sample_client in
  let q := related_query "com.example.app" in
  truthy (JStr "") = false ∧ JStr "" ≠ JUndefined
  ∧ sent_request st "XYZ" "rec" q (JStr "") JUndefined
      = sent_request st "XYZ" "rec" q JUndefined JUndefined
  ∧ req_method (sent_request st "XYZ" "rec" q (JStr "") JUndefined) = GET
  ∧ cachedGetResolver "rec" q (JStr "") ≠ cachedGetResolver "rec" q JUndefined
  ∧ (authToken st = Some "XYZ" →
     cache st !! cachedGetResolver "rec" q (JStr "") = None →
     transport_log (executeRequestApi sample_env st "rec" q (JStr "") JUndefined).2
     = transport_log st ++ [sent_request st "XYZ" "rec" q JUndefined JUndefined]).
Proof.
  split; [reflexivity|]. split; [discriminate|].
  apply (falsy_datapost_is_a_get_of_its_own sample_env sample_client "XYZ" "rec"
           (related_query "com.example.app") (JStr "") JUndefined);
    [reflexivity|discriminate].
Defined.

(** ** What a call makes of the answer of the host *)

Lemma executeRequestApi_first_call env st token path query datapost contentType :
  authToken st = Some token →
  USE_CACHE st = false ∨ cache st !! cachedGetResolver path query datapost = None →
  ∃ st1,
    executeRequestApi env st path query datapost contentType
    = respond env st1
        (transport_promise env st
           (sent_request st token path query datapost contentType))
    ∧ USE_CACHE st1 = USE_CACHE st.
Proof.
  intros Ht Hk. rewrite executeRequestApi_respond.
  destruct (USE_CACHE st) eqn:Hc.
  - destruct Hk as [?|Hk]; [done|].
    rewrite (memoized_miss env st token) by done. eauto.
  - unfold memoizedExecuteRequestApi2.
    rewrite Hc, (_executeRequestApi2_sends env st token) by done. eauto.
Qed.

(** X8. A call that reaches the Transport settles by the answer of the
    host: a failed connection rejects with its error, a status other than
    200 rejects with the [RequestError] that carries the body, a 200
    answer that is not [application/x-gzip] rejects with an assertion
    error, and a body that the codec refuses, or decodes to nothing,
    rejects as well; nothing is retried. *)
Theorem transport_answers (env : Env) (st : client) (token path : string)
    (query : list (string * qval)) (datapost contentType : jsval) :
  authToken st = Some token →
  USE_CACHE st = false ∨ cache st !! cachedGetResolver path query datapost = None →
  let req := sent_request st token path query datapost contentType in
  let answer := api_server env (length (transport_log st)) req in
  let r := executeRequestApi env st path query datapost contentType in
  transport_log r.2 = transport_log st ++ [req]
  ∧ (∀ e, answer = NetFail e → r.1 = Rejected e)
  ∧ (∀ res, answer = NetOk res → statusCode res ≠ 200%Z →
       r.1 = Rejected (RequestError (body res)))
  ∧ (∀ res, answer = NetOk res → statusCode res = 200%Z →
       content_type res ≠ Some "application/x-gzip" →
       r.1 = Rejected (AssertionError "not application/x-gzip response"))
  ∧ (∀ res e, answer = NetOk res → statusCode res = 200%Z →
       content_type res = Some "application/x-gzip" →
       ResponseWrapper_parse env (VBuffer (body res)) = inl e →
       r.1 = Rejected e)
  ∧ (∀ res, answer = NetOk res → statusCode res = 200%Z →
       content_type res = Some "application/x-gzip" →
       ResponseWrapper_parse env (VBuffer (body res)) = inr None →
       r.1 = Rejected (AssertionError "empty response")).
Proof.
  intros Ht Hk req answer r.
  destruct (executeRequestApi_first_call env st token path query datapost contentType Ht Hk)
    as (st1 & Hr & _).
  fold req in Hr. fold r in Hr.
  split; [by apply executeRequestApi_sends|].
  rewrite Hr. unfold respond, transport_promise. simpl. fold answer.
  split; [|split; [|split; [|split]]].
  - by intros e ->.
  - intros res -> Hs. unfold api_callback. by destruct (Z.eqb_spec (statusCode res) 200).
  - intros res -> Hs Hct. unfold api_callback, assert. rewrite Hs. simpl.
    by rewrite bool_decide_eq_false_2.
  - intros res e -> Hs Hct Hp. unfold api_callback, assert, _toResponseWrapper.
    rewrite Hs. simpl. rewrite bool_decide_eq_true_2 by done. simpl. by rewrite Hp.
  - intros res -> Hs Hct Hp. unfold api_callback, assert, _toResponseWrapper.
    rewrite Hs. simpl. rewrite bool_decide_eq_true_2 by done. simpl. by rewrite Hp.
Qed.

Lemma transport_answers_witness :
  let env := failing_env in
  let st := sample_client in
  let path := "rec" in
  let query := related_query "com.example.app" in
  authToken st = Some "XYZ"
  ∧ (USE_CACHE st = false ∨ cache st !! cachedGetResolver path query JUndefined = None)
  ∧ let req := sent_request st "XYZ" path query JUndefined JUndefined in
    let answer := api_server env (length (transport_log st)) req in
    let r := executeRequestApi env st path query JUndefined JUndefined in
    transport_log r.2 = transport_log st ++ [req]
    ∧ (∀ e, answer = NetFail e → r.1 = Rejected e)
    ∧ (∀ res, answer = NetOk res → statusCode res ≠ 200%Z →
         r.1 = Rejected (RequestError (body res)))
    ∧ (∀ res, answer = NetOk res → statusCode res = 200%Z →
         content_type res ≠ Some "application/x-gzip" →
         r.1 = Rejected (AssertionError "not application/x-gzip response"))
    ∧ (∀ res e, answer = NetOk res → statusCode res = 200%Z →
         content_type res = Some "application/x-gzip" →
         ResponseWrapper_parse env (VBuffer (body res)) = inl e →
         r.1 = Rejected e)
    ∧ (∀ res, answer = NetOk res → statusCode res = 200%Z →
         content_type res = Some "application/x-gzip" →
         ResponseWrapper_parse env (VBuffer (body res)) = inr None →
         r.1 = Rejected (AssertionError "empty response")).
Proof.
  split; [reflexivity|]. split; [right; reflexivity|].
  apply (transport_answers failing_env sample_client "XYZ" "rec"
           (related_query "com.example.app") JUndefined JUndefined);
    [reflexivity|right; reflexivity].
Defined.

(** ** The URL of a prefetch entry *)

Lemma lines_of_not_nil u : lines_of u ≠ [].
Proof. destruct u as [|c u]; simpl; [done|]. by destruct (is_line_terminator c), (lines_of u). Qed.

Lemma lines_of_one_line u : one_line u → lines_of u = [u].
Proof.
  intros [H10 H13]. induction u as [|c u IH]; [done|]. simpl in *.
  unfold is_line_terminator.
  destruct (Ascii.eqb c "010"); [done|]. destruct (Ascii.eqb c "013"); [done|].
  simpl. by rewrite IH.
Qed.

Lemma lines_of_pieces_count c u l :
  l ∈ lines_of u → (count_char c l ≤ count_char c u)%nat.
Proof.
  revert l. induction u as [|d u IH]; intros l; simpl.
  - by intros ->%list_elem_of_singleton.
  - destruct (is_line_terminator d).
    + intros [->|?]%elem_of_cons; simpl; [lia|]. etrans; [by apply IH|]. lia.
    + pose proof (lines_of_not_nil u). destruct (lines_of u) as [|w ws]; [done|].
      intros [->|?]%elem_of_cons.
      * simpl. pose proof (IH w (list_elem_of_here _ _)). lia.
      * etrans; [apply IH; by apply list_elem_of_further|]. lia.
Qed.

Lemma lines_of_some_line u :
  (0 < count_char "?" u)%nat → ∃ l, l ∈ lines_of u ∧ (0 < count_char "?" l)%nat.
Proof.
  induction u as [|d u IH]; simpl; [lia|].
  unfold is_line_terminator.
  destruct (Ascii.eqb_spec d "?") as [->|Hd]; simpl.
  - intros _. pose proof (lines_of_not_nil u). destruct (lines_of u) as [|w ws]; [done|].
    exists (String "?" w). split; [apply list_elem_of_here|simpl; lia].
  - intros (l & Hin & Hl)%IH.
    destruct (Ascii.eqb d "010" || Ascii.eqb d "013").
    + exists l. split; [by apply list_elem_of_further|done].
    + destruct (lines_of u) as [|w ws]; [by apply elem_of_nil in Hin|].
      apply elem_of_cons in Hin as [->|Hin].
      * exists (String d w). split; [apply list_elem_of_here|].
        simpl. destruct (Ascii.eqb d "?"); lia.
      * exists l. split; [by apply list_elem_of_further|done].
Qed.

Lemma split_last_question_None l :
  split_last_question l = None ↔ count_char "?" l = 0%nat.
Proof.
  unfold split_last_question.
  pose proof (length_split "?" l) as Hlen. rewrite <-length_reverse in Hlen.
  destruct (reverse (split "?" l)) as [|a [|b more]]; simpl in Hlen; split; try done; lia.
Qed.

Lemma first_match_None ls :
  first_match ls = None ↔ Forall (fun l => count_char "?" l = 0%nat) ls.
Proof.
  induction ls as [|l ls IH]; simpl; [done|].
  rewrite Forall_cons, <-IH, <-split_last_question_None.
  destruct (split_last_question l); split; [done|by intros [? _]|done|by intros [_ ?]].
Qed.

Lemma concat_snoc sep (ls : list string) x :
  ls ≠ [] →
  String.concat sep (ls ++ [x]) = String.concat sep ls +:+ sep +:+ x.
Proof.
  induction ls as [|l ls IH]; [done|]. intros _.
  destruct ls as [|l' ls]; [done|].
  change (String.concat sep ((l :: l' :: ls) ++ [x]))
    with (l +:+ sep +:+ String.concat sep ((l' :: ls) ++ [x])).
  rewrite IH by done.
  change (String.concat sep (l :: l' :: ls))
    with (l +:+ sep +:+ String.concat sep (l' :: ls)).
  by rewrite !string_app_assoc.
Qed.

Lemma split_last_question_Some l path q :
  split_last_question l = Some (path, q) →
  l = path +:+ "?" +:+ q ∧ count_char "?" q = 0%nat.
Proof.
  unfold split_last_question.
  destruct (reverse (split "?" l)) as [|after [|before more]] eqn:Hrev; try done.
  intros [= <- <-].
  assert (split "?" l = reverse (before :: more) ++ [after]) as Hs.
  { rewrite <-(reverse_involutive (split "?" l)), Hrev. by rewrite reverse_cons. }
  split.
  - rewrite <-(concat_split "?" l) at 1. rewrite Hs, concat_snoc; [done|].
    rewrite reverse_cons. by destruct (reverse more).
  - apply (split_pieces_free "?" l). rewrite Hs. apply elem_of_app. right.
    apply list_elem_of_here.
Qed.

Lemma split_last_question_app path q :
  count_char "?" q = 0%nat →
  split_last_question (path +:+ "?" +:+ q) = Some (path, q).
Proof.
  intros Hq. unfold split_last_question.
  change ("?" +:+ q) with (String "?" q).
  rewrite split_app_sep, (split_plain "?" q) by done.
  rewrite reverse_app. simpl.
  pose proof (split_not_nil "?" path) as Hne.
  destruct (reverse (split "?" path)) as [|before more] eqn:Hrev.
  - apply (f_equal reverse) in Hrev. by rewrite reverse_involutive in Hrev.
  - rewrite <-Hrev, reverse_involutive.
    by rewrite (concat_split "?" path).
Qed.

Lemma url_regex_exec_None u : url_regex_exec u = None ↔ count_char "?" u = 0%nat.
Proof.
  unfold url_regex_exec. rewrite first_match_None, Forall_forall. split.
  - intros Hall. destruct (count_char "?" u) eqn:Hc; [done|].
    destruct (lines_of_some_line u) as (l & Hin & Hl); [lia|].
    apply Hall in Hin. lia.
  - intros Hu l Hin. pose proof (lines_of_pieces_count "?" u l Hin). lia.
Qed.

(** X9. The regular expression of the prefetch ingester matches a URL
    exactly when the URL holds a question mark. On a URL of one line the
    match splits at the last question mark: a path followed by a question
    mark and a query without one is taken apart into this path and this
    query, and every match puts the URL back together. *)
Theorem url_regex_exec_spec :
  (∀ u, url_regex_exec u = None ↔ count_char "?" u = 0%nat)
  ∧ (∀ path q, one_line path → one_line q → count_char "?" q = 0%nat →
       url_regex_exec (path +:+ "?" +:+ q) = Some (path, q))
  ∧ (∀ u path q, one_line u → url_regex_exec u = Some (path, q) →
       u = path +:+ "?" +:+ q ∧ count_char "?" q = 0%nat).
Proof.
  split; [|split].
  - apply url_regex_exec_None.
  - intros path q [Hp1 Hp2] [Hq1 Hq2] Hq. unfold url_regex_exec.
    rewrite lines_of_one_line.
    + simpl. by rewrite split_last_question_app.
    + split; rewrite !count_char_app; simpl; lia.
  - intros u path q Hu. unfold url_regex_exec. rewrite lines_of_one_line by done.
    simpl. destruct (split_last_question u) as [[p' q']|] eqn:Hs; [|done].
    intros [= -> ->]. by apply split_last_question_Some.
Qed.

(** ** The loop of the prefetch ingester *)

Lemma prefetch_entries_app env ttl st good rest :
  prefetch_entries env ttl st (good ++ rest)
  = match prefetch_entries env ttl st good with
    | (inl e, st') => (inl e, st')
    | (inr _, st') => prefetch_entries env ttl st' rest
    end.
Proof.
  revert st. induction good as [|entry good IH]; intros st; simpl; [done|].
  destruct (prefetch_entry env ttl st entry) as [[e|[]] st1]; [done|]. apply IH.
Qed.

Lemma prefetch_entry_no_response env ttl st entry :
  USE_CACHE st = true → (0 < count_char "?" (url entry))%nat → response entry = None →
  prefetch_entry env ttl st entry
  = (inl (AssertionError "need defined response to cache"), st).
Proof.
  intros Hc Hu Hr. unfold prefetch_entry.
  destruct (url_regex_exec (url entry)) as [[path qstr]|] eqn:Hm.
  - by rewrite Hc, Hr.
  - apply url_regex_exec_None in Hm. lia.
Qed.

(** X10. The prefetch ingester skips an entry whose URL has no question
    mark, whether or not the entry carries a response. An entry with a
    question mark and without a response throws the assertion error, and
    the throw ends the loop: the entries before it are stored, the ones
    after it are not looked at. *)
Theorem prefetch_loop (env : Env) (st : client) (ttl : Z) :
  USE_CACHE st = true →
  (∀ entry, count_char "?" (url entry) = 0%nat →
     prefetch_entry env ttl st entry = (inr tt, st))
  ∧ (∀ entry, (0 < count_char "?" (url entry))%nat → response entry = None →
       prefetch_entry env ttl st entry
       = (inl (AssertionError "need defined response to cache"), st))
  ∧ (∀ good bad rest,
       (prefetch_entries env ttl st good).1 = inr tt →
       (0 < count_char "?" (url bad))%nat → response bad = None →
       prefetch_entries env ttl st (good ++ bad :: rest)
       = (inl (AssertionError "need defined response to cache"),
          (prefetch_entries env ttl st good).2)).
Proof.
  intros Hc. split; [|split].
  - intros entry Hu. unfold prefetch_entry.
    by rewrite (proj2 (url_regex_exec_None (url entry)) Hu).
  - intros entry Hu Hr. by apply prefetch_entry_no_response.
  - intros good bad rest Hgood Hu Hr. rewrite prefetch_entries_app.
    destruct (prefetch_entries_frame env ttl st good) as (Hc1 & _).
    destruct (prefetch_entries env ttl st good) as [[e|[]] st1]; simplify_eq/=.
    rewrite prefetch_entry_no_response; [done|congruence|done..].
Qed.

Lemma prefetch_loop_witness :
  USE_CACHE sample_client = true
  ∧ (∀ entry, count_char "?" (url entry) = 0%nat →
       prefetch_entry sample_env 30000 sample_client entry = (inr tt, sample_client))
  ∧ (∀ entry, (0 < count_char "?" (url entry))%nat → response entry = None →
       prefetch_entry sample_env 30000 sample_client entry
       = (inl (AssertionError "need defined response to cache"), sample_client))
  ∧ (∀ good bad rest,
       (prefetch_entries sample_env 30000 sample_client good).1 = inr tt →
       (0 < count_char "?" (url bad))%nat → response bad = None →
       prefetch_entries sample_env 30000 sample_client (good ++ bad :: rest)
       = (inl (AssertionError "need defined response to cache"),
          (prefetch_entries sample_env 30000 sample_client good).2)).
Proof.
  split; [reflexivity|].
  apply (prefetch_loop sample_env sample_client 30000). reflexivity.
Defined.

(** ** What a call leaves alone *)

Lemma memoized_effect env st path query datapost contentType :
  let stm := (memoizedExecuteRequestApi2 env st path query datapost contentType).2 in
  authToken stm = authToken st ∧ USE_CACHE stm = USE_CACHE st
  ∧ clock stm = clock st ∧ download_log stm = download_log st
  ∧ timers stm = timers st
  ∧ (∃ sent, transport_log stm = transport_log st ++ sent ∧ (length sent ≤ 1)%nat)
  ∧ (∀ k, k ≠ cachedGetResolver path query datapost → cache stm !! k = cache st !! k)
  ∧ (∀ k p, cache st !! k = Some p → cache stm !! k = Some p).
Proof.
  assert (∃ sent : list api_request,
            transport_log st = transport_log st ++ sent ∧ (length sent ≤ 1)%nat) as Hnil.
  { exists []. split; [by rewrite app_nil_r|simpl; lia]. }
  assert (∀ l (req : api_request), ∃ sent, l ++ [req] = l ++ sent ∧ (length sent ≤ 1)%nat)
    as Hone.
  { intros l req. exists [req]. split; [done|simpl; lia]. }
  unfold memoizedExecuteRequestApi2, _executeRequestApi2.
  destruct (USE_CACHE st) eqn:Hc.
  - destruct (cache st !! cachedGetResolver path query datapost) as [p|] eqn:Hk; simpl;
      [by repeat (split; [done|])|].
    destruct (authToken st) as [token|] eqn:Ht; simpl; [|by repeat (split; [done|])].
    do 5 (split; [done|]). split; [apply Hone|]. split.
    + intros k Hne. by rewrite lookup_insert_ne.
    + intros k p Hp. rewrite lookup_insert_ne; [done|]. intros <-. congruence.
  - destruct (authToken st) as [token|] eqn:Ht; simpl; [|by repeat (split; [done|])].
    do 5 (split; [done|]). split; [apply Hone|]. done.
Qed.

Lemma executeRequestApi_effect (env : Env) (st : client) (path : string)
    (query : list (string * qval)) (datapost contentType : jsval) :
  let st1 := (executeRequestApi env st path query datapost contentType).2 in
  authToken st1 = authToken st ∧ USE_CACHE st1 = USE_CACHE st
  ∧ clock st1 = clock st ∧ download_log st1 = download_log st
  ∧ (∃ sent, transport_log st1 = transport_log st ++ sent ∧ (length sent ≤ 1)%nat)
  ∧ (∀ k, ¬ prefetch_key k → k ≠ cachedGetResolver path query datapost →
       cache st1 !! k = cache st !! k)
  ∧ (∀ k p, ¬ prefetch_key k → cache st !! k = Some p → cache st1 !! k = Some p)
  ∧ (∃ new, timers st1 = timers st ++ new ∧ Forall (fun t => prefetch_key t.2) new).
Proof.
  intros st1.
  destruct (executeRequestApi_frame env st path query datapost contentType)
    as (Hc & Ht & Hl & Hd & Hcl & Hk & new & Hti & Hnew).
  destruct (memoized_effect env st path query datapost contentType)
    as (Ht' & Hc' & Hcl' & Hd' & Hti' & Hl' & Hk' & Hp').
  fold st1 in Hc, Ht, Hl, Hd, Hcl, Hk, Hti.
  repeat split; try congruence.
  - by rewrite Hl.
  - intros k Hpk Hne. by rewrite Hk, Hk'.
  - intros k p Hpk Hp. rewrite Hk by done. by apply Hp'.
  - exists new. by rewrite Hti, Hti'.
Qed.

(** The same frame, said with the fingerprints the ingester can make. *)
Lemma ingester_frame_refl st : ingester_frame st st.
Proof.
  repeat split; try done. exists []. by rewrite app_nil_r.
Qed.

Lemma ingester_frame_trans st1 st2 st3 :
  ingester_frame st1 st2 → ingester_frame st2 st3 → ingester_frame st1 st3.
Proof.
  intros (?&?&?&?&?&Hc1&new1&Ht1&Hn1) (?&?&?&?&?&Hc2&new2&Ht2&Hn2).
  repeat split; try congruence.
  - intros k Hk. by rewrite Hc2, Hc1.
  - exists (new1 ++ new2). rewrite Ht2, Ht1, <-app_assoc. split; [done|].
    by apply Forall_app.
Qed.

Lemma prefetch_entry_ingester_frame env ttl st entry :
  ingester_frame st (prefetch_entry env ttl st entry).2.
Proof.
  unfold prefetch_entry.
  destruct (url_regex_exec (url entry)) as [[path qstr]|]; [|apply ingester_frame_refl].
  destruct (USE_CACHE st); simpl; [|apply ingester_frame_refl].
  destruct (response entry) as [r|]; [|apply ingester_frame_refl].
  rewrite memoized_property_fingerprint.
  assert (ingester_key (cachedGetResolver path (qs_parse env qstr) (JBool false))) as Hkey.
  { by eexists _, _. }
  assert (∀ k, ¬ ingester_key k →
    <[cachedGetResolver path (qs_parse env qstr) (JBool false) :=
        {| promise_id := promises st; settled := inr (VMessage r) |}]> (cache st) !! k
    = cache st !! k) as Hother.
  { intros k Hk. apply lookup_insert_ne. by intros <-. }
  destruct (ttl =? 0)%Z; simpl; repeat split; try done.
  - exists []. by rewrite app_nil_r.
  - eexists. split; [done|]. by repeat constructor.
Qed.

Lemma prefetch_entries_ingester_frame env ttl st entries :
  ingester_frame st (prefetch_entries env ttl st entries).2.
Proof.
  revert st. induction entries as [|entry rest IH]; intros st; simpl.
  - apply ingester_frame_refl.
  - pose proof (prefetch_entry_ingester_frame env ttl st entry) as Hf.
    destruct (prefetch_entry env ttl st entry) as [[e|[]] st']; simpl in *; [done|].
    eapply ingester_frame_trans; [done|apply IH].
Qed.

Lemma _tryHandlePrefetch_ingester_frame env st message ttl :
  ingester_frame st (_tryHandlePrefetch env st message ttl).2.
Proof.
  unfold _tryHandlePrefetch. destruct (preFetch message).
  - apply prefetch_entries_ingester_frame.
  - apply ingester_frame_refl.
Qed.

Lemma respond_ingester_frame env st p : ingester_frame st (respond env st p).2.
Proof.
  unfold respond.
  destruct (settled p) as [e|body]; [apply ingester_frame_refl|].
  destruct (_toResponseWrapper env body) as [e|[message|]];
    [apply ingester_frame_refl| |apply ingester_frame_refl].
  destruct (USE_CACHE st); [|apply ingester_frame_refl].
  pose proof (_tryHandlePrefetch_ingester_frame env st message CACHE_INVALIDATION_INTERVAL)
    as Hf.
  by destruct (_tryHandlePrefetch env st message CACHE_INVALIDATION_INTERVAL) as [[e|[]] st2].
Qed.

Lemma executeRequestApi_ingester_frame env st path query datapost contentType :
  ingester_frame
    (memoizedExecuteRequestApi2 env st path query datapost contentType).2
    (executeRequestApi env st path query datapost contentType).2.
Proof.
  unfold executeRequestApi.
  destruct (memoizedExecuteRequestApi2 env st path query datapost contentType)
    as [[e|p] st1]; simpl; [apply ingester_frame_refl|].
  apply (respond_ingester_frame env st1 p).
Qed.

Lemma executeRequestApi_ingester_effect (env : Env) (st : client) (path : string)
    (query : list (string * qval)) (datapost contentType : jsval) :
  let st1 := (executeRequestApi env st path query datapost contentType).2 in
  authToken st1 = authToken st ∧ USE_CACHE st1 = USE_CACHE st
  ∧ clock st1 = clock st ∧ download_log st1 = download_log st
  ∧ (∃ sent, transport_log st1 = transport_log st ++ sent ∧ (length sent ≤ 1)%nat)
  ∧ (∀ k, ¬ ingester_key k → k ≠ cachedGetResolver path query datapost →
       cache st1 !! k = cache st !! k)
  ∧ (∀ k p, ¬ ingester_key k → cache st !! k = Some p → cache st1 !! k = Some p)
  ∧ (∃ new, timers st1 = timers st ++ new ∧ Forall (fun t => ingester_key t.2) new).
Proof.
  intros st1.
  destruct (executeRequestApi_ingester_frame env st path query datapost contentType)
    as (Hc & Ht & Hl & Hd & Hcl & Hk & new & Hti & Hnew).
  destruct (memoized_effect env st path query datapost contentType)
    as (Ht' & Hc' & Hcl' & Hd' & Hti' & Hl' & Hk' & Hp').
  fold st1 in Hc, Ht, Hl, Hd, Hcl, Hk, Hti.
  repeat split; try congruence.
  - by rewrite Hl.
  - intros k Hpk Hne. by rewrite Hk, Hk'.
  - intros k p Hpk Hp. rewrite Hk by done. by apply Hp'.
  - exists new. by rewrite Hti, Hti'.
Qed.

(** The timers of a client reached from the constructor were all set by
    the ingester. *)
Lemma ingester_timers_GooglePlay env u p a useCache dbg st :
  GooglePlay env u p a useCache dbg = inr st → ingester_timers st.
Proof.
  unfold GooglePlay, getOrElseThrow.
  destruct (is_undefined u), (is_undefined p), (is_undefined (js_or a JNull)),
    (desc_file env); simpl; intros [= <-]. constructor.
Qed.

Lemma ingester_timers_executeRequestApi env st path query datapost contentType :
  ingester_timers st →
  ingester_timers (executeRequestApi env st path query datapost contentType).2.
Proof.
  intros Hwf.
  destruct (executeRequestApi_ingester_effect env st path query datapost contentType)
    as (_ & _ & _ & _ & _ & _ & _ & new & Hti & Hnew).
  unfold ingester_timers. rewrite Hti. by apply Forall_app.
Qed.

Lemma ingester_timers_login env st : ingester_timers st → ingester_timers (login env st).2.
Proof.
  unfold login. destruct (_ && _); [done|].
  destruct (auth_server env _) as [e|res]; [done|].
  by destruct (login_callback res).
Qed.

Lemma ingester_timers_advance d st : ingester_timers st → ingester_timers (advance d st).
Proof.
  unfold ingester_timers, advance. simpl. rewrite !Forall_forall.
  intros Hwf t [_ Hin]%list_elem_of_filter. by apply Hwf.
Qed.

(** X11. A call changes the cache only under its own fingerprint and
    under fingerprints that the prefetch ingester can make, those of a
    call whose [datapost] is [false]: every entry under another
    fingerprint stays as it is, and no entry under a fingerprint that the
    ingester cannot make is replaced or removed. At most one request goes
    out, every new timer stands under a fingerprint of the ingester, and
    the token, the cache switch, the clock and the downloads are not
    touched. *)
Theorem executeRequestApi_frame_of_a_call (env : Env) (st : client) (path : string)
    (query : list (string * qval)) (datapost contentType : jsval) :
  let st1 := (executeRequestApi env st path query datapost contentType).2 in
  authToken st1 = authToken st ∧ USE_CACHE st1 = USE_CACHE st
  ∧ clock st1 = clock st ∧ download_log st1 = download_log st
  ∧ (∃ sent, transport_log st1 = transport_log st ++ sent ∧ (length sent ≤ 1)%nat)
  ∧ (∀ k, ¬ ingester_key k → k ≠ cachedGetResolver path query datapost →
       cache st1 !! k = cache st !! k)
  ∧ (∀ k p, ¬ ingester_key k → cache st !! k = Some p → cache st1 !! k = Some p)
  ∧ (∃ new, timers st1 = timers st ++ new ∧ Forall (fun t => ingester_key t.2) new).
Proof. apply executeRequestApi_ingester_effect. Qed.

(** ** Fingerprints tell requests apart *)

(** X12. On paths without a bar the fingerprint determines what it was
    made of: two well-formed requests with one fingerprint have the same
    path, the same printed form of the query (the text of every member
    but one named [__proto__], which is not printed) and the same printed
    [datapost]. *)
Theorem fingerprint_determines_request (p1 p2 : string) (q1 q2 : list (string * qval))
    (d1 d2 : jsval) :
  count_char "|" p1 = 0%nat → count_char "|" p2 = 0%nat →
  NoDup q1.*1 → NoDup q2.*1 →
  cachedGetResolver p1 q1 d1 = cachedGetResolver p2 q2 d2 →
  p1 = p2 ∧ printed q1 ≡ₚ printed q2 ∧ String_of d1 = String_of d2.
Proof. apply cachedGetResolver_injective. Qed.

Lemma fingerprint_determines_request_witness :
  let q1 := related_query "a" in
  let q2 := [("c", QStr "3"); ("rt", QStr "1"); ("doc", QStr "a")] in
  count_char "|" "rec" = 0%nat ∧ count_char "|" "rec" = 0%nat
  ∧ NoDup q1.*1 ∧ NoDup q2.*1
  ∧ cachedGetResolver "rec" q1 JUndefined = cachedGetResolver "rec" q2 JUndefined
  ∧ "rec" = "rec" ∧ printed q1 ≡ₚ printed q2
  ∧ String_of JUndefined = String_of JUndefined.
Proof.
  assert (NoDup (related_query "a").*1) as H1.
  { apply (bool_decide_unpack (NoDup (related_query "a").*1)). vm_compute. exact I. }
  assert (NoDup [("c", QStr "3"); ("rt", QStr "1"); ("doc", QStr "a")].*1) as H2.
  { apply (bool_decide_unpack
             (NoDup [("c", QStr "3"); ("rt", QStr "1"); ("doc", QStr "a")].*1)).
    vm_compute. exact I. }
  assert (cachedGetResolver "rec" (related_query "a") JUndefined
          = cachedGetResolver "rec" [("c", QStr "3"); ("rt", QStr "1"); ("doc", QStr "a")]
              JUndefined) as H3.
  { vm_compute. reflexivity. }
  split; [reflexivity|]. split; [reflexivity|]. split; [exact H1|]. split; [exact H2|].
  split; [exact H3|].
  exact (fingerprint_determines_request "rec" "rec" _ _ JUndefined JUndefined
           eq_refl eq_refl H1 H2 H3).
Defined.

Lemma count_char_pretty_N_go c x s :
  (∀ n, pretty_N_char n ≠ c) → count_char c (pretty_N_go x s) = count_char c s.
Proof.
  intros Hc. revert s. induction (N.lt_wf_0 x) as [x _ IH]; intros s.
  assert (x = 0 ∨ 0 < x)%N as [->|Hx] by lia; [by rewrite pretty_N_go_0|].
  rewrite pretty_N_go_step by done. rewrite IH by (by apply N.div_lt).
  simpl. destruct (Ascii.eqb_spec (pretty_N_char (x `mod` 10)) c) as [He|He]; [|done].
  by apply Hc in He.
Qed.

Lemma count_equals_pretty_Z (z : Z) : count_char "=" (pretty z) = 0%nat.
Proof.
  assert (∀ n, pretty_N_char n ≠ "="%char) as Hd.
  { intros n. unfold pretty_N_char. by repeat case_match. }
  assert (∀ x : N, count_char "=" (pretty x) = 0%nat) as HN.
  { intros x. unfold pretty, pretty_N. case_decide; [done|].
    by rewrite count_char_pretty_N_go. }
  destruct z as [|p|p]; unfold pretty, pretty_Z; [done|apply HN|].
  rewrite count_char_app. change (pretty p) with (pretty (N.pos p)). by rewrite HN.
Qed.

Lemma split_at_last_equals a b d1 d2 :
  count_char "=" d1 = 0%nat → count_char "=" d2 = 0%nat →
  a +:+ String "=" d1 = b +:+ String "=" d2 → a = b ∧ d1 = d2.
Proof.
  intros H1 H2. revert b. induction a as [|x a IH]; intros [|y b];
    rewrite ?string_app_nil_l, ?string_app_cons; intros H; simplify_eq.
  - done.
  - rewrite count_char_app in H1. simpl in H1. lia.
  - rewrite count_char_app in H2. simpl in H2. lia.
  - match goal with H : _ +:+ _ = _ +:+ _ |- _ => by apply IH in H as [-> ->] end.
Qed.

Lemma purchase_body_inj pkg1 pkg2 (v1 v2 : Z) :
  "ot=1&doc=" +:+ pkg1 +:+ "&vc=" +:+ pretty v1
  = "ot=1&doc=" +:+ pkg2 +:+ "&vc=" +:+ pretty v2 →
  pkg1 = pkg2 ∧ v1 = v2.
Proof.
  intros H%(inj (String.app "ot=1&doc=")).
  change ("&vc=" +:+ ?d) with ("&vc" +:+ String "=" d) in H.
  rewrite <-!string_app_assoc in H.
  apply split_at_last_equals in H as [Hp Hv]; [|apply count_equals_pretty_Z..].
  apply string_app_inv_tail in Hp. by apply (inj pretty) in Hv.
Qed.

Lemma executeRequestApi_entry env st token path query datapost contentType :
  USE_CACHE st = true → authToken st = Some token →
  ¬ prefetch_key (cachedGetResolver path query datapost) →
  is_Some (cache (executeRequestApi env st path query datapost contentType).2
             !! cachedGetResolver path query datapost).
Proof.
  intros Hc Ht Hk.
  destruct (cache st !! cachedGetResolver path query datapost) as [p|] eqn:Hp.
  - destruct (executeRequestApi_hit env st path query datapost contentType p Hc Hp)
      as (_ & _ & _ & _ & _ & Hk1 & _).
    rewrite Hk1 by done. by rewrite Hp.
  - destruct (executeRequestApi_miss env st token path query datapost contentType
                Hc Ht Hp) as (_ & _ & _ & Hk1).
    rewrite Hk1 by done. done.
Qed.

(** X13. With caching enabled each of the three operations leaves its
    answer under the fingerprint of its own request, and these
    fingerprints tell the requests apart: the details of two packages,
    the related apps of two packages, and the grants of two packages or
    two version codes never share an entry, and no entry of one operation
    is the entry of another. *)
Theorem operation_fingerprints :
  (∀ env st token pkg, USE_CACHE st = true → authToken st = Some token →
     is_Some (cache (getPackageDetails env st pkg).2 !! details_key pkg))
  ∧ (∀ env st token pkg, USE_CACHE st = true → authToken st = Some token →
       is_Some (cache (getRelatedApps env st pkg).2 !! related_key pkg))
  ∧ (∀ env st token pkg versionCode, USE_CACHE st = true → authToken st = Some token →
       is_Some (cache (getDownloadInfo env st pkg versionCode).2
                  !! purchase_key pkg versionCode))
  ∧ (∀ pkg1 pkg2, details_key pkg1 = details_key pkg2 → pkg1 = pkg2)
  ∧ (∀ pkg1 pkg2, related_key pkg1 = related_key pkg2 → pkg1 = pkg2)
  ∧ (∀ pkg1 pkg2 v1 v2, purchase_key pkg1 v1 = purchase_key pkg2 v2 →
       pkg1 = pkg2 ∧ v1 = v2)
  ∧ (∀ pkg1 pkg2, details_key pkg1 ≠ related_key pkg2)
  ∧ (∀ pkg1 pkg2 v, details_key pkg1 ≠ purchase_key pkg2 v)
  ∧ (∀ pkg1 pkg2 v, related_key pkg1 ≠ purchase_key pkg2 v).
Proof.
  assert (∀ pkg, NoDup [("doc", QStr pkg)].*1) as Hnd1.
  { intros pkg. apply NoDup_singleton. }
  assert (∀ pkg, NoDup (related_query pkg).*1) as Hnd3.
  { intros pkg. simpl.
    apply (bool_decide_unpack (NoDup ["doc"; "rt"; "c"])). vm_compute. exact I. }
  assert (NoDup (@nil (string * qval)).*1) as Hnd0 by apply NoDup_nil_2.
  split; [|split; [|split; [|split; [|split; [|split; [|split; [|split]]]]]]].
  - intros env st token pkg Hc Ht. unfold getPackageDetails. rewrite and_then_state.
    eapply executeRequestApi_entry; [done..|].
    unfold prefetch_key. by rewrite last_char_get_key.
  - intros env st token pkg Hc Ht. unfold getRelatedApps. rewrite and_then_state.
    eapply (executeRequestApi_entry env st token "rec" (related_query pkg)); [done..|].
    unfold prefetch_key. by rewrite last_char_get_key.
  - intros env st token pkg versionCode Hc Ht. unfold getDownloadInfo.
    rewrite and_then_state.
    eapply executeRequestApi_entry; [done..|]. apply last_char_purchase_key.
  - intros pkg1 pkg2 H. apply cachedGetResolver_inv_query in H; [|done..].
    change (printed [("doc", QStr pkg1)]) with [("doc", pkg1)] in H.
    change (printed [("doc", QStr pkg2)]) with [("doc", pkg2)] in H.
    apply Permutation_singleton_l in H. by simplify_eq/=.
  - intros pkg1 pkg2 H. apply cachedGetResolver_inv_query in H; [|done..].
    change (printed (related_query pkg1))
      with [("doc", pkg1); ("rt", "1"); ("c", "3")] in H.
    change (printed (related_query pkg2))
      with [("doc", pkg2); ("rt", "1"); ("c", "3")] in H.
    assert (("doc", pkg1) ∈ [("doc", pkg2); ("rt", "1"); ("c", "3")]) as Hin.
    { rewrite <-H. apply list_elem_of_here. }
    rewrite !elem_of_cons, elem_of_nil in Hin.
    by destruct Hin as [?|[?|[?|[]]]]; simplify_eq.
  - intros pkg1 pkg2 v1 v2 [_ H]%cachedGetResolver_inv.
    by apply purchase_body_inj.
  - intros pkg1 pkg2 H. by apply cachedGetResolver_injective in H as [? _].
  - intros pkg1 pkg2 v H. by apply cachedGetResolver_injective in H as [? _].
  - intros pkg1 pkg2 v H. by apply cachedGetResolver_injective in H as [? _].
Qed.

(** ** From the constructor to the first request *)

Lemma GooglePlay_inr env u p a useCache dbg st :
  GooglePlay env u p a useCache dbg = inr st →
  is_undefined u = false ∧ is_undefined p = false ∧ is_Some (desc_file env)
  ∧ st = {| username := u; password := p; androidId := js_or a JNull;
            USE_CACHE := bool_decide (useCache = JBool true);
            debug := bool_decide (dbg = JBool true); authToken := None;
            cache := ∅; timers := []; clock := 0;
            transport_log := []; download_log := []; promises := 0 |}.
Proof.
  unfold GooglePlay, getOrElseThrow.
  destruct (is_undefined u); [done|]. destruct (is_undefined p); [done|]. simpl.
  destruct (is_undefined (js_or a JNull)); [done|]. simpl.
  destruct (desc_file env); [|done]. intros [= <-]. eauto.
Qed.

Lemma sent_request_fields st token path query datapost contentType :
  let req := sent_request st token path query datapost contentType in
  req_url req = "https://android.clients.google.com/fdfe/" +:+ path
  ∧ req_qs req = query
  ∧ req_method req = (if truthy datapost then POST else GET)
  ∧ obj_get (req_headers req) "Authorization" = Some (JStr ("GoogleLogin auth=" +:+ token))
  ∧ obj_get (req_headers req) "X-DFE-Device-Id" = Some (androidId st).
Proof. unfold sent_request, handleRequest. by destruct (truthy datapost). Qed.

(** X14. A client built by the constructor and logged in sends, as its
    first request, the path under the fixed host with the query it was
    given, as a POST when [datapost] is truthy and as a GET otherwise; the
    request carries the value of the [auth] key of the login answer in its
    authorization header and the device id of the constructor, [null]
    when none was given. The login form carries the user name, the
    password and that device id. *)
Theorem first_request_of_a_session (env : Env) (u p a useCache dbg : jsval)
    (st st' : client) :
  GooglePlay env u p a useCache dbg = inr st →
  login env st = (Fulfilled tt, st') →
  ∃ res obj auth,
    auth_server env {| login_url := URL_LOGIN; login_form := login_body st |} = NetOk res
    ∧ responseToObj (body res) = inr obj ∧ obj !! "auth" = Some auth
    ∧ obj_get (login_body st) "Email" = Some u
    ∧ obj_get (login_body st) "Passwd" = Some p
    ∧ obj_get (login_body st) "androidId" = Some (js_or a JNull)
    ∧ st' = set_authToken (Some auth) st
    ∧ ∀ path query datapost contentType,
        ∃ req,
          transport_log (executeRequestApi env st' path query datapost contentType).2 = [req]
          ∧ req_url req = "https://android.clients.google.com/fdfe/" +:+ path
          ∧ req_qs req = query
          ∧ req_method req = (if truthy datapost then POST else GET)
          ∧ obj_get (req_headers req) "Authorization"
            = Some (JStr ("GoogleLogin auth=" +:+ auth))
          ∧ obj_get (req_headers req) "X-DFE-Device-Id" = Some (js_or a JNull).
Proof.
  intros (_ & _ & _ & Hst)%GooglePlay_inr (res & auth & Hres & Hcb & ->)%login_fulfilled.
  apply login_callback_token in Hcb as (_ & _ & obj & Hobj & Ha).
  exists res, obj, auth. split; [done|]. split; [done|]. split; [done|].
  split; [by subst st|]. split; [by subst st|]. split; [by subst st|]. split; [done|].
  intros path query datapost contentType.
  exists (sent_request (set_authToken (Some auth) st) auth path query datapost contentType).
  split.
  - rewrite (executeRequestApi_sends env _ auth); [by subst st|done|].
    right. by subst st.
  - pose proof (sent_request_fields (set_authToken (Some auth) st) auth path query
                  datapost contentType) as Hf.
    simpl in Hf. by subst st.
Qed.

Lemma first_request_of_a_session_witness :
  let env := auth_env auth_ok in
  let u := JStr "user@example.com" in
  let p := JStr "secret" in
  let st := {| username := u; password := p; androidId := JNull;
               USE_CACHE := true; debug := false; authToken := None;
               cache := ∅; timers := []; clock := 0;
               transport_log := []; download_log := []; promises := 0 |} in
  let st' := set_authToken (Some "XYZ") st in
  GooglePlay env u p JUndefined (JBool true) JUndefined = inr st
  ∧ login env st = (Fulfilled tt, st')
  ∧ ∃ res obj auth,
      auth_server env {| login_url := URL_LOGIN; login_form := login_body st |} = NetOk res
      ∧ responseToObj (body res) = inr obj ∧ obj !! "auth" = Some auth
      ∧ obj_get (login_body st) "Email" = Some u
      ∧ obj_get (login_body st) "Passwd" = Some p
      ∧ obj_get (login_body st) "androidId" = Some (js_or JUndefined JNull)
      ∧ st' = set_authToken (Some auth) st
      ∧ ∀ path query datapost contentType,
          ∃ req,
            transport_log (executeRequestApi env st' path query datapost contentType).2 = [req]
            ∧ req_url req = "https://android.clients.google.com/fdfe/" +:+ path
            ∧ req_qs req = query
            ∧ req_method req = (if truthy datapost then POST else GET)
            ∧ obj_get (req_headers req) "Authorization"
              = Some (JStr ("GoogleLogin auth=" +:+ auth))
            ∧ obj_get (req_headers req) "X-DFE-Device-Id" = Some (js_or JUndefined JNull).
Proof.
  assert (login (auth_env auth_ok)
            {| username := JStr "user@example.com"; password := JStr "secret";
               androidId := JNull; USE_CACHE := true; debug := false; authToken := None;
               cache := ∅; timers := []; clock := 0;
               transport_log := []; download_log := []; promises := 0 |}
          = (Fulfilled tt,
             set_authToken (Some "XYZ")
               {| username := JStr "user@example.com"; password := JStr "secret";
                  androidId := JNull; USE_CACHE := true; debug := false;
                  authToken := None; cache := ∅; timers := []; clock := 0;
                  transport_log := []; download_log := []; promises := 0 |})) as Hlogin.
  { vm_compute. reflexivity. }
  split; [reflexivity|]. split; [exact Hlogin|].
  exact (first_request_of_a_session (auth_env auth_ok) (JStr "user@example.com")
           (JStr "secret") JUndefined (JBool true) JUndefined _ _ eq_refl Hlogin).
Defined.

(** X15. A new client is not logged in and has an empty cache, no timer
    and no request behind it. Construction succeeds exactly when the user
    name and the password are defined and the schema file can be read.
    Caching is on only when [useCache] is the value [true] itself: a
    client built without it, or with another truthy value, does not
    cache; [debug] is read the same way. *)
Theorem GooglePlay_new_client (env : Env) (u p a useCache dbg : jsval) :
  ((∃ st, GooglePlay env u p a useCache dbg = inr st)
   ↔ is_undefined u = false ∧ is_undefined p = false ∧ is_Some (desc_file env))
  ∧ (∀ st, GooglePlay env u p a useCache dbg = inr st →
       authToken st = None ∧ cache st = ∅ ∧ cachedKeys st = [] ∧ timers st = []
       ∧ transport_log st = [] ∧ download_log st = []
       ∧ (USE_CACHE st = true ↔ useCache = JBool true)
       ∧ (debug st = true ↔ dbg = JBool true))
  ∧ (∀ st, GooglePlay env u p a JUndefined dbg = inr st → USE_CACHE st = false)
  ∧ (∀ st, GooglePlay env u p a (JNum 1) dbg = inr st → USE_CACHE st = false).
Proof.
  split; [|split; [|split]].
  - split.
    + intros [st Hst]. by apply GooglePlay_inr in Hst as (? & ? & ? & _).
    + intros (Hu & Hp & [f Hf]). unfold GooglePlay, getOrElseThrow.
      rewrite Hu, Hp, Hf. simpl.
      assert (is_undefined (js_or a JNull) = false) as ->.
      { unfold js_or. destruct (truthy a) eqn:Ha; [by destruct a|done]. }
      simpl. eauto.
  - intros st (_ & _ & _ & ->)%GooglePlay_inr. simpl.
    repeat split; try done.
    + intros H. by apply bool_decide_eq_true in H.
    + intros ->. by apply bool_decide_eq_true.
    + intros H. by apply bool_decide_eq_true in H.
    + intros ->. by apply bool_decide_eq_true.
  - by intros st (_ & _ & _ & ->)%GooglePlay_inr.
  - by intros st (_ & _ & _ & ->)%GooglePlay_inr.
Qed.

(** ** Cookies and the download *)

Lemma reduce_app {A B : Type} (f : B → A → error + B) (l1 l2 : list A) (acc : B) :
  reduce f (l1 ++ l2) acc
  = match reduce f l1 acc with
    | inl e => inl e
    | inr acc' => reduce f l2 acc'
    end.
Proof.
  revert acc. induction l1 as [|x l1 IH]; intros acc; simpl; [done|].
  by destruct (f acc x).
Qed.

Lemma _prepCookies_step_inr env u j c j' :
  _prepCookies_step env u j c = inr j' ↔
  ∃ t, cookie_text c = Some t ∧ setCookie_error env j t u = None ∧ j' = j ++ [(t, u)].
Proof.
  unfold _prepCookies_step, cookie_text.
  destruct (cookie_name c) as [name|], (cookie_value c) as [value|]; simpl;
    try (split; [done|by intros (t & ? & _)]).
  destruct (setCookie_error env j (name +:+ "=" +:+ value) u) as [e|] eqn:He; split.
  - done.
  - intros (t & [= <-] & Ht & _). by rewrite He in Ht.
  - intros [= <-]. eauto.
  - by intros (t & [= <-] & _ & ->).
Qed.

Lemma reduce_prepCookies env u cookies j0 j :
  reduce (_prepCookies_step env u) cookies j0 = inr j ↔
  ∃ texts, Forall2 (fun c t => cookie_text c = Some t) cookies texts
           ∧ j = j0 ++ ((fun t => (t, u)) <$> texts)
           ∧ ∀ i t, texts !! i = Some t →
               setCookie_error env (j0 ++ ((fun t => (t, u)) <$> take i texts)) t u = None.
Proof.
  revert j0. induction cookies as [|c cs IH]; intros j0; simpl.
  - split.
    + intros [= <-]. exists []. split; [constructor|]. by rewrite app_nil_r.
    + intros (texts & ->%Forall2_nil_inv_l & -> & _). by rewrite app_nil_r.
  - destruct (_prepCookies_step env u j0 c) as [e|j1] eqn:Hs.
    + split; [done|]. intros (texts & Hall & _ & Hok).
      apply Forall2_cons_inv_l in Hall as (t & ts & Ht & _ & ->).
      pose proof (Hok 0%nat t eq_refl) as H0. simpl in H0. rewrite app_nil_r in H0.
      assert (_prepCookies_step env u j0 c = inr (j0 ++ [(t, u)])) as Hs'.
      { apply _prepCookies_step_inr. eauto. }
      by rewrite Hs in Hs'.
    + apply _prepCookies_step_inr in Hs as (t & Ht & Herr & ->).
      rewrite IH. split.
      * intros (ts & Hall & -> & Hok). exists (t :: ts).
        split; [by constructor|]. split; [by rewrite <-app_assoc|].
        intros [|i] t' Hi.
        -- injection Hi as <-. simpl. by rewrite app_nil_r.
        -- change (take (S i) (t :: ts)) with (t :: take i ts).
           rewrite fmap_cons, (cons_middle (t, u)), app_assoc. by apply Hok.
      * intros (texts & Hall & -> & Hok).
        apply Forall2_cons_inv_l in Hall as (t' & ts & Ht' & Hall & ->).
        assert (t' = t) as -> by congruence.
        exists ts. split; [done|]. split; [by rewrite <-app_assoc|].
        intros i t' Hi. rewrite <-app_assoc. by apply (Hok (S i) t').
Qed.

(** X16. Given a URL and an array of cookie messages, [_prepCookies]
    returns a jar exactly when every message carries a name and a value
    and the jar takes each cookie in turn; the jar has then taken one
    [setCookie] per cookie, in the order of the array, each with the text
    [name=value] and the URL. A message without a name or without a value
    fails an assert, a cookie the jar refuses makes [setCookie] throw, and
    the first throw ends the loop. Given no array the result is the empty
    jar, and the jar is not asked. *)
Theorem _prepCookies_jar (env : Env) (u : arg) :
  (∀ cookies j,
     _prepCookies env u (Some cookies) = inr j ↔
     ∃ texts, Forall2 (fun c t => cookie_text c = Some t) cookies texts
              ∧ j = (fun t => (t, u)) <$> texts
              ∧ ∀ i t, texts !! i = Some t →
                  setCookie_error env ((fun t => (t, u)) <$> take i texts) t u = None)
  ∧ (∀ good bad rest j e,
       _prepCookies env u (Some good) = inr j →
       _prepCookies_step env u j bad = inl e →
       _prepCookies env u (Some (good ++ bad :: rest)) = inl e)
  ∧ (∀ j c, cookie_name c = None →
       _prepCookies_step env u j c = inl (AssertionError "expected cookie name string"))
  ∧ (∀ j c, is_Some (cookie_name c) → cookie_value c = None →
       _prepCookies_step env u j c = inl (AssertionError "expected cookie value string"))
  ∧ (∀ j c t e, cookie_text c = Some t → setCookie_error env j t u = Some e →
       _prepCookies_step env u j c = inl e)
  ∧ _prepCookies env u None = inr [].
Proof.
  split; [|split; [|split; [|split; [|split]]]].
  - intros cookies j. unfold _prepCookies. apply reduce_prepCookies.
  - intros good bad rest j e Hg Hb. unfold _prepCookies in *.
    rewrite reduce_app, Hg. simpl. by rewrite Hb.
  - intros j c Hn. unfold _prepCookies_step. by rewrite Hn.
  - intros j c [name Hn] Hv. unfold _prepCookies_step. by rewrite Hn, Hv.
  - intros j c t e Ht He. unfold _prepCookies_step, cookie_text in *.
    destruct (cookie_name c) as [name|], (cookie_value c) as [value|]; simplify_eq/=.
    by rewrite He.
  - done.
Qed.

(** The two-argument call on the sample world: the jar takes the cookie of
    the sample grant for the URL of the grant, and refuses it for a URL
    that is not a string, as in the one-argument call shifted by one. *)
Example _prepCookies_sample :
  _prepCookies sample_env (ArgString "https://android.clients.google.com/market/download")
    (Some sample_cookies)
  = inr [("MarketDA=0123456789",
          ArgString "https://android.clients.google.com/market/download")]
  ∧ _prepCookies sample_env ArgUndefined (Some sample_cookies)
    = inl (TypeError "Parameter 'url' must be a string")
  ∧ _prepCookies sample_env (ArgString "u")
      (Some [ {| cookie_name := None; cookie_value := Some "v" |} ])
    = inl (AssertionError "expected cookie name string").
Proof. vm_compute. by repeat split. Qed.

(** X17. [downloadApk] asks for the grant first. When that fails it fails
    the same way and requests no download. When it gives a grant, exactly
    one download is requested, from the URL of the grant, with the user
    agent of the download manager; the call is fulfilled with whatever the
    host answers, whatever the status, and rejected only when the
    connection fails. The download changes neither the cache nor the
    requests of the Transport. *)
Theorem downloadApk_flow (env : Env) (st : client) (pkg : string) (versionCode : Z) :
  let g := getDownloadInfo env st pkg versionCode in
  let r := downloadApk env st pkg versionCode in
  (∀ e, g.1 = Throws e → r = (Throws e, g.2))
  ∧ (∀ e, g.1 = Rejected e → r = (Rejected e, g.2))
  ∧ (∀ grant, g.1 = Fulfilled grant →
       let req := {| dl_url := grant_url grant; dl_jar := [];
                     dl_headers := [("User-Agent", DOWNLOAD_MANAGER_USER_AGENT)] |} in
       download_log r.2 = download_log g.2 ++ [req]
       ∧ (∀ res, download_server env req = NetOk res → r.1 = Fulfilled res)
       ∧ (∀ e, download_server env req = NetFail e → r.1 = Rejected e))
  ∧ transport_log r.2 = transport_log g.2
  ∧ cache r.2 = cache g.2
  ∧ download_log g.2 = download_log st.
Proof.
  intros g r.
  assert (download_log g.2 = download_log st) as Hd.
  { subst g. unfold getDownloadInfo. rewrite and_then_state.
    destruct (executeRequestApi_frame env st "purchase" []
      (JStr ("ot=1&doc=" +:+ pkg +:+ "&vc=" +:+ pretty versionCode)) JUndefined)
      as (_ & _ & _ & Hd1 & _).
    destruct (memoized_effect env st "purchase" []
      (JStr ("ot=1&doc=" +:+ pkg +:+ "&vc=" +:+ pretty versionCode)) JUndefined)
      as (_ & _ & _ & Hd2 & _).
    congruence. }
  subst r. unfold downloadApk. fold g.
  destruct g as [[e|e|grant] st1]; simpl in *.
  - repeat split; try done. by intros e' [= ->].
  - repeat split; try done. by intros e' [= ->].
  - split; [done|]. split; [done|]. split; [|by destruct (download_server env _)].
    intros grant' [= <-]. destruct (download_server env _) as [e|res]; simpl.
    + split; [done|]. split; [done|]. by intros e' [= ->].
    + split; [done|]. split; [|done]. by intros res' [= ->].
Qed.

(** ** Timers delete by key *)

(** X18. The timer of a prefetch entry deletes whatever stands under the
    fingerprint when it fires. When an entry for the same URL is stored
    again [d] milliseconds after the first one, with [d] below 30000, the
    new entry replaces the old one and is deleted 30000 ms after the
    first store: it lives [30000 - d] ms. *)
Theorem prefetch_timer_deletes_by_key (env : Env) (st : client) (e1 e2 : PreFetch)
    (path qstr : string) (r1 r2 : ResponseWrapper) (d : Z) :
  USE_CACHE st = true →
  url_regex_exec (url e1) = Some (path, qstr) → url e2 = url e1 →
  response e1 = Some r1 → response e2 = Some r2 →
  (0 ≤ d < 30000)%Z →
  let key := cachedGetResolver path (qs_parse env qstr) (JBool false) in
  let st1 := (prefetch_entry env CACHE_INVALIDATION_INTERVAL st e1).2 in
  let st2 := (prefetch_entry env CACHE_INVALIDATION_INTERVAL (advance d st1) e2).2 in
  cache st1 !! key = Some {| promise_id := promises st; settled := inr (VMessage r1) |}
  ∧ cache st2 !! key
    = Some {| promise_id := S (promises st); settled := inr (VMessage r2) |}
  ∧ clock st2 = (clock st + d)%Z
  ∧ cache (advance (30000 - d) st2) !! key = None.
Proof.
  intros Hc Hu1 Hu2 Hr1 Hr2 Hd key st1 st2.
  assert (st1 = set_timers (timers st ++ [((clock st + 30000)%Z, key)])
                  (set_promises (S (promises st))
                     (set_cache (<[key := {| promise_id := promises st;
                                             settled := inr (VMessage r1) |}]> (cache st))
                        st))) as Hst1.
  { subst st1.
    by rewrite (prefetch_entry_stores env CACHE_INVALIDATION_INTERVAL st e1 path qstr r1). }
  assert (USE_CACHE (advance d st1) = true ∧ promises (advance d st1) = S (promises st)
          ∧ clock (advance d st1) = (clock st + d)%Z
          ∧ ((clock st + 30000)%Z, key) ∈ timers (advance d st1)) as (Hc' & Hp' & Hcl' & Hin').
  { rewrite Hst1. unfold advance. simpl. repeat split; try done.
    apply list_elem_of_filter. split; [simpl; lia|].
    apply elem_of_app. right. apply list_elem_of_here. }
  assert (st2 = set_timers (timers (advance d st1)
                              ++ [((clock (advance d st1) + 30000)%Z, key)])
                  (set_promises (S (promises (advance d st1)))
                     (set_cache (<[key := {| promise_id := promises (advance d st1);
                                             settled := inr (VMessage r2) |}]>
                                   (cache (advance d st1)))
                        (advance d st1)))) as Hst2.
  { subst st2.
    rewrite (prefetch_entry_stores env CACHE_INVALIDATION_INTERVAL (advance d st1) e2
               path qstr r2); [done|done|by rewrite Hu2|done|done]. }
  clearbody st1 st2.
  split; [rewrite Hst1; apply lookup_insert_eq|].
  split; [rewrite Hst2, Hp'; apply lookup_insert_eq|].
  split; [by rewrite Hst2|].
  apply (advance_lookup_due (30000 - d) st2 ((clock st + 30000)%Z, key)).
  - rewrite Hst2. simpl. apply elem_of_app. by left.
  - assert (clock st2 = (clock st + d)%Z) as -> by by rewrite Hst2.
    simpl. lia.
Qed.

Lemma prefetch_timer_deletes_by_key_witness :
  let env := sample_env in
  let st := sample_client in
  let e1 := mkPreFetch "rec?doc=com.example.app&rt=1&c=3" (Some sample_purchase) in
  let e2 := mkPreFetch "rec?doc=com.example.app&rt=1&c=3" (Some sample_related) in
  let path := "rec" in
  let qstr := "doc=com.example.app&rt=1&c=3" in
  let d := 10000%Z in
  USE_CACHE st = true
  ∧ url_regex_exec (url e1) = Some (path, qstr) ∧ url e2 = url e1
  ∧ response e1 = Some sample_purchase ∧ response e2 = Some sample_related
  ∧ (0 ≤ d < 30000)%Z
  ∧ let key := cachedGetResolver path (qs_parse env qstr) (JBool false) in
    let st1 := (prefetch_entry env CACHE_INVALIDATION_INTERVAL st e1).2 in
    let st2 := (prefetch_entry env CACHE_INVALIDATION_INTERVAL (advance d st1) e2).2 in
    cache st1 !! key
      = Some {| promise_id := promises st; settled := inr (VMessage sample_purchase) |}
    ∧ cache st2 !! key
      = Some {| promise_id := S (promises st); settled := inr (VMessage sample_related) |}
    ∧ clock st2 = (clock st + d)%Z
    ∧ cache (advance (30000 - d) st2) !! key = None.
Proof.
  assert (url_regex_exec "rec?doc=com.example.app&rt=1&c=3"
          = Some ("rec", "doc=com.example.app&rt=1&c=3")) as Hu.
  { vm_compute. reflexivity. }
  split; [reflexivity|]. split; [exact Hu|]. split; [reflexivity|].
  split; [reflexivity|]. split; [reflexivity|]. split; [lia|].
  apply (prefetch_timer_deletes_by_key sample_env sample_client
           (mkPreFetch "rec?doc=com.example.app&rt=1&c=3" (Some sample_purchase))
           (mkPreFetch "rec?doc=com.example.app&rt=1&c=3" (Some sample_related))
           "rec" "doc=com.example.app&rt=1&c=3" sample_purchase sample_related 10000);
    [reflexivity|exact Hu|reflexivity|reflexivity|reflexivity|lia].
Defined.

(** ** The scripts *)

Lemma respond_not_thrown env st p e : (respond env st p).1 ≠ Throws e.
Proof.
  unfold respond. destruct (settled p) as [e'|body]; [done|].
  destruct (_toResponseWrapper env body) as [e'|[message|]]; [done| |done].
  destruct (USE_CACHE st); [|done].
  by destruct (_tryHandlePrefetch env st message CACHE_INVALIDATION_INTERVAL) as [[e'|[]] st2].
Qed.

Lemma executeRequestApi_not_thrown env st token path query datapost contentType e :
  authToken st = Some token →
  (executeRequestApi env st path query datapost contentType).1 ≠ Throws e.
Proof.
  intros Ht. rewrite executeRequestApi_respond.
  unfold memoizedExecuteRequestApi2.
  rewrite (_executeRequestApi2_sends env st token) by done.
  destruct (USE_CACHE st); [destruct (cache st !! _)|]; apply respond_not_thrown.
Qed.

Lemma and_then_thrown {A B} (r : outcome A * client) (f : A → error + B) e :
  (and_then r f).1 = Throws e → r.1 = Throws e.
Proof.
  destruct r as [[e'|e'|a] st]; simpl; [by intros [= ->]|done|]. by destruct (f a).
Qed.

Lemma GooglePlay_inl env u p a useCache dbg e :
  GooglePlay env u p a useCache dbg = inl e → e ≠ Error "Require Android ID".
Proof.
  unfold GooglePlay, getOrElseThrow.
  destruct (is_undefined u); [by intros [= <-]|].
  destruct (is_undefined p); [by intros [= <-]|]. simpl.
  assert (is_undefined (js_or a JNull) = false) as ->.
  { unfold js_or. destruct (truthy a) eqn:Ha; [by destruct a|done]. }
  simpl. destruct (desc_file env); [done|]. by intros [= <-].
Qed.

Lemma login_state env st :
  (login env st).2 = st ∨ ∃ auth, (login env st).2 = set_authToken (Some auth) st.
Proof.
  unfold login. destruct (_ && _); [by left|].
  destruct (auth_server env _) as [e|res]; [by left|].
  destruct (login_callback res) as [e|auth]; [by left|]. right. eauto.
Qed.

(** X19. The script that looks up the related apps of a package throws
    at once when the user name or the password is missing from the
    environment, and never for a missing device id. It ends the process
    with code 0 exactly when the login succeeded, also when the lookup
    failed, and it logs the related apps exactly when the lookup was
    fulfilled. Its client caches, and sends at most one request to the
    Transport. *)
Theorem related_script_runs (env : Env) (penv : process_env) (pkg : string) :
  let r := related_script env penv pkg in
  let built := GooglePlay env (GOOGLE_LOGIN penv) (GOOGLE_PASSWORD penv) (ANDROID_ID penv)
                 (JBool true) (JBool false) in
  (∀ e, thrown r = Some e ↔ built = inl e)
  ∧ thrown r ≠ Some (Error "Require Android ID")
  ∧ (exit_code r = Some 0%Z
     ↔ ∃ st st', built = inr st ∧ login env st = (Fulfilled tt, st'))
  ∧ (exit_code r = None ∨ exit_code r = Some 0%Z)
  ∧ (∀ docs, console r = [LogRelated docs]
       ↔ ∃ st st' st'', built = inr st ∧ login env st = (Fulfilled tt, st')
                        ∧ getRelatedApps env st' pkg = (Fulfilled docs, st''))
  ∧ (∀ st, final r = Some st →
       USE_CACHE st = true ∧ (length (transport_log st) ≤ 1)%nat).
Proof.
  intros r built. subst r. unfold related_script. fold built.
  destruct built as [e|api] eqn:Hb; simpl.
  { split; [intros e'; split; congruence|]. split; [|split; [|split; [|split]]].
    - apply GooglePlay_inl in Hb. congruence.
    - split; [done|]. by intros (? & ? & ? & _).
    - by left.
    - intros docs. split; [done|]. by intros (? & ? & ? & ? & _).
    - done. }
  apply GooglePlay_inr in Hb as (_ & _ & _ & Hapi).
  pose proof (login_state env api) as Hls.
  destruct (login env api) as [[e|e|[]] st1] eqn:Hl; simpl in *.
  - split; [intros e'; split; congruence|]. split; [done|]. split; [|split; [|split]].
    + split; [done|]. intros (? & ? & [= <-] & ?). congruence.
    + by left.
    + intros docs. split; [done|]. intros (? & ? & ? & [= <-] & ? & _). congruence.
    + intros st [= <-]. destruct Hls as [->|[auth ->]]; subst api; simpl; split; (done || lia).
  - split; [intros e'; split; congruence|]. split; [done|]. split; [|split; [|split]].
    + split; [done|]. intros (? & ? & [= <-] & ?). congruence.
    + by left.
    + intros docs. split; [done|]. intros (? & ? & ? & [= <-] & ? & _). congruence.
    + intros st [= <-]. destruct Hls as [->|[auth ->]]; subst api; simpl; split; (done || lia).
  - destruct (login_fulfilled _ _ _ Hl) as (res & auth & _ & _ & Hst1).
    assert (authToken st1 = Some auth ∧ USE_CACHE st1 = true ∧ transport_log st1 = [])
      as (Ht1 & Hc1 & Hl1) by by subst st1 api.
    destruct (executeRequestApi_effect env st1 "rec" (related_query pkg) JUndefined JUndefined)
      as (_ & Hc2 & _ & _ & (sent & Hsent & Hlen) & _).
    assert ((getRelatedApps env st1 pkg).2
            = (executeRequestApi env st1 "rec" (related_query pkg) JUndefined JUndefined).2)
      as Hst2 by apply and_then_state.
    assert (∀ e, (getRelatedApps env st1 pkg).1 ≠ Throws e) as Hnt.
    { intros e He%and_then_thrown.
      by apply (executeRequestApi_not_thrown env st1 auth) in He. }
    rewrite <-Hst2 in Hc2, Hsent. rewrite Hl1 in Hsent. simpl in Hsent.
    destruct (getRelatedApps env st1 pkg) as [[e|e|docs] st2] eqn:Hg;
      simpl in Hc2, Hsent, Hnt; simpl.
    + by destruct (Hnt e).
    + split; [intros e'; split; congruence|]. split; [done|]. split; [|split; [|split]].
      * split; [eauto|done].
      * by right.
      * intros docs. split; [done|].
        intros (? & ? & ? & [= <-] & Hlog & Hrel).
        rewrite Hl in Hlog. injection Hlog as <-. congruence.
      * intros st [= <-]. split; [congruence|]. rewrite Hsent. lia.
    + split; [intros e'; split; congruence|]. split; [done|]. split; [|split; [|split]].
      * split; [eauto|done].
      * by right.
      * intros docs'. split.
        -- intros [= ->]. eauto 10.
        -- intros (? & ? & ? & [= <-] & Hlog & Hrel).
           rewrite Hl in Hlog. injection Hlog as <-. congruence.
      * intros st [= <-]. split; [congruence|]. rewrite Hsent. lia.
Qed.

Lemma test_steps_requests env st1 auth pkg :
  authToken st1 = Some auth → cache st1 = ∅ → transport_log st1 = [] →
  let r := test_steps env st1 pkg in
  r.1.2 = Some 0%Z
  ∧ USE_CACHE r.2 = USE_CACHE st1
  ∧ ∃ n, (1 ≤ n ≤ 3)%nat
         ∧ req_url <$> transport_log r.2
           = take n ["https://android.clients.google.com/fdfe/details";
                     "https://android.clients.google.com/fdfe/rec";
                     "https://android.clients.google.com/fdfe/purchase"]
         ∧ req_method <$> transport_log r.2 = take n [GET; GET; POST]
         ∧ length r.1.1 = (n - 1)%nat.
Proof.
  intros Ht1 Hc1 Hl1.
  set (body := "ot=1&doc=" +:+ pkg +:+ "&vc=" +:+ pretty 37%Z).
  set (kd := cachedGetResolver "details" [("doc", QStr pkg)] JUndefined).
  set (kr := cachedGetResolver "rec" (related_query pkg) JUndefined).
  set (kp := cachedGetResolver "purchase" [] (JStr body)).
  assert (¬ prefetch_key kr) as Hkr.
  { unfold prefetch_key, kr. by rewrite last_char_get_key. }
  assert (¬ prefetch_key kp) as Hkp by apply last_char_purchase_key.
  assert (NoDup [("doc", QStr pkg)].*1) as Hnd1 by apply NoDup_singleton.
  assert (NoDup (related_query pkg).*1) as Hnd3.
  { simpl. apply (bool_decide_unpack (NoDup ["doc"; "rt"; "c"])). vm_compute. exact I. }
  assert (NoDup (@nil (string * qval)).*1) as Hnd0 by apply NoDup_nil_2.
  assert (kr ≠ kd) as Hrd.
  { intros H. by apply cachedGetResolver_injective in H as [? _]. }
  assert (kp ≠ kd) as Hpd.
  { intros H. by apply cachedGetResolver_injective in H as [? _]. }
  assert (kp ≠ kr) as Hpr.
  { intros H. by apply cachedGetResolver_injective in H as [? _]. }
  (* the details *)
  set (st2 := (executeRequestApi env st1 "details" [("doc", QStr pkg)] JUndefined JUndefined).2).
  assert ((getPackageDetails env st1 pkg).2 = st2) as Hst2 by apply and_then_state.
  destruct (executeRequestApi_effect env st1 "details" [("doc", QStr pkg)] JUndefined JUndefined)
    as (Ht2 & Hc2 & _ & _ & _ & Hk2 & _).
  fold st2 in Ht2, Hc2, Hk2.
  assert (transport_log st2
          = [sent_request st1 auth "details" [("doc", QStr pkg)] JUndefined JUndefined])
    as Hl2.
  { unfold st2. rewrite (executeRequestApi_sends env st1 auth); [by rewrite Hl1|done|].
    right. by rewrite Hc1. }
  assert (∀ e, (getPackageDetails env st1 pkg).1 ≠ Throws e) as Hnt.
  { intros e He%and_then_thrown.
    by apply (executeRequestApi_not_thrown env st1 auth) in He. }
  unfold test_steps.
  destruct (getPackageDetails env st1 pkg) as [[e|e|res] st2'] eqn:Hd;
    simpl in Hst2, Hnt; subst st2'.
  { by destruct (Hnt e). }
  { simpl. split; [done|]. split; [done|]. exists 1%nat. rewrite Hl2.
    repeat split; try done; lia. }
  (* the related apps *)
  set (st3 := (executeRequestApi env st2 "rec" (related_query pkg) JUndefined JUndefined).2).
  assert ((getRelatedApps env st2 pkg).2 = st3) as Hst3 by apply and_then_state.
  destruct (executeRequestApi_effect env st2 "rec" (related_query pkg) JUndefined JUndefined)
    as (Ht3 & Hc3 & _ & _ & _ & Hk3 & _).
  fold st3 in Ht3, Hc3, Hk3.
  assert (transport_log st3
          = [sent_request st1 auth "details" [("doc", QStr pkg)] JUndefined JUndefined;
             sent_request st2 auth "rec" (related_query pkg) JUndefined JUndefined])
    as Hl3.
  { unfold st3. rewrite (executeRequestApi_sends env st2 auth); [by rewrite Hl2|congruence|].
    right. fold kr. rewrite Hk2 by done. by rewrite Hc1. }
  destruct (getRelatedApps env st2 pkg) as [[e|e|res'] st3'] eqn:Hr;
    simpl in Hst3; subst st3'.
  { simpl. split; [done|]. split; [congruence|]. exists 2%nat. rewrite Hl3.
    repeat split; try done; lia. }
  { simpl. split; [done|]. split; [congruence|]. exists 2%nat. rewrite Hl3.
    repeat split; try done; lia. }
  (* the grant *)
  set (st4 := (executeRequestApi env st3 "purchase" [] (JStr body) JUndefined).2).
  assert ((getDownloadInfo env st3 pkg 37).2 = st4) as Hst4 by apply and_then_state.
  destruct (executeRequestApi_effect env st3 "purchase" [] (JStr body) JUndefined)
    as (_ & Hc4 & _).
  fold st4 in Hc4.
  assert (transport_log st4
          = [sent_request st1 auth "details" [("doc", QStr pkg)] JUndefined JUndefined;
             sent_request st2 auth "rec" (related_query pkg) JUndefined JUndefined;
             sent_request st3 auth "purchase" [] (JStr body) JUndefined])
    as Hl4.
  { unfold st4. rewrite (executeRequestApi_sends env st3 auth); [by rewrite Hl3|congruence|].
    right. fold kp. rewrite Hk3, Hk2 by done. by rewrite Hc1. }
  simpl. rewrite Hst4. split; [done|]. split; [congruence|]. exists 3%nat. rewrite Hl4.
  repeat split; try done; lia.
Qed.

Lemma test_flags penv :
  (test_use_cache penv = false ↔ ENV_USE_CACHE penv = JStr "0")
  ∧ (test_debug penv = true ↔ ENV_DEBUG penv = JStr "1").
Proof.
  unfold test_use_cache, test_debug, js_or. split.
  - rewrite negb_false_iff, bool_decide_eq_true.
    destruct (truthy (ENV_USE_CACHE penv)) eqn:Ht; [done|].
    split; [done|]. intros H. by rewrite H in Ht.
  - rewrite bool_decide_eq_true.
    destruct (truthy (ENV_DEBUG penv)) eqn:Ht; [done|].
    split; [done|]. intros H. by rewrite H in Ht.
Qed.

(** X20. The self test reads its flags from the environment: caching is
    on unless [USE_CACHE] is the text [0], debugging is on only when
    [DEBUG] is the text [1]. It ends the process with code 0 exactly when
    the login succeeded. After the login it sends the details request,
    then the request for the related apps, then the purchase POST, each
    only when the one before was fulfilled: whatever the answers, the
    requests it has sent are the first ones of these three, at least
    one of them when the process ended with code 0. *)
Theorem test_runs (env : Env) (penv : process_env) :
  let r := test env penv in
  let built := GooglePlay env (GOOGLE_LOGIN penv) (GOOGLE_PASSWORD penv) (ANDROID_ID penv)
                 (JBool (test_use_cache penv)) (JBool (test_debug penv)) in
  (test_use_cache penv = false ↔ ENV_USE_CACHE penv = JStr "0")
  ∧ (test_debug penv = true ↔ ENV_DEBUG penv = JStr "1")
  ∧ (exit_code r = Some 0%Z
     ↔ ∃ st st', built = inr st ∧ login env st = (Fulfilled tt, st'))
  ∧ (∀ st, final r = Some st →
       USE_CACHE st = test_use_cache penv
       ∧ ∃ n, (n ≤ 3)%nat
              ∧ req_url <$> transport_log st
                = take n ["https://android.clients.google.com/fdfe/details";
                          "https://android.clients.google.com/fdfe/rec";
                          "https://android.clients.google.com/fdfe/purchase"]
              ∧ req_method <$> transport_log st = take n [GET; GET; POST]
              ∧ (exit_code r = Some 0%Z → (1 ≤ n)%nat)).
Proof.
  intros r built. split; [apply test_flags|]. split; [apply test_flags|].
  subst r. unfold test. fold built.
  destruct built as [e|api] eqn:Hb; simpl.
  { split; [|done]. split; [done|]. by intros (? & ? & ? & _). }
  apply GooglePlay_inr in Hb as (_ & _ & _ & Hapi).
  assert (USE_CACHE api = test_use_cache penv ∧ cache api = ∅ ∧ transport_log api = [])
    as (Hca & Hce & Hla).
  { subst api. simpl. split; [|done]. by destruct (test_use_cache penv). }
  pose proof (login_state env api) as Hls.
  destruct (login env api) as [[e|e|[]] st1] eqn:Hl; simpl in *.
  - split.
    + split; [done|]. intros (? & ? & [= <-] & ?). congruence.
    + intros st [= <-].
      assert (USE_CACHE st1 = USE_CACHE api ∧ transport_log st1 = []) as [-> ->].
      { by destruct Hls as [->|[auth ->]]. }
      split; [done|]. exists 0%nat. repeat split; try done; lia.
  - split.
    + split; [done|]. intros (? & ? & [= <-] & ?). congruence.
    + intros st [= <-].
      assert (USE_CACHE st1 = USE_CACHE api ∧ transport_log st1 = []) as [-> ->].
      { by destruct Hls as [->|[auth ->]]. }
      split; [done|]. exists 0%nat. repeat split; try done; lia.
  - destruct (login_fulfilled _ _ _ Hl) as (res & auth & _ & _ & Hst1).
    destruct (test_steps_requests env st1 auth "com.viber.voip")
      as (Hexit & Hc & n & Hn & Hurls & Hmeth & _); [by subst st1..|].
    split.
    + split; [eauto|done].
    + intros st [= <-]. split; [rewrite Hc; by subst st1|].
      exists n. repeat split; try done; lia.
Qed.

(** ** A login and the cache *)

(** X21. A login never touches the cache, the timers, the clock or the
    logs of requests, whether it succeeds or fails. With caching enabled,
    a call whose fingerprint was cached before the login is answered after
    it as it would have been answered before it, from the same cached
    promise and without a Transport request, also when the login has
    replaced the token; the entry is still in the cache afterwards unless
    its fingerprint is one that the prefetch ingester can make. *)
Theorem login_keeps_the_cache (env : Env) (st : client) :
  let st' := (login env st).2 in
  cache st' = cache st ∧ timers st' = timers st
  ∧ transport_log st' = transport_log st ∧ download_log st' = download_log st
  ∧ USE_CACHE st' = USE_CACHE st ∧ clock st' = clock st
  ∧ ∀ path query datapost contentType p,
      USE_CACHE st = true →
      cache st !! cachedGetResolver path query datapost = Some p →
      let r0 := executeRequestApi env st path query datapost contentType in
      let r := executeRequestApi env st' path query datapost contentType in
      r.1 = r0.1
      ∧ transport_log r.2 = transport_log st
      ∧ (¬ ingester_key (cachedGetResolver path query datapost) →
         cache r.2 !! cachedGetResolver path query datapost = Some p).
Proof.
  intros st'.
  assert (cache st' = cache st ∧ timers st' = timers st
          ∧ transport_log st' = transport_log st ∧ download_log st' = download_log st
          ∧ USE_CACHE st' = USE_CACHE st ∧ clock st' = clock st)
    as (Hca & Hti & Hl & Hd & Hc' & Hcl).
  { subst st'. by destruct (login_state env st) as [->|[auth ->]]. }
  do 6 (split; [done|]).
  intros path query datapost contentType p Hc Hp r0 r.
  assert (r0 = respond env st p) as ->.
  { subst r0. rewrite executeRequestApi_respond.
    by rewrite (memoized_hit env st path query datapost contentType p). }
  assert (r = respond env st' p) as ->.
  { subst r. rewrite executeRequestApi_respond.
    rewrite (memoized_hit env st' path query datapost contentType p); [done|congruence|].
    by rewrite Hca. }
  destruct (respond_ingester_frame env st' p) as (_ & _ & Hl' & _ & _ & Hk' & _).
  split; [by apply respond_result|]. split; [congruence|].
  intros Hk. rewrite Hk' by done. by rewrite Hca.
Qed.

(** On the sample world: the answer cached for the related apps is served
    after a login that replaces the token, and nothing is sent. *)
Example login_keeps_the_cache_sample :
  let env := auth_env auth_ok in
  let key := cachedGetResolver "rec" (related_query "com.example.app") JUndefined in
  let st := (getRelatedApps env (set_authToken (Some "old") sample_client)
               "com.example.app").2 in
  let st' := (login env st).2 in
  let r := getRelatedApps env st' "com.example.app" in
  authToken st = Some "old" ∧ authToken st' = Some "XYZ"
  ∧ is_Some (cache st !! key)
  ∧ r.1 = Fulfilled sample_docs
  ∧ transport_log r.2 = transport_log st
  ∧ length (transport_log st) = 1%nat.
Proof. vm_compute. repeat split; try done. by eexists. Qed.

(** ** The scripts, run on the sample world *)

Example related_script_sample :
  let r := related_script (auth_env auth_ok) sample_process_env "com.example.app" in
  thrown r = None ∧ console r = [LogRelated sample_docs] ∧ exit_code r = Some 0%Z.
Proof. vm_compute. by repeat split. Qed.

Example related_script_without_password :
  let penv := {| GOOGLE_LOGIN := JStr "user@example.com"; GOOGLE_PASSWORD := JUndefined;
                 ANDROID_ID := JUndefined; ENV_USE_CACHE := JUndefined;
                 ENV_DEBUG := JUndefined |} in
  related_script (auth_env auth_ok) penv "com.example.app"
  = {| thrown := Some (Error "Require password"); console := []; exit_code := None;
       final := None |}.
Proof. reflexivity. Qed.

Example related_script_login_refused :
  let r := related_script sample_env sample_process_env "com.example.app" in
  thrown r = None ∧ console r = [] ∧ exit_code r = None.
Proof. vm_compute. by repeat split. Qed.

Example test_sample :
  let r := test (auth_env auth_ok) sample_process_env in
  exit_code r = Some 0%Z
  ∧ from_option (fun st => req_method <$> transport_log st) [] (final r) = [GET; GET; POST]
  ∧ from_option USE_CACHE false (final r) = true.
Proof. vm_compute. by repeat split. Qed.
